(** * Drawing blueprint platform: the step pipeline core

    A shallow embedding of [backend/app/core] (contour analyzer, step
    planner, tone and shading mappers, blueprint engine, canvas renderer
    and the step generator that sequences them), with the properties that
    the specification states about them, and of the grid engine, the
    image resizing and the complexity score of [backend/app/ai], with
    further properties of all of these.

    Conventions of the embedding.
    - Python [int] is [Z]; list positions produced by [enumerate] and
      [range(len(..))] are [nat].
    - Python [float] is the exact rational [Q]: arithmetic, comparisons,
      [min], [max], [abs], [int(..)] and [round(.., n)] are the exact ones,
      so binary64 rounding error is outside the model.
    - Results of OpenCV calls (contour extraction, moments, blurring) are
      inputs or parameters of the functions that consume them. *)

From Stdlib Require Import QArith Qround Qminmax Qabs ZArith Lia Lqa Sorted.
From stdpp Require Import base gmap sets list strings pretty.

(** ** Python numerics on [Q] *)

Module Py.

(** [a < b] on floats. *)
Definition Qltb (a b : Q) : bool := negb (Qle_bool b a).

(** [int(x)] and [ndarray.astype(np.int32)]: truncation toward zero. *)
Definition int (x : Q) : Z :=
  if Qle_bool 0 x then Qfloor x else Qceiling x.

(** Rounding to the nearest integer, ties to the even one, as [round]
    does. *)
Definition round_half_even (x : Q) : Z :=
  let f := Qfloor x in
  let r := (x - inject_Z f)%Q in
  match (r ?= 1 # 2)%Q with
  | Lt => f
  | Gt => (f + 1)%Z
  | Eq => if Z.even f then f else (f + 1)%Z
  end.

(** [round(x, ndigits)] for [ndigits >= 0]. *)
Definition round (x : Q) (ndigits : nat) : Q :=
  let scale := inject_Z (10 ^ Z.of_nat ndigits) in
  (inject_Z (round_half_even (x * scale)) / scale)%Q.

(** [x / y] with [y] a Python number: [None] is [ZeroDivisionError]. *)
Definition div (x y : Q) : option Q :=
  if Qeq_bool y 0 then None else Some (x / y)%Q.

(** [sum(xs)] over floats. *)
Definition sum (xs : list Q) : Q := foldl Qplus 0%Q xs.

End Py.

(** ** contour_analyzer.py: the data *)

Module ContourAnalyzer.

Record AnalyzedContour := {
  points_normalised : list (Q * Q);
  area : Q;
  perimeter : Q;
  depth : Z;
  parent_idx : Z;
  centroid : Q * Q;
  tier : string;
  importance_score : Q;
}.

(** One contour as [cv2.findContours] returns it, with what
    [cv2.contourArea], [cv2.arcLength] and [cv2.moments] report for it. *)
Record FoundContour := {
  pixels : list (Z * Z);
  contourArea : Q;
  arcLength : Q;
  m00 : Q;
  m10 : Q;
  m01 : Q;
}.

(** [a[i]] on a numpy axis: negative positions count from the end and
    [None] is [IndexError]. *)
Definition np_index {A} (a : list A) (i : Z) : option A :=
  let n := Z.of_nat (length a) in
  if (0 <=? i)%Z then a !! Z.to_nat i
  else if (- n <=? i)%Z then a !! Z.to_nat (n + i)
  else None.

(** [_compute_centroid]; the fallback is the mean of the points. *)
Definition _compute_centroid (contour : FoundContour) : option (Q * Q) :=
  if Qeq_bool (m00 contour) 0 then
    let n := inject_Z (Z.of_nat (length (pixels contour))) in
    cx ← Py.div (Py.sum (map (fun p => inject_Z p.1) (pixels contour))) n;
    cy ← Py.div (Py.sum (map (fun p => inject_Z p.2) (pixels contour))) n;
    Some (cx, cy)
  else
    cx ← Py.div (m10 contour) (m00 contour);
    cy ← Py.div (m01 contour) (m00 contour);
    Some (cx, cy).

(** The [while] loop of [_compute_depth]; [hierarchy] holds the parent
    entry [hierarchy[0, i, 3]] of every contour.  The walk is cut after
    [fuel] lookups. *)
Fixpoint depth_walk (fuel : nat) (hierarchy : list Z) (current depth : Z)
    : option Z :=
  match fuel with
  | O => None
  | S fuel' =>
    parent ← np_index hierarchy current;
    if (parent =? -1)%Z then Some depth
    else depth_walk fuel' hierarchy parent (depth + 1)%Z
  end.

(** [_compute_depth]: a walk that sees no position twice makes at most
    [length hierarchy] lookups, so [None] is an [IndexError] or a walk
    caught in a cycle of parent links. *)
Definition _compute_depth (hierarchy : list Z) (idx : Z) : option Z :=
  depth_walk (S (length hierarchy)) hierarchy idx 0.

Definition _classify_tier (depth : Z) : string :=
  if (depth =? 0)%Z then "outer"
  else if (depth <=? 2)%Z then "inner"
  else "detail".

(** The composite importance score of [analyze_contours]. *)
Definition importance_of (depth : Z) (area_norm perimeter_norm : Q) : Q :=
  let depth_weight := (inject_Z (Z.max 0 (5 - depth)) / 5)%Q in
  let area_weight := Qmin (area_norm * 10) 1 in
  let structure_weight := Qmin (perimeter_norm * 2) 1 in
  (50 # 100) * depth_weight
  + (35 # 100) * area_weight
  + (15 # 100) * structure_weight.

(** The body of [for idx, contour in enumerate(contours)] for a contour
    that is not skipped as noise. *)
Definition analyze_one (h w : Z) (hierarchy : list Z) (idx : Z)
    (contour : FoundContour) : option AnalyzedContour :=
  let image_area := (h * w)%Z in
  let perimeter_px := arcLength contour in
  depth ← _compute_depth hierarchy idx;
  let tier := _classify_tier depth in
  parent_idx ← np_index hierarchy idx;
  area_norm ← Py.div (contourArea contour) (inject_Z image_area);
  perimeter_norm ← Py.div perimeter_px (inject_Z (Z.max w h));
  c_px ← _compute_centroid contour;
  cx ← Py.div c_px.1 (inject_Z w);
  cy ← Py.div c_px.2 (inject_Z h);
  let pts :=
    map (fun p => (inject_Z p.1 / inject_Z w, inject_Z p.2 / inject_Z h)%Q)
        (pixels contour) in
  Some {| points_normalised := pts;
          area := area_norm;
          perimeter := perimeter_norm;
          depth := depth;
          parent_idx := parent_idx;
          centroid := (cx, cy);
          tier := tier;
          importance_score := importance_of depth area_norm perimeter_norm |}.

(** The loop over the found contours, from position [idx] on, appending
    to [analyzed]. *)
Fixpoint analyze_loop (h w : Z) (hierarchy : list Z) (min_area_px : Q)
    (idx : Z) (found : list FoundContour) (analyzed : list AnalyzedContour)
    : option (list AnalyzedContour) :=
  match found with
  | [] => Some analyzed
  | contour :: rest =>
    if Py.Qltb (contourArea contour) min_area_px then
      analyze_loop h w hierarchy min_area_px (idx + 1)%Z rest analyzed
    else
      c ← analyze_one h w hierarchy idx contour;
      analyze_loop h w hierarchy min_area_px (idx + 1)%Z rest
                   (analyzed ++ [c])
  end.

(** The contours that survive, in extraction order: [analyze_contours] up
    to its final sort. *)
Definition analyzed_in_order (h w : Z) (found : list FoundContour)
    (hierarchy : option (list Z)) (min_area_fraction : Q)
    : option (list AnalyzedContour) :=
  match hierarchy, found with
  | None, _ | _, [] => Some []
  | Some hier, _ :: _ =>
    let image_area := (h * w)%Z in
    let min_area_px := (inject_Z image_area * min_area_fraction)%Q in
    analyze_loop h w hier min_area_px 0 found []
  end.

(** [list.sort(key=lambda c: c.importance_score, reverse=True)]: the
    stable sort into descending order, here by insertion from the right. *)
Fixpoint insert_desc (c : AnalyzedContour) (sorted : list AnalyzedContour)
    : list AnalyzedContour :=
  match sorted with
  | [] => [c]
  | d :: rest =>
    if Py.Qltb (importance_score c) (importance_score d)
    then d :: insert_desc c rest
    else c :: d :: rest
  end.

Definition sort_by_importance (l : list AnalyzedContour)
    : list AnalyzedContour :=
  foldr insert_desc [] l.

(** [analyze_contours], given the image size and the result of
    [cv2.findContours] on the dilated edge map. *)
Definition analyze_contours (h w : Z) (found : list FoundContour)
    (hierarchy : option (list Z)) (min_area_fraction : Q)
    : option (list AnalyzedContour) :=
  sort_by_importance <$> analyzed_in_order h w found hierarchy
                                           min_area_fraction.

(** The importance formula in the specification's words. *)
Definition depth_weight (depth : Z) : Q :=
  (Qmax 0 (5 - inject_Z depth) / 5)%Q.
Definition area_weight (normalized_area : Q) : Q :=
  Qmin (normalized_area * 10) 1.
Definition structure_weight (normalized_perimeter : Q) : Q :=
  Qmin (normalized_perimeter * 2) 1.
Definition importance_formula (depth : Z)
    (normalized_area normalized_perimeter : Q) : Q :=
  ((1 # 2) * depth_weight depth
   + (35 # 100) * area_weight normalized_area
   + (15 # 100) * structure_weight normalized_perimeter)%Q.

(** The contours of [l] whose score equals [v], in the order of [l]. *)
Definition with_score (v : Q) (l : list AnalyzedContour)
    : list AnalyzedContour :=
  List.filter (fun c => Qeq_bool (importance_score c) v) l.

(** [a] may stand before [b] in descending order. *)
Definition not_below (a b : AnalyzedContour) : Prop :=
  (importance_score b <= importance_score a)%Q.

(** The contours that the noise check of [analyze_contours] keeps. *)
Definition kept (min_area_px : Q) (found : list FoundContour)
    : list FoundContour :=
  List.filter (fun contour =>
                 negb (Py.Qltb (contourArea contour) min_area_px)) found.

(** [c] is what the loop body records for [contour] in an image of height
    [h] and width [w]. *)
Definition records (h w : Z) (hierarchy : list Z) (contour : FoundContour)
    (c : AnalyzedContour) : Prop :=
  exists idx, analyze_one h w hierarchy idx contour = Some c.

(** Every parent entry is [-1] or the position of an earlier contour. *)
Definition parents_first (hierarchy : list Z) : Prop :=
  forall (i : nat) (p : Z),
    hierarchy !! i = Some p -> (-1 <= p < Z.of_nat i)%Z.

(** The centroid of a contour can be computed: its area moment is not
    zero or it has at least one point. *)
Definition has_centroid (contour : FoundContour) : Prop :=
  ~ (m00 contour == 0)%Q \/ pixels contour <> [].

(** A pixel position of an image of width [w] and height [h]. *)
Definition in_image (w h : Z) (p : Z * Z) : Prop :=
  (0 <= p.1 < w)%Z /\ (0 <= p.2 < h)%Z.

(** A point of the unit square, the right and lower border left out. *)
Definition in_unit_square (p : Q * Q) : Prop :=
  (0 <= p.1 /\ p.1 < 1)%Q /\ (0 <= p.2 /\ p.2 < 1)%Q.

End ContourAnalyzer.

(** ** step_planner.py *)

Module StepPlanner.
Import ContourAnalyzer.

Record DrawingStep := {
  step_number : Z;
  phase_name : string;
  description : string;
  contours : list AnalyzedContour;
  is_shading_step : bool;
}.

Record Phase := {
  name : string;
  phase_description : string;
  tiers : list string;
  min_importance : Q;
  max_contours : Z;
}.

Definition _PHASES : list Phase := [
  {| name := "Primary Outline";
     phase_description := "Draw the main outer shape — the overall silhouette";
     tiers := ["outer"];
     min_importance := 6 # 10;
     max_contours := 3 |};
  {| name := "Secondary Shapes";
     phase_description := "Add large internal structures and secondary outlines";
     tiers := ["outer"; "inner"];
     min_importance := 4 # 10;
     max_contours := 5 |};
  {| name := "Internal Details";
     phase_description := "Draw inner features and medium-sized details";
     tiers := ["inner"];
     min_importance := 2 # 10;
     max_contours := 8 |};
  {| name := "Fine Details";
     phase_description := "Add fine lines and smaller shapes";
     tiers := ["inner"; "detail"];
     min_importance := 1 # 10;
     max_contours := 12 |};
  {| name := "Texture & Finishing";
     phase_description := "Add textures, tiny details, and finishing touches";
     tiers := ["detail"];
     min_importance := 0;
     max_contours := 999 |}
]%string.

(** The inner loop [for i, c in enumerate(contours)] of one phase, from
    position [i] on: [batch] and [assigned] are the loop's two mutable
    variables, and reaching [max_contours] leaves the loop. *)
Fixpoint scan_phase (phase : Phase) (i : nat) (cs : list AnalyzedContour)
    (batch : list AnalyzedContour) (assigned : gset nat)
    : list AnalyzedContour * gset nat :=
  match cs with
  | [] => (batch, assigned)
  | c :: rest =>
    if bool_decide (i ∈ assigned) then
      scan_phase phase (S i) rest batch assigned
    else if negb (bool_decide (tier c ∈ tiers phase)) then
      scan_phase phase (S i) rest batch assigned
    else if Py.Qltb (importance_score c) (min_importance phase) then
      scan_phase phase (S i) rest batch assigned
    else
      let batch' := batch ++ [c] in
      let assigned' := assigned ∪ {[ i ]} in
      if (max_contours phase <=? Z.of_nat (length batch'))%Z then
        (batch', assigned')
      else scan_phase phase (S i) rest batch' assigned'
  end.

(** The three variables that the loop over [_PHASES] updates. *)
Record PlanState := {
  assigned : gset nat;
  steps : list DrawingStep;
  step_num : Z;
}.

(** One iteration of [for phase in _PHASES]. *)
Definition phase_body (cs : list AnalyzedContour) (st : PlanState)
    (phase : Phase) : PlanState :=
  let '(batch, assigned') := scan_phase phase 0 cs [] (assigned st) in
  match batch with
  | [] => {| assigned := assigned'; steps := steps st;
             step_num := step_num st |}
  | _ :: _ =>
    {| assigned := assigned';
       steps := steps st ++ [
         {| step_number := step_num st;
            phase_name := name phase;
            description := phase_description phase;
            contours := batch;
            is_shading_step := false |} ];
       step_num := (step_num st + 1)%Z |}
  end.

(** [[contours[i] for i in range(len(contours)) if i not in assigned]] *)
Definition remaining_of (cs : list AnalyzedContour) (assigned : gset nat)
    : list AnalyzedContour :=
  omap (fun i => if bool_decide (i ∈ assigned) then None else cs !! i)
       (seq 0 (length cs)).

(** [s.step_number += 1] *)
Definition renumber (s : DrawingStep) : DrawingStep :=
  {| step_number := (step_number s + 1)%Z;
     phase_name := phase_name s;
     description := description s;
     contours := contours s;
     is_shading_step := is_shading_step s |}.

Definition grid_step : DrawingStep :=
  {| step_number := 0;
     phase_name := "Preparation";
     description := "Your blank grid — start drawing at the marked point";
     contours := [];
     is_shading_step := false |}.

Definition plan_steps (cs : list AnalyzedContour) (include_shading : bool)
    : list DrawingStep :=
  let st0 := {| assigned := ∅; steps := []; step_num := 1 |} in
  let st1 := foldl (phase_body cs) st0 _PHASES in
  let remaining := remaining_of cs (assigned st1) in
  let st2 :=
    match remaining with
    | [] => st1
    | _ :: _ =>
      {| assigned := assigned st1;
         steps := steps st1 ++ [
           {| step_number := step_num st1;
              phase_name := "Additional Details";
              description := "Complete any remaining small details";
              contours := remaining;
              is_shading_step := false |} ];
         step_num := (step_num st1 + 1)%Z |}
    end in
  let steps3 :=
    if include_shading then
      steps st2 ++ [
        {| step_number := step_num st2;
           phase_name := "Shading";
           description :=
             "Add shading — fill in shadow and mid-tone regions";
           contours := [];
           is_shading_step := true |} ]
    else steps st2 in
  (* computed by the source and not used afterwards *)
  let primary_centroid : Q * Q :=
    match cs with
    | [] => (5 # 10, 5 # 10)
    | c :: _ => centroid c
    end in
  grid_step :: map renumber steps3.

(** [total_contour_count] *)
Definition total_contour_count (steps : list DrawingStep) : Z :=
  foldl Z.add 0%Z
    (map (fun s => Z.of_nat (length (contours s)))
         (filter (fun s => is_shading_step s = false) steps)).

(** The batches of the non-shading steps, one after the other. *)
Definition drawn_contours (steps : list DrawingStep) : list AnalyzedContour :=
  concat (map contours (filter (fun s => is_shading_step s = false) steps)).

(** Vocabulary for the planner's invariant: the contours of [cs] whose
    position, counted from [i], satisfies [keep]. *)
Fixpoint select (keep : nat -> bool) (i : nat) (cs : list AnalyzedContour)
    : list AnalyzedContour :=
  match cs with
  | [] => []
  | c :: rest =>
    if keep i then c :: select keep (S i) rest else select keep (S i) rest
  end.

(** The invariant of the loop over the phases: numbering from 1, batches
    taken in input order, and the batches so far hold exactly the
    contours at the assigned positions. *)
Definition plan_inv (cs : list AnalyzedContour) (st : PlanState) : Prop :=
  step_num st = (Z.of_nat (length (steps st)) + 1)%Z /\
  map step_number (steps st)
    = map (fun k => (Z.of_nat k + 1)%Z) (seq 0 (length (steps st))) /\
  Forall (fun s => is_shading_step s = false /\ contours s `sublist_of` cs)
         (steps st) /\
  concat (map contours (steps st))
    ≡ₚ select (fun j => bool_decide (j ∈ assigned st)) 0 cs.

(** The state after the trailing "Additional Details" step. *)
Definition after_remaining (cs : list AnalyzedContour) (st1 : PlanState)
    : PlanState :=
  match remaining_of cs (assigned st1) with
  | [] => st1
  | _ :: _ =>
    {| assigned := assigned st1;
       steps := steps st1 ++ [
         {| step_number := step_num st1;
            phase_name := "Additional Details";
            description := "Complete any remaining small details";
            contours := remaining_of cs (assigned st1);
            is_shading_step := false |} ];
       step_num := (step_num st1 + 1)%Z |}
  end.

(** A contour passes the tier and importance checks of a phase. *)
Definition accepts (phase : Phase) (c : AnalyzedContour) : Prop :=
  tier c ∈ tiers phase /\ (min_importance phase <= importance_score c)%Q.

(** A step as the loop over the phases appends it for [phase]. *)
Definition made_by (phase : Phase) (s : DrawingStep) : Prop :=
  phase_name s = name phase /\
  is_shading_step s = false /\
  contours s <> [] /\
  (Z.of_nat (length (contours s)) <= Z.max 1 (max_contours phase))%Z /\
  Forall (accepts phase) (contours s).

(** The phase steps so far come from the phases in [done], in their
    order. *)
Definition phase_steps_inv (done : list Phase) (st : PlanState) : Prop :=
  Forall (fun s => exists phase, phase ∈ done /\ made_by phase s)
         (steps st) /\
  map phase_name (steps st) `sublist_of` map name done.

End StepPlanner.

(** ** step_generator.py: the calls made to the renderer *)

Module StepGenerator.
Import ContourAnalyzer StepPlanner.

(** The arguments of one [render_step] call that depend on the plan. *)
Record RenderCall := {
  rc_step_number : Z;
  rc_phase_name : string;
  previous_contours : list AnalyzedContour;
  new_contours : list AnalyzedContour;
  start_centroid : option (Q * Q);
  with_shading_mask : bool;
}.

(** [contours[0].centroid if contours else (0.5, 0.5)] *)
Definition primary_centroid (cs : list AnalyzedContour) : Q * Q :=
  match cs with
  | [] => (5 # 10, 5 # 10)
  | c :: _ => centroid c
  end.

(** The loop [for step in steps], with [all_previous_contours] threaded
    through it. *)
Fixpoint render_loop (primary : Q * Q) (steps : list DrawingStep)
    (all_previous_contours : list AnalyzedContour) : list RenderCall :=
  match steps with
  | [] => []
  | step :: rest =>
    {| rc_step_number := step_number step;
       rc_phase_name := phase_name step;
       previous_contours := all_previous_contours;
       new_contours := contours step;
       start_centroid := Some primary;
       with_shading_mask := is_shading_step step |}
    :: render_loop primary rest (all_previous_contours ++ contours step)
  end.

Definition render_calls (cs : list AnalyzedContour) (include_shading : bool)
    : list RenderCall :=
  render_loop (primary_centroid cs) (plan_steps cs include_shading) [].

(** [if start_centroid and step_number <= 1] in [render_step]. *)
Definition draws_start_marker (call : RenderCall) : bool :=
  match start_centroid call with
  | Some _ => (rc_step_number call <=? 1)%Z
  | None => false
  end.

Record StepResult := {
  sr_step_number : Z;
  sr_phase_name : string;
  sr_description : string;
  image_filename : string;
  image_url : string;
  new_contour_count : Z;
  total_contours_so_far : Z;
  sr_is_shading_step : bool;
}.

Section Session.

(** [f"{n:02d}"] *)
Variable format_02d : Z -> string.

(** [uuid.uuid4().hex[:12]] *)
Variable session_id : string.

(** The loop [for step in steps] as a whole: the [render_step] call and
    the [StepResult] of every step. *)
Fixpoint generation_loop (primary : Q * Q) (steps : list DrawingStep)
    (all_previous_contours : list AnalyzedContour)
    : list (RenderCall * StepResult) :=
  match steps with
  | [] => []
  | step :: rest =>
    let filename := "step_" +:+ format_02d (step_number step) +:+ ".png" in
    let call :=
      {| rc_step_number := step_number step;
         rc_phase_name := phase_name step;
         previous_contours := all_previous_contours;
         new_contours := contours step;
         start_centroid := Some primary;
         with_shading_mask := is_shading_step step |} in
    let image_url := "/static/steps/" +:+ session_id +:+ "/" +:+ filename in
    let total_so_far :=
      (Z.of_nat (length all_previous_contours)
       + Z.of_nat (length (contours step)))%Z in
    let result :=
      {| sr_step_number := step_number step;
         sr_phase_name := phase_name step;
         sr_description := description step;
         image_filename := filename;
         image_url := image_url;
         new_contour_count := Z.of_nat (length (contours step));
         total_contours_so_far := total_so_far;
         sr_is_shading_step := is_shading_step step |} in
    (call, result)
    :: generation_loop primary rest (all_previous_contours ++ contours step)
  end.

(** Steps 3 and 5 of [generate_drawing_steps], from the ranked contours
    on. *)
Definition generation (cs : list AnalyzedContour) (include_shading : bool)
    : list (RenderCall * StepResult) :=
  generation_loop (primary_centroid cs) (plan_steps cs include_shading) [].

End Session.

End StepGenerator.

(** ** tone_mapper.py *)

Module ToneMapper.

(** A single-channel uint8 image, row by row. *)
Definition image := list (list Z).

(** [(label, low_threshold, high_threshold, mask_value)] *)
Definition DEFAULT_BANDS : list (string * Z * Z * Z) :=
  [ ("deep_shadow", 0, 80, 0);
    ("mid_tone", 81, 180, 1);
    ("highlight", 181, 255, 2) ]%Z.

(** [np.full((h, w), v)] with the shape of [img]. *)
Definition full_like (img : image) (v : Z) : image :=
  map (map (fun _ => v)) img.

(** [cv2.inRange(src, low, high)]: 255 where [low <= src <= high], else 0. *)
Definition inRange (src : image) (low high : Z) : image :=
  map (map (fun p => if (low <=? p)%Z && (p <=? high)%Z then 255 else 0)%Z)
      src.

(** [mask[region > 0] = val], for a value [val] that the uint8 mask can
    hold; the assignment of a Python int outside 0..255 raises
    [OverflowError] and is not modelled here. *)
Definition assign_where (mask region : image) (val : Z) : image :=
  zip_with (zip_with (fun m r => if (0 <? r)%Z then val else m)) mask region.

(** The part of [generate_tone_mask] after smoothing: the mask starts as
    highlight everywhere and every band overwrites its pixels in turn. *)
Definition mask_of_smoothed (smoothed : image)
    (bands : list (string * Z * Z * Z)) : image :=
  foldl (fun mask band =>
           let '(label, low, high, val) := band in
           assign_where mask (inRange smoothed low high) val)
        (full_like smoothed 2) bands.

Section Blur.

(** [cv2.GaussianBlur(src, (ksize, ksize), 0)] *)
Variable GaussianBlur : image -> Z -> image.

(** [generate_tone_mask] on a uint8 image. *)
Definition generate_tone_mask (grayscale : image)
    (bands : option (list (string * Z * Z * Z))) (blur_ksize : Z) : image :=
  let bands := default DEFAULT_BANDS bands in
  let smoothed := GaussianBlur grayscale blur_ksize in
  mask_of_smoothed smoothed bands.

End Blur.

(** [np.sum(mask == v)] *)
Definition count_equal (mask : image) (v : Z) : Z :=
  Z.of_nat (length (filter (fun m => m = v) (concat mask))).

(** [mask.size] *)
Definition size (mask : image) : Z := Z.of_nat (length (concat mask)).

(** [round(float(count) / total * 100, 1)]; [None] is
    [ZeroDivisionError]. *)
Definition percentage (count total : Z) : option Q :=
  q ← Py.div (inject_Z count) (inject_Z total);
  Some (Py.round (q * 100) 1).

(** [tone_summary]: the values of "deep_shadow", "mid_tone" and
    "highlight", in this order. *)
Definition tone_summary (mask : image) : option (Q * Q * Q) :=
  let total := size mask in
  deep_shadow ← percentage (count_equal mask 0) total;
  mid_tone ← percentage (count_equal mask 1) total;
  highlight ← percentage (count_equal mask 2) total;
  Some (deep_shadow, mid_tone, highlight).

(** The band value of one smoothed pixel under the default bands, as the
    specification gives it. *)
Definition default_band_value (p : Z) : Z :=
  if (0 <=? p)%Z && (p <=? 80)%Z then 0
  else if (81 <=? p)%Z && (p <=? 180)%Z then 1
  else 2.

Definition band_value (v : Z) : Prop := v = 0%Z \/ v = 1%Z \/ v = 2%Z.

(** The band value of one smoothed pixel after all the bands. *)
Definition pixel_after (bands : list (string * Z * Z * Z)) (start p : Z)
    : Z :=
  foldl (fun m band =>
           let '(label, low, high, val) := band in
           if (low <=? p)%Z && (p <=? high)%Z then val else m)
        start bands.

(** The range of [band] holds the smoothed pixel [p]. *)
Definition holds (p : Z) (band : string * Z * Z * Z) : bool :=
  let '(label, low, high, val) := band in
  (low <=? p)%Z && (p <=? high)%Z.

(** The mask value of the last band of the table that holds [p], and the
    highlight value 2 when no band does. *)
Definition last_band_value (bands : list (string * Z * Z * Z)) (p : Z)
    : Z :=
  match last (List.filter (holds p) bands) with
  | Some (label, low, high, val) => val
  | None => 2
  end.

(** The mask value of the band is one that the uint8 mask can hold. *)
Definition uint8_value (band : string * Z * Z * Z) : Prop :=
  (0 <= band.2 <= 255)%Z.

(** A percentage. *)
Definition percent (q : Q) : Prop := (0 <= q /\ q <= 100)%Q.

End ToneMapper.

(** ** shading_mapper.py *)

Module ShadingMapper.
Import ToneMapper.

Definition DEFAULT_BANDS : list (string * Z * Z) :=
  [ ("deep_shadow", 0, 63);
    ("mid_tone", 64, 191);
    ("highlight", 192, 255) ]%Z.

(** One row of the [stats] array of
    [cv2.connectedComponentsWithStats]. *)
Record Stats := {
  CC_STAT_LEFT : Z;
  CC_STAT_TOP : Z;
  CC_STAT_WIDTH : Z;
  CC_STAT_HEIGHT : Z;
  CC_STAT_AREA : Z;
}.

Record BoundingBox := {
  x_min : Q;
  y_min : Q;
  x_max : Q;
  y_max : Q;
}.

Record Region := {
  region_id : Z;
  label : string;
  intensity_range : Q * Q;
  pixel_count : Z;
  bounding_box : BoundingBox;
}.

Section Components.

(** [cv2.connectedComponentsWithStats(mask, connectivity=8)]: the stats
    rows of the labels 1, 2, ... (the background label 0 left out). *)
Variable connectedComponentsWithStats : image -> list Stats.

(** The loop [for i in range(1, num_labels)], appending to [regions]. *)
Fixpoint regions_loop (h w : Z) (label : string) (low high offset : Z)
    (stats : list Stats) (regions : list Region) : option (list Region) :=
  match stats with
  | [] => Some regions
  | st :: rest =>
    let px_count := CC_STAT_AREA st in
    if Py.Qltb (inject_Z px_count) (inject_Z (h * w) * (1 # 1000)) then
      regions_loop h w label low high offset rest regions
    else
      let x_min := CC_STAT_LEFT st in
      let y_min := CC_STAT_TOP st in
      let cw := CC_STAT_WIDTH st in
      let ch := CC_STAT_HEIGHT st in
      bx0 ← Py.div (inject_Z x_min) (inject_Z w);
      by0 ← Py.div (inject_Z y_min) (inject_Z h);
      bx1 ← Py.div (inject_Z (x_min + cw)) (inject_Z w);
      by1 ← Py.div (inject_Z (y_min + ch)) (inject_Z h);
      regions_loop h w label low high offset rest
        (regions ++ [
           {| region_id := offset + Z.of_nat (length regions);
              label := label;
              intensity_range := (inject_Z low, inject_Z high);
              pixel_count := px_count;
              bounding_box :=
                {| x_min := Py.round bx0 6; y_min := Py.round by0 6;
                   x_max := Py.round bx1 6; y_max := Py.round by1 6 |} |} ])
  end.

Definition _regions_for_band (gray : image) (label : string)
    (low high offset : Z) : option (list Region) :=
  let mask := inRange gray low high in
  let stats := connectedComponentsWithStats mask in
  let h := Z.of_nat (length gray) in
  let w := Z.of_nat (length (List.hd [] gray)) in
  regions_loop h w label low high offset stats [].

(** The loop [for label, low, high in bands]. *)
Fixpoint bands_loop (grayscale : image) (bands : list (string * Z * Z))
    (all_regions : list Region) (offset : Z) : option (list Region) :=
  match bands with
  | [] => Some all_regions
  | (label, low, high) :: rest =>
    regions ← _regions_for_band grayscale label low high offset;
    bands_loop grayscale rest (all_regions ++ regions)
               (offset + Z.of_nat (length regions))
  end.

(** [map_shading] on a uint8 image. *)
Definition map_shading (grayscale : image)
    (bands : option (list (string * Z * Z))) : option (list Region) :=
  let bands := default DEFAULT_BANDS bands in
  bands_loop grayscale bands [] 0.

End Components.

(** The labels of the bands of a table whose range holds intensity [p]. *)
Definition bands_holding (bands : list (string * Z * Z)) (p : Z)
    : list string :=
  omap (fun band =>
          let '(label, low, high) := band in
          if (low <=? p)%Z && (p <=? high)%Z then Some label else None)
       bands.

(** The bounding box of a component lies in an image of width [w] and
    height [h]. *)
Definition stats_in_image (w h : Z) (st : Stats) : Prop :=
  (0 <= CC_STAT_LEFT st)%Z /\ (0 <= CC_STAT_WIDTH st)%Z /\
  (CC_STAT_LEFT st + CC_STAT_WIDTH st <= w)%Z /\
  (0 <= CC_STAT_TOP st)%Z /\ (0 <= CC_STAT_HEIGHT st)%Z /\
  (CC_STAT_TOP st + CC_STAT_HEIGHT st <= h)%Z.

(** A box of the unit square with its corners in order. *)
Definition box_in_unit_square (b : BoundingBox) : Prop :=
  (0 <= x_min b /\ x_min b <= x_max b /\ x_max b <= 1)%Q /\
  (0 <= y_min b /\ y_min b <= y_max b /\ y_max b <= 1)%Q.

(** The shape of a grayscale image as the code reads it. *)
Definition height (gray : image) : Z := Z.of_nat (length gray).
Definition width (gray : image) : Z := Z.of_nat (length (List.hd [] gray)).

(** The identifiers [first], [first + 1], ... of [n] regions. *)
Definition ids_from (first : Z) (n : nat) : list Z :=
  map (fun k => (first + Z.of_nat k)%Z) (seq 0 n).

(** What the loop records for the component [st] of a band. *)
Definition region_of (h w : Z) (band : string * Z * Z) (st : Stats)
    (r : Region) : Prop :=
  label r = band.1.1 /\
  intensity_range r = (inject_Z band.1.2, inject_Z band.2) /\
  pixel_count r = CC_STAT_AREA st /\
  (inject_Z (h * w) * (1 # 1000) <= inject_Z (CC_STAT_AREA st))%Q /\
  h <> 0%Z /\ w <> 0%Z /\
  bounding_box r
  = {| x_min := Py.round (inject_Z (CC_STAT_LEFT st) / inject_Z w) 6;
       y_min := Py.round (inject_Z (CC_STAT_TOP st) / inject_Z h) 6;
       x_max := Py.round (inject_Z (CC_STAT_LEFT st + CC_STAT_WIDTH st)
                          / inject_Z w) 6;
       y_max := Py.round (inject_Z (CC_STAT_TOP st + CC_STAT_HEIGHT st)
                          / inject_Z h) 6 |}.

(** A region recorded for one of the bands from a component that the
    finder reported for the mask of this band. *)
Definition recorded
    (connectedComponentsWithStats : image -> list Stats)
    (gray : image) (bands : list (string * Z * Z))
    (r : Region) : Prop :=
  exists band st,
    band ∈ bands /\
    st ∈ connectedComponentsWithStats (inRange gray band.1.2 band.2) /\
    region_of (height gray) (width gray) band st r.

End ShadingMapper.

(** ** blueprint_engine.py *)

Module BlueprintEngine.

(** A landmark dict [{"name": .., "x": .., "y": ..}]. *)
Record Landmark := {
  lm_name : string;
  lm_x : Q;
  lm_y : Q;
}.

Definition _IDEAL_PROPORTIONS : gmap string Q :=
  list_to_map
    [ ("shoulder_width", 30 # 100);
      ("torso_length", 32 # 100);
      ("upper_arm", 17 # 100);
      ("forearm", 17 # 100);
      ("thigh", 20 # 100);
      ("shin", 20 # 100);
      ("head_to_shoulder", 12 # 100) ].

(** The [pairs] of [_score_proportions]. *)
Definition pairs : list (string * string * string) :=
  [ ("left_shoulder", "right_shoulder", "shoulder_width");
    ("left_shoulder", "left_hip", "torso_length");
    ("left_shoulder", "left_elbow", "upper_arm");
    ("left_elbow", "left_wrist", "forearm");
    ("left_hip", "left_knee", "thigh");
    ("left_knee", "left_ankle", "shin");
    ("nose", "left_shoulder", "head_to_shoulder") ].

Fixpoint _lm_by_name (landmarks : list Landmark) (name : string)
    : option Landmark :=
  match landmarks with
  | [] => None
  | lm :: rest =>
    if bool_decide (lm_name lm = name) then Some lm
    else _lm_by_name rest name
  end.

Section Sqrt.

(** [math.sqrt] *)
Variable sqrt : Q -> Q.

Definition _dist (a b : Landmark) : Q :=
  sqrt ((lm_x a - lm_x b) ^ 2 + (lm_y a - lm_y b) ^ 2).

(** The error appended for a pair with both landmarks and ideal length
    [ideal]. *)
Definition pair_error (a b : Landmark) (ideal : Q) : Q :=
  let measured := _dist a b in
  Qmin (Qabs (measured - ideal) / Qmax ideal (1 # 1000000)) 1.

(** The loop [for a_name, b_name, key in pairs], appending to [errors];
    [None] is the [KeyError] of [_IDEAL_PROPORTIONS[key]]. *)
Fixpoint errors_loop (landmarks : list Landmark)
    (todo : list (string * string * string)) (errors : list Q)
    : option (list Q) :=
  match todo with
  | [] => Some errors
  | (a_name, b_name, key) :: rest =>
    match _lm_by_name landmarks a_name, _lm_by_name landmarks b_name with
    | Some a, Some b =>
      ideal ← _IDEAL_PROPORTIONS !! key;
      errors_loop landmarks rest (errors ++ [pair_error a b ideal])
    | _, _ => errors_loop landmarks rest errors
    end
  end.

(** The two [return]s that follow the loop. *)
Definition score_of_errors (errors : list Q) : Q :=
  match errors with
  | [] => 50
  | _ :: _ =>
    Py.round
      ((1 - Py.sum errors / inject_Z (Z.of_nat (length errors))) * 100) 2
  end.

Definition _score_proportions (landmarks : list Landmark) : option Q :=
  score_of_errors <$> errors_loop landmarks pairs [].

(** In the specification's words: a pair is scored when both of its
    landmark names occur in the input, and then its error is the relative
    difference of the measured and the ideal distance, clamped to
    [[0, 1]]. *)
Definition present (landmarks : list Landmark) (name : string) : bool :=
  bool_decide (name ∈ map lm_name landmarks).


Definition clamp01 (e : Q) : Q := Qmin (Qmax e 0) 1.

Definition scored_error (landmarks : list Landmark)
    (pair : string * string * string) : option Q :=
  a ← _lm_by_name landmarks pair.1.1;
  b ← _lm_by_name landmarks pair.1.2;
  ideal ← _IDEAL_PROPORTIONS !! pair.2;
  Some (clamp01 (Qabs (_dist a b - ideal) / ideal)).


(** The key of a pair is in the ideal table, with a length of at least
    the guard [1e-6] of the division. *)
Definition key_ok (pair : string * string * string) : Prop :=
  exists ideal,
    _IDEAL_PROPORTIONS !! pair.2 = Some ideal /\ (1 # 1000000 <= ideal)%Q.

End Sqrt.

(** The [connections] of [_build_outline_layer]. *)
Definition connections : list (string * string) :=
  [ ("left_shoulder", "right_shoulder"); ("left_shoulder", "left_elbow");
    ("left_elbow", "left_wrist"); ("right_shoulder", "right_elbow");
    ("right_elbow", "right_wrist"); ("left_shoulder", "left_hip");
    ("right_shoulder", "right_hip"); ("left_hip", "right_hip");
    ("left_hip", "left_knee"); ("left_knee", "left_ankle");
    ("right_hip", "right_knee"); ("right_knee", "right_ankle");
    ("nose", "left_shoulder"); ("nose", "right_shoulder") ].

(** An edge dict [{"from": .., "to": .., "from_xy": .., "to_xy": ..}]. *)
Record Edge := {
  edge_from : string;
  edge_to : string;
  from_xy : Q * Q;
  to_xy : Q * Q;
}.

(** The loop [for a_name, b_name in connections], appending to [edges].
    A landmark dict is never empty, so [if a and b] tests that both were
    found. *)
Fixpoint edges_loop (landmarks : list Landmark)
    (todo : list (string * string)) (edges : list Edge) : list Edge :=
  match todo with
  | [] => edges
  | (a_name, b_name) :: rest =>
    match _lm_by_name landmarks a_name, _lm_by_name landmarks b_name with
    | Some a, Some b =>
      edges_loop landmarks rest
        (edges ++ [ {| edge_from := a_name; edge_to := b_name;
                       from_xy := (lm_x a, lm_y a);
                       to_xy := (lm_x b, lm_y b) |} ])
    | _, _ => edges_loop landmarks rest edges
    end
  end.

(** The layer dict of [_build_outline_layer]. *)
Record OutlineLayer := {
  layer_name : string;
  layer_type : string;
  edge_count : Z;
  edges : list Edge;
}.

Definition _build_outline_layer (landmarks : list Landmark)
    : OutlineLayer :=
  let edges := edges_loop landmarks connections [] in
  {| layer_name := "Wireframe Outline";
     layer_type := "outline";
     edge_count := Z.of_nat (length edges);
     edges := edges |}.

(** Both ends of a connection occur among the landmark names. *)
Definition connected (landmarks : list Landmark)
    (connection : string * string) : bool :=
  present landmarks connection.1 && present landmarks connection.2.

(** The edge runs between two of the landmarks and carries their names
    and positions. *)
Definition joins (landmarks : list Landmark) (e : Edge) : Prop :=
  exists a b,
    a ∈ landmarks /\ b ∈ landmarks /\
    lm_name a = edge_from e /\ lm_name b = edge_to e /\
    from_xy e = (lm_x a, lm_y a) /\ to_xy e = (lm_x b, lm_y b).

(** The coordinates of the landmark are numbers of a magnitude of at
    most 1e150: as doubles they are finite, not NaN, and the squares of
    their differences in [_dist] do not overflow. *)
Definition within_range (lm : Landmark) : Prop :=
  (Qabs (lm_x lm) <= inject_Z (10 ^ 150))%Q /\
  (Qabs (lm_y lm) <= inject_Z (10 ^ 150))%Q.

End BlueprintEngine.

(** ** canvas_renderer.py: the coordinate transform *)

Module CanvasRenderer.

Definition PAPER_SIZES : gmap string (Z * Z) :=
  list_to_map
    [ ("A4", (1240, 1754)); ("A3", (1754, 2480));
      ("square", (1500, 1500)) ]%Z.

(** The drawing area that [_draw_grid] returns for a canvas of width [w]
    and height [h]: [(x_start, y_start, x_end, y_end)]. *)
Definition _draw_grid_area (w h : Z) (margin_fraction : Q)
    : Z * Z * Z * Z :=
  let mx := Py.int (inject_Z w * margin_fraction) in
  let my := Py.int (inject_Z h * margin_fraction) in
  let draw_w := (w - 2 * mx)%Z in
  let draw_h := (h - 2 * my)%Z in
  (mx, my, (mx + draw_w)%Z, (my + draw_h)%Z).

(** The fitted render size and its centering offsets, as
    [_normalised_to_canvas] and [_overlay_shading] both compute them:
    [(render_w, render_h, offset_x, offset_y)]. *)
Definition render_footprint (draw_area : Z * Z * Z * Z) (image_aspect : Q)
    : option (Z * Z * Z * Z) :=
  let '(x_start, y_start, x_end, y_end) := draw_area in
  let area_w := (x_end - x_start)%Z in
  let area_h := (y_end - y_start)%Z in
  area_aspect ← Py.div (inject_Z area_w) (inject_Z area_h);
  '(render_w, render_h) ←
    (if Py.Qltb area_aspect image_aspect then
       q ← Py.div (inject_Z area_w) image_aspect;
       Some (area_w, Py.int q)
     else
       Some (Py.int (inject_Z area_h * image_aspect), area_h));
  let offset_x := (x_start + (area_w - render_w) / 2)%Z in
  let offset_y := (y_start + (area_h - render_h) / 2)%Z in
  Some (render_w, render_h, offset_x, offset_y).

(** [.astype(np.int32)] on a float64 value: truncation toward zero when
    the truncated value is an int32.  For any other value numpy leaves the
    result to the conversion instruction, which on x86-64 gives the least
    int32. *)
Definition astype_int32 (x : Q) : Z :=
  let t := Py.int x in
  if (-2147483648 <=? t)%Z && (t <? 2147483648)%Z then t
  else (-2147483648)%Z.

(** [_normalised_to_canvas].  Each coordinate is cast to int32, stored
    back into the float64 copy of the points, and cast again when the
    copy is returned as an int32 array. *)
Definition _normalised_to_canvas (points : list (Q * Q))
    (draw_area : Z * Z * Z * Z) (image_aspect : Q)
    : option (list (Z * Z)) :=
  '(render_w, render_h, offset_x, offset_y) ←
    render_footprint draw_area image_aspect;
  Some (map (fun p =>
               let x :=
                 astype_int32 (p.1 * inject_Z render_w + inject_Z offset_x) in
               let y :=
                 astype_int32 (p.2 * inject_Z render_h + inject_Z offset_y) in
               (astype_int32 (inject_Z x), astype_int32 (inject_Z y)))
            points).

(** The four coordinates of a drawing area are int32 values. *)
Definition fits_int32 (draw_area : Z * Z * Z * Z) : Prop :=
  let '(x_start, y_start, x_end, y_end) := draw_area in
  (-2147483648 <= x_start)%Z /\ (x_end < 2147483648)%Z /\
  (-2147483648 <= y_start)%Z /\ (y_end < 2147483648)%Z.

(** [range(n)] *)
Definition range (n : Z) : list Z := map Z.of_nat (seq 0 (Z.to_nat n)).


(** The offsets [int(i * extent / grid_cells)] of the loop
    [for i in range(grid_cells + 1)]; [None] is [ZeroDivisionError]. *)
Definition line_offsets (extent grid_cells : Z) : option (list Z) :=
  mapM (fun i =>
          q ← Py.div (inject_Z (i * extent)) (inject_Z grid_cells);
          Some (Py.int q))
       (range (grid_cells + 1)).

(** The offset of line [i] when the division does not fail. *)
Definition offset_of (extent grid_cells i : Z) : Z :=
  Py.int (inject_Z (i * extent) / inject_Z grid_cells).

(** What [_draw_grid] draws and returns: the end points of the lines, the
    corners of the border and the drawing area. *)
Record GridDrawing := {
  vertical_lines : list ((Z * Z) * (Z * Z));
  horizontal_lines : list ((Z * Z) * (Z * Z));
  border : (Z * Z) * (Z * Z);
  draw_area : Z * Z * Z * Z;
}.

Definition _draw_grid (w h grid_cells : Z) (margin_fraction : Q)
    : option GridDrawing :=
  let mx := Py.int (inject_Z w * margin_fraction) in
  let my := Py.int (inject_Z h * margin_fraction) in
  let draw_w := (w - 2 * mx)%Z in
  let draw_h := (h - 2 * my)%Z in
  xs ← line_offsets draw_w grid_cells;
  ys ← line_offsets draw_h grid_cells;
  Some {| vertical_lines :=
            map (fun dx => let x := (mx + dx)%Z in
                           ((x, my), (x, my + draw_h)%Z)) xs;
          horizontal_lines :=
            map (fun dy => let y := (my + dy)%Z in
                           ((mx, y), ((mx + draw_w)%Z, y))) ys;
          border := ((mx, my), ((mx + draw_w)%Z, (my + draw_h)%Z));
          draw_area := (mx, my, (mx + draw_w)%Z, (my + draw_h)%Z) |}.


Section Resize.

(** [cv2.resize(mask, (w, h), interpolation=cv2.INTER_NEAREST)[y, x]];
    [None] is the error of [cv2.resize]. *)
Variable resize : list (list Z) -> Z -> Z -> option (Z -> Z -> Z).


End Resize.

(** A vertical line from the top to the bottom of the area, and a
    horizontal one from its left to its right side. *)
Definition spans_height (area : Z * Z * Z * Z)
    (line : (Z * Z) * (Z * Z)) : Prop :=
  let '(x_start, y_start, x_end, y_end) := area in
  line.1.1 = line.2.1 /\ (x_start <= line.1.1 <= x_end)%Z /\
  line.1.2 = y_start /\ line.2.2 = y_end.

Definition spans_width (area : Z * Z * Z * Z)
    (line : (Z * Z) * (Z * Z)) : Prop :=
  let '(x_start, y_start, x_end, y_end) := area in
  line.1.2 = line.2.2 /\ (y_start <= line.1.2 <= y_end)%Z /\
  line.1.1 = x_start /\ line.2.1 = x_end.



(** The first two steps of [render_step]: the canvas size of the paper
    and the drawing area that [_draw_grid] returns for it.  [None] is a
    [KeyError] or a [ZeroDivisionError]. *)
Definition render_step_area (paper_size : string) (grid_cells : Z)
    : option (Z * Z * Z * Z) :=
  a4 ← PAPER_SIZES !! "A4";
  let '(w, h) := default a4 (PAPER_SIZES !! paper_size) in
  d ← _draw_grid w h grid_cells (5 # 100);
  Some (draw_area d).

(** The drawing areas of the three paper sizes. *)
Definition paper_area (paper_size : string) : Z * Z * Z * Z :=
  if bool_decide (paper_size = "A3") then (87, 124, 1667, 2356)%Z
  else if bool_decide (paper_size = "square") then (75, 75, 1425, 1425)%Z
  else (62, 87, 1178, 1667)%Z.

End CanvasRenderer.

(** ** complexity_model.py *)

Module ComplexityModel.

Definition W_LANDMARKS : Q := 35 # 100.
Definition W_GRID_DENSITY : Q := 25 # 100.
Definition W_EDGE_VARIANCE : Q := 40 # 100.

Definition MAX_LANDMARK_COUNT : Z := 33.
Definition MAX_GRID_DENSITY : Q := 100.
Definition MAX_EDGE_VARIANCE : Q := 5000.

(** [max(lo, min(hi, value))] *)
Definition _clamp (value lo hi : Q) : Q := Qmax lo (Qmin hi value).

(** [ComplexityModel.predict] with the weights of the instance. *)
Definition predict (w_lm w_gd w_ev : Q) (landmark_count : Z)
    (grid_density edge_variance : Q) : Q :=
  let n_lm :=
    Qmin (inject_Z landmark_count / inject_Z MAX_LANDMARK_COUNT) 1 in
  let n_gd := Qmin (grid_density / MAX_GRID_DENSITY) 1 in
  let n_ev := Qmin (edge_variance / MAX_EDGE_VARIANCE) 1 in
  let raw := ((w_lm * n_lm + w_gd * n_gd + w_ev * n_ev) * 100)%Q in
  Py.round (_clamp raw 0 100) 2.

Definition score_complexity (landmark_count : Z)
    (grid_density edge_variance : Q) : Q :=
  let n_lm :=
    Qmin (inject_Z landmark_count / inject_Z MAX_LANDMARK_COUNT) 1 in
  let n_gd := Qmin (grid_density / MAX_GRID_DENSITY) 1 in
  let n_ev := Qmin (edge_variance / MAX_EDGE_VARIANCE) 1 in
  let raw :=
    ((W_LANDMARKS * n_lm + W_GRID_DENSITY * n_gd + W_EDGE_VARIANCE * n_ev)
     * 100)%Q in
  Py.round (_clamp raw 0 100) 2.

End ComplexityModel.

(** ** grid_engine.py *)

Module GridEngine.
Import BlueprintEngine.

Definition DIFFICULTY_GRID_SIZE : gmap string (Z * Z) :=
  list_to_map
    [ ("beginner", (4, 4)); ("intermediate", (8, 8));
      ("advanced", (16, 16)) ]%Z.

Record Box := {
  x_min : Q;
  y_min : Q;
  x_max : Q;
  y_max : Q;
}.

(** [min] and [max] of the non-empty list [x :: xs]. *)
Definition min_of (x : Q) (xs : list Q) : Q := foldl Qmin x xs.
Definition max_of (x : Q) (xs : list Q) : Q := foldl Qmax x xs.

Definition _landmark_bounding_box (landmarks : list Landmark) : Box :=
  match landmarks with
  | [] => {| x_min := 0; y_min := 0; x_max := 1; y_max := 1 |}
  | lm :: rest =>
    let xs := map lm_x rest in
    let ys := map lm_y rest in
    let pad := 5 # 100 in
    {| x_min := Qmax 0 (min_of (lm_x lm) xs - pad);
       y_min := Qmax 0 (min_of (lm_y lm) ys - pad);
       x_max := Qmin 1 (max_of (lm_x lm) xs + pad);
       y_max := Qmin 1 (max_of (lm_y lm) ys + pad) |}
  end.

Record Cell := {
  row : Z;
  col : Z;
  x_start : Q;
  y_start : Q;
  x_end : Q;
  y_end : Q;
  contains_landmark : bool;
}.

(** [range(n)] *)
Definition range (n : Z) : list Z := map Z.of_nat (seq 0 (Z.to_nat n)).

(** The body of the two nested loops of [generate_grid]. *)
Definition cell_of (bbox : Box) (cell_w cell_h : Q)
    (landmarks : list Landmark) (r c : Z) : Cell :=
  let x_start := (x_min bbox + inject_Z c * cell_w)%Q in
  let y_start := (y_min bbox + inject_Z r * cell_h)%Q in
  let x_end := (x_start + cell_w)%Q in
  let y_end := (y_start + cell_h)%Q in
  let has_landmark :=
    existsb (fun lm =>
               Qle_bool x_start (lm_x lm) && Qle_bool (lm_x lm) x_end
               && (Qle_bool y_start (lm_y lm) && Qle_bool (lm_y lm) y_end))
            landmarks in
  {| row := r; col := c;
     x_start := Py.round x_start 6; y_start := Py.round y_start 6;
     x_end := Py.round x_end 6; y_end := Py.round y_end 6;
     contains_landmark := has_landmark |}.

Definition generate_grid (landmarks : list Landmark) (difficulty : string)
    : option (list Cell) :=
  let '(rows, cols) :=
    default (8, 8)%Z (DIFFICULTY_GRID_SIZE !! difficulty) in
  let bbox := _landmark_bounding_box landmarks in
  cell_w ← Py.div (x_max bbox - x_min bbox) (inject_Z cols);
  cell_h ← Py.div (y_max bbox - y_min bbox) (inject_Z rows);
  Some (flat_map (fun r =>
                    map (fun c => cell_of bbox cell_w cell_h landmarks r c)
                        (range cols))
                 (range rows)).

(** [sum(1 for c in grid if c["contains_landmark"])] *)
Definition occupied (grid : list Cell) : Z :=
  Z.of_nat (length (List.filter contains_landmark grid)).

(** [grid_density]; the division follows the test for an empty grid. *)
Definition grid_density (grid : list Cell) : Q :=
  match grid with
  | [] => 0
  | _ :: _ =>
    Py.round
      (inject_Z (occupied grid) / inject_Z (Z.of_nat (length grid)) * 100) 2
  end.

(** The number of rows and of columns for a difficulty level. *)
Definition grid_side (difficulty : string) : nat :=
  if bool_decide (difficulty = "beginner") then 4
  else if bool_decide (difficulty = "advanced") then 16
  else 8.

(** A landmark of the unit square. *)
Definition normalised (lm : Landmark) : Prop :=
  (0 <= lm_x lm /\ lm_x lm <= 1)%Q /\ (0 <= lm_y lm /\ lm_y lm <= 1)%Q.

(** [lm] lies in the box. *)
Definition inside (b : Box) (lm : Landmark) : Prop :=
  (x_min b <= lm_x lm /\ lm_x lm <= x_max b)%Q /\
  (y_min b <= lm_y lm /\ lm_y lm <= y_max b)%Q.

End GridEngine.

(** ** image_processor.py *)

Module ImageProcessor.

Definition WORKING_SIZE : Z := 1024.

(** [resize_preserve_aspect] on an image of height [h] and width [w], up
    to its call of [cv2.resize]: the size [(new_w, new_h)] that it asks
    for.  [None] is [ZeroDivisionError]. *)
Definition resize_preserve_aspect (h w max_side : Z) : option (Z * Z) :=
  scale ← Py.div (inject_Z max_side) (inject_Z (Z.max h w));
  let new_w := Py.int (inject_Z w * scale) in
  let new_h := Py.int (inject_Z h * scale) in
  Some (new_w, new_h).

End ImageProcessor.

(** ** Sample inputs *)

Module Samples.
Import ContourAnalyzer.

(** A large closed outer shape: depth 0, a quarter of the image. *)
Definition outer_shape : AnalyzedContour :=
  {| points_normalised :=
       [(1 # 4, 1 # 4); (3 # 4, 1 # 4); (3 # 4, 3 # 4); (1 # 4, 3 # 4)]%Q;
     area := 1 # 4;
     perimeter := 2;
     depth := 0;
     parent_idx := -1;
     centroid := (1 # 2, 1 # 2);
     tier := "outer";
     importance_score := 1 |}.

(** The same shape in the upper left corner. *)
Definition corner_shape : AnalyzedContour :=
  {| points_normalised :=
       [(0, 0); (1 # 2, 0); (1 # 2, 1 # 2); (0, 1 # 2)]%Q;
     area := 1 # 4;
     perimeter := 2;
     depth := 0;
     parent_idx := -1;
     centroid := (1 # 4, 1 # 4);
     tier := "outer";
     importance_score := 1 |}.

(** An axis-parallel square found in the edge map: corner [(x, y)],
    side [a], with the area, perimeter and moments of that square. *)
Definition square (x y a : Z) : FoundContour :=
  {| pixels := [(x, y); (x, y + a); (x + a, y + a); (x + a, y)]%Z;
     contourArea := inject_Z (a * a);
     arcLength := inject_Z (4 * a);
     m00 := inject_Z (a * a);
     m10 := inject_Z (a * a) * (inject_Z x + inject_Z a / 2);
     m01 := inject_Z (a * a) * (inject_Z y + inject_Z a / 2) |}.

(** A 100 x 100 edge map with two equal squares side by side, three
    squares nested in the first one, and a speck of noise. *)
Definition found_squares : list FoundContour :=
  [ square 5 5 40; square 10 10 30; square 55 5 40;
    square 15 15 20; square 20 20 10; square 90 90 1 ]%Z.

Definition hierarchy_squares : list Z := [-1; 0; -1; 1; 3; -1]%Z.

Definition analyzed_squares : list AnalyzedContour :=
  Eval vm_compute in
    default [] (analyze_contours 100 100 found_squares
                                 (Some hierarchy_squares) (5 # 10000)).

Definition extracted_squares : list AnalyzedContour :=
  Eval vm_compute in
    default [] (analyzed_in_order 100 100 found_squares
                                  (Some hierarchy_squares) (5 # 10000)).

(** The innermost square of [analyzed_squares], at depth 3. *)
Definition innermost_square : AnalyzedContour :=
  Eval vm_compute in default outer_shape (analyzed_squares !! 4%nat).

(** What the component finder reports on a mask of a single pixel: one
    component of one pixel when the pixel is set, none otherwise. *)
Definition one_pixel_components (mask : ToneMapper.image)
    : list ShadingMapper.Stats :=
  match mask with
  | [[v]] =>
    if (v =? 0)%Z then []
    else [ {| ShadingMapper.CC_STAT_LEFT := 0;
              ShadingMapper.CC_STAT_TOP := 0;
              ShadingMapper.CC_STAT_WIDTH := 1;
              ShadingMapper.CC_STAT_HEIGHT := 1;
              ShadingMapper.CC_STAT_AREA := 1 |} ]
  | _ => []
  end.

(** A square root that is exact on the squares of rationals. *)
Definition sqrt_exact (q : Q) : Q :=
  let r := Qred q in Z.sqrt (Qnum r) # Pos.sqrt (Qden r).

(** A detector result with the nose and the left shoulder only, 0.15
    apart. *)
Definition nose_and_shoulder : list BlueprintEngine.Landmark :=
  [ {| BlueprintEngine.lm_name := "nose";
       BlueprintEngine.lm_x := 50 # 100;
       BlueprintEngine.lm_y := 10 # 100 |};
    {| BlueprintEngine.lm_name := "left_shoulder";
       BlueprintEngine.lm_x := 50 # 100;
       BlueprintEngine.lm_y := 25 # 100 |} ].


(** The first phase of the planner. *)
Definition primary_outline : StepPlanner.Phase :=
  Eval vm_compute in
    default {| StepPlanner.name := ""; StepPlanner.phase_description := "";
               StepPlanner.tiers := []; StepPlanner.min_importance := 0;
               StepPlanner.max_contours := 0 |}
            (StepPlanner._PHASES !! 0%nat).

(** The step that follows the preparation step in the plan of
    [outer_shape]. *)
Definition outline_step : StepPlanner.DrawingStep :=
  Eval vm_compute in
    default StepPlanner.grid_step
            (StepPlanner.plan_steps [outer_shape] true !! 1%nat).

(** The first two turns of the generator's loop on the plan of
    [outer_shape], with plain decimal step numbers in the file names. *)
Definition preparation_generated
    : StepGenerator.RenderCall * StepGenerator.StepResult :=
  Eval vm_compute in
    default
      ({| StepGenerator.rc_step_number := 0;
          StepGenerator.rc_phase_name := "";
          StepGenerator.previous_contours := [];
          StepGenerator.new_contours := [];
          StepGenerator.start_centroid := None;
          StepGenerator.with_shading_mask := false |},
       {| StepGenerator.sr_step_number := 0;
          StepGenerator.sr_phase_name := "";
          StepGenerator.sr_description := "";
          StepGenerator.image_filename := "";
          StepGenerator.image_url := "";
          StepGenerator.new_contour_count := 0;
          StepGenerator.total_contours_so_far := 0;
          StepGenerator.sr_is_shading_step := false |})
      (StepGenerator.generation pretty "0123456789ab" [outer_shape] true
       !! 0%nat).

Definition outline_generated
    : StepGenerator.RenderCall * StepGenerator.StepResult :=
  Eval vm_compute in
    default preparation_generated
      (StepGenerator.generation pretty "0123456789ab" [outer_shape] true
       !! 1%nat).

(** The regions of a one-pixel image of intensity 70. *)
Definition one_pixel_regions : list ShadingMapper.Region :=
  Eval vm_compute in
    default [] (ShadingMapper.map_shading one_pixel_components
                                          [[70]]%Z None).

(** Its only region. *)
Definition mid_tone_region : ShadingMapper.Region :=
  Eval vm_compute in
    default {| ShadingMapper.region_id := 0; ShadingMapper.label := "";
               ShadingMapper.intensity_range := (0, 0)%Q;
               ShadingMapper.pixel_count := 0;
               ShadingMapper.bounding_box :=
                 {| ShadingMapper.x_min := 0; ShadingMapper.y_min := 0;
                    ShadingMapper.x_max := 0; ShadingMapper.y_max := 0 |} |}
            (one_pixel_regions !! 0%nat).



(** A blur that changes nothing, and a band table of two overlapping
    bands. *)
Definition no_blur (src : ToneMapper.image) (ksize : Z) : ToneMapper.image :=
  src.

Definition overlapping_bands : list (string * Z * Z * Z) :=
  [ ("dark", 0, 120, 0); ("mid", 100, 200, 1) ]%Z.

End Samples.

(** * Properties *)

(** ** Python numerics *)

Module PyFacts.

Lemma Qltb_true a b : Py.Qltb a b = true <-> (a < b)%Q.
Proof.
  unfold Py.Qltb. rewrite negb_true_iff, <- not_true_iff_false.
  rewrite Qle_bool_iff. split; [apply Qnot_le_lt | apply Qlt_not_le].
Qed.

Lemma Qltb_false a b : Py.Qltb a b = false <-> (b <= a)%Q.
Proof. unfold Py.Qltb. by rewrite negb_false_iff, Qle_bool_iff. Qed.

Lemma round_half_even_close x :
  (inject_Z (Py.round_half_even x) - x <= 1 # 2)%Q /\
  (x - inject_Z (Py.round_half_even x) <= 1 # 2)%Q.
Proof.
  unfold Py.round_half_even.
  pose proof (Qfloor_le x) as Hlo. pose proof (Qlt_floor x) as Hhi.
  rewrite inject_Z_plus in Hhi. change (inject_Z 1) with 1%Q in Hhi.
  generalize dependent (Qfloor x). intros f Hlo Hhi.
  destruct (Qcompare_spec (x - inject_Z f) (1 # 2)) as [He|Hl|Hg].
  - destruct (Z.even f); [|rewrite inject_Z_plus;
                            change (inject_Z 1) with 1%Q]; split; lra.
  - split; lra.
  - rewrite inject_Z_plus. change (inject_Z 1) with 1%Q. split; lra.
Qed.

(** Three values that add up to 100, each rounded to one decimal, add up
    to 99.9, 100.0 or 100.1. *)
Lemma round1_sum a b c :
  (a + b + c == 100)%Q ->
  (Qabs (Py.round a 1 + Py.round b 1 + Py.round c 1 - 100) <= 1 # 10)%Q.
Proof.
  intros Hsum. unfold Py.round.
  change (inject_Z (10 ^ Z.of_nat 1)) with (10 # 1)%Q.
  destruct (round_half_even_close (a * (10 # 1))) as [Ha1 Ha2].
  destruct (round_half_even_close (b * (10 # 1))) as [Hb1 Hb2].
  destruct (round_half_even_close (c * (10 # 1))) as [Hc1 Hc2].
  set (ra := Py.round_half_even (a * (10 # 1))) in *.
  set (rb := Py.round_half_even (b * (10 # 1))) in *.
  set (rc := Py.round_half_even (c * (10 # 1))) in *.
  clearbody ra rb rc.
  assert (Hlo : (998 < ra + rb + rc)%Z).
  { rewrite Zlt_Qlt, !inject_Z_plus. change (inject_Z 998) with 998%Q.
    lra. }
  assert (Hhi : (ra + rb + rc < 1002)%Z).
  { rewrite Zlt_Qlt, !inject_Z_plus. change (inject_Z 1002) with 1002%Q.
    lra. }
  assert (Hlo' : (999 <= ra + rb + rc)%Z) by lia.
  assert (Hhi' : (ra + rb + rc <= 1001)%Z) by lia.
  rewrite Zle_Qle, !inject_Z_plus in Hlo', Hhi'.
  change (inject_Z 999) with 999%Q in Hlo'.
  change (inject_Z 1001) with 1001%Q in Hhi'.
  unfold Qdiv. change (/ (10 # 1))%Q with (1 # 10)%Q.
  apply Qabs_Qle_condition. split; lra.
Qed.

End PyFacts.

(** ** Step planner *)

Module PlannerFacts.
Import ContourAnalyzer StepPlanner StepGenerator.

Lemma select_ext (f g : nat -> bool) cs i :
  (forall j, i <= j < i + length cs -> f j = g j) ->
  select f i cs = select g i cs.
Proof.
  revert i; induction cs as [|c rest IH]; intros i Hfg; simpl; [done|].
  rewrite (Hfg i) by (simpl; lia).
  rewrite (IH (S i)) by (intros j Hj; apply Hfg; simpl; lia).
  done.
Qed.

Lemma select_none cs i : select (fun _ => false) i cs = [].
Proof. revert i; induction cs; intros; simpl; auto. Qed.

Lemma select_all cs i : select (fun _ => true) i cs = cs.
Proof. revert i; induction cs; intros; simpl; f_equal; auto. Qed.

Lemma select_sublist f cs i : select f i cs `sublist_of` cs.
Proof.
  revert i; induction cs as [|c rest IH]; intros i; simpl; [done|].
  destruct (f i); [apply sublist_skip | apply sublist_cons]; apply IH.
Qed.

Lemma select_split (f g h : nat -> bool) cs i :
  (forall j, h j = f j || g j) ->
  (forall j, f j && g j = false) ->
  select h i cs ≡ₚ select f i cs ++ select g i cs.
Proof.
  intros Hh Hfg; revert i; induction cs as [|c rest IH]; intros i; simpl;
    [done|].
  specialize (Hh i); specialize (Hfg i); specialize (IH (S i)).
  destruct (f i), (g i); simpl in *; try discriminate; rewrite Hh.
  - by constructor.
  - rewrite IH. apply Permutation_middle.
  - done.
Qed.

Lemma remaining_of_select cs (A : gset nat) :
  remaining_of cs A = select (fun j => negb (bool_decide (j ∈ A))) 0 cs.
Proof.
  unfold remaining_of.
  assert (G : forall pre rest : list AnalyzedContour,
    omap (fun i => if bool_decide (i ∈ A) then None
                   else (pre ++ rest) !! i)
         (seq (length pre) (length rest))
    = select (fun j => negb (bool_decide (j ∈ A))) (length pre) rest).
  { intros pre rest; revert pre; induction rest as [|c rest IH];
      intros pre; simpl; [done|].
    specialize (IH (pre ++ [c])).
    rewrite length_app, Nat.add_1_r, <- app_assoc in IH; simpl in IH.
    unfold omap in IH. rewrite IH.
    destruct (bool_decide (length pre ∈ A)); simpl; [done|].
    by rewrite list_lookup_middle. }
  apply (G [] cs).
Qed.

(** What one phase scan returns, in terms of the positions it claims. *)
Lemma scan_phase_spec phase cs : forall i batch (A : gset nat),
  let r := scan_phase phase i cs batch A in
  A ⊆ r.2 /\
  (forall j, j ∈ r.2 -> j ∈ A \/ i <= j < i + length cs) /\
  r.1 = batch ++
        select (fun j => bool_decide (j ∈ r.2) && negb (bool_decide (j ∈ A)))
               i cs.
Proof.
  induction cs as [|c rest IH]; intros i batch A; simpl.
  { split; [done|]. split; [auto|]. by rewrite app_nil_r. }
  assert (Hskip : forall r : list AnalyzedContour * gset nat,
    (A ⊆ r.2 /\
     (forall j, j ∈ r.2 -> j ∈ A \/ S i <= j < S i + length rest) /\
     r.1 = batch ++
       select (fun j => bool_decide (j ∈ r.2) && negb (bool_decide (j ∈ A)))
              (S i) rest) ->
    A ⊆ r.2 /\
    (forall j, j ∈ r.2 -> j ∈ A \/ i <= j < i + S (length rest)) /\
    r.1 = batch ++
      (if bool_decide (i ∈ r.2) && negb (bool_decide (i ∈ A))
       then c :: select (fun j => bool_decide (j ∈ r.2)
                                  && negb (bool_decide (j ∈ A))) (S i) rest
       else select (fun j => bool_decide (j ∈ r.2)
                             && negb (bool_decide (j ∈ A))) (S i) rest)).
  { intros r (Hsub & Hrng & Hb). split; [done|]. split.
    - intros j Hj. destruct (Hrng j Hj); [auto | right; lia].
    - rewrite Hb.
      destruct (bool_decide (i ∈ r.2)) eqn:Hi; simpl; [|done].
      destruct (bool_decide (i ∈ A)) eqn:HiA; simpl; [done|].
      apply bool_decide_eq_true in Hi. apply bool_decide_eq_false in HiA.
      destruct (Hrng i Hi); [done | lia]. }
  destruct (bool_decide (i ∈ A)) eqn:HiA; [apply Hskip, IH|].
  destruct (negb (bool_decide (tier c ∈ tiers phase)));
    [apply Hskip, IH|].
  destruct (Py.Qltb (importance_score c) (min_importance phase));
    [apply Hskip, IH|].
  apply bool_decide_eq_false in HiA.
  destruct (max_contours phase <=? Z.of_nat (length (batch ++ [c])))%Z.
  - simpl. split; [apply union_subseteq_l|]. split.
    + intros j Hj. apply elem_of_union in Hj as [Hj|Hj]; [auto|].
      apply elem_of_singleton in Hj. right; lia.
    + rewrite bool_decide_eq_true_2
        by (apply elem_of_union_r, elem_of_singleton; done).
      simpl.
      rewrite (select_ext _ (fun _ => false)), select_none; [done|].
      intros j Hj. apply andb_false_iff.
      destruct (bool_decide (j ∈ A)) eqn:HjA; [right; done | left].
      apply bool_decide_eq_false in HjA. apply bool_decide_eq_false.
      rewrite elem_of_union, elem_of_singleton. intros [?|?]; [done|lia].
  - destruct (IH (S i) (batch ++ [c]) (A ∪ {[i]})) as (Hsub & Hrng & Hb).
    set (r := scan_phase phase (S i) rest (batch ++ [c]) (A ∪ {[i]})) in *.
    split; [etrans; [apply union_subseteq_l | exact Hsub]|]. split.
    + intros j Hj. destruct (Hrng j Hj) as [Hj'|Hj']; [|right; lia].
      apply elem_of_union in Hj' as [Hj'|Hj']; [auto|].
      apply elem_of_singleton in Hj'. right; lia.
    + rewrite bool_decide_eq_true_2
        by (apply Hsub, elem_of_union_r, elem_of_singleton; done).
      simpl.
      rewrite Hb, <- app_assoc. simpl. do 2 f_equal.
      apply select_ext. intros j Hj. f_equal. f_equal.
      apply bool_decide_ext.
      rewrite elem_of_union, elem_of_singleton. split; [|tauto].
      intros [?|?]; [done|lia].
Qed.

Lemma plan_inv_init cs :
  plan_inv cs {| assigned := ∅; steps := []; step_num := 1 |}.
Proof.
  repeat split; simpl; auto.
  rewrite (select_ext _ (fun _ => false)), select_none; [done|].
  intros j _. apply bool_decide_eq_false. apply not_elem_of_empty.
Qed.

(** Appending one non-shading step numbered [step_num]. *)
Lemma plan_inv_push cs st (A' : gset nat) nm ds batch :
  plan_inv cs st ->
  batch `sublist_of` cs ->
  concat (map contours (steps st)) ++ batch
    ≡ₚ select (fun j => bool_decide (j ∈ A')) 0 cs ->
  plan_inv cs
    {| assigned := A';
       steps := steps st ++ [
         {| step_number := step_num st; phase_name := nm;
            description := ds; contours := batch;
            is_shading_step := false |} ];
       step_num := (step_num st + 1)%Z |}.
Proof.
  intros (Hn & Hnum & Hall & _) Hsub Hperm. unfold plan_inv; simpl.
  rewrite length_app, Nat.add_1_r, seq_S, !map_app, concat_app; simpl.
  rewrite app_nil_r. repeat split.
  - lia.
  - rewrite Hnum, Hn. done.
  - apply Forall_app; split; [done|]. by repeat constructor.
  - done.
Qed.

Lemma phase_body_inv cs st phase :
  plan_inv cs st -> plan_inv cs (phase_body cs st phase).
Proof.
  intros Hinv. unfold phase_body.
  pose proof (scan_phase_spec phase cs 0 [] (assigned st)) as Hscan.
  destruct (scan_phase phase 0 cs [] (assigned st)) as [batch A'].
  simpl in Hscan. destruct Hscan as (Hsub & _ & Hb).
  assert (Hperm : concat (map contours (steps st)) ++ batch
                  ≡ₚ select (fun j => bool_decide (j ∈ A')) 0 cs).
  { destruct Hinv as (_ & _ & _ & Hp). rewrite Hp, Hb. symmetry.
    apply select_split; intros j.
    - destruct (bool_decide (j ∈ assigned st)) eqn:E; simpl.
      + apply bool_decide_eq_true in E. apply bool_decide_eq_true. auto.
      + by rewrite andb_true_r.
    - destruct (bool_decide (j ∈ assigned st)); simpl;
        [apply andb_false_r | done]. }
  destruct batch as [|c batch].
  - destruct Hinv as (Hn & Hnum & Hall & Hp). repeat split; simpl; auto.
    by rewrite app_nil_r in Hperm.
  - apply plan_inv_push; [done | | done].
    rewrite Hb. apply select_sublist.
Qed.

Lemma phases_inv cs phases : forall st,
  plan_inv cs st -> plan_inv cs (foldl (phase_body cs) st phases).
Proof.
  induction phases as [|ph phases IH]; intros st Hinv; simpl; [done|].
  apply IH, phase_body_inv, Hinv.
Qed.

Lemma after_remaining_numbering cs st1 :
  plan_inv cs st1 ->
  step_num (after_remaining cs st1)
    = (Z.of_nat (length (steps (after_remaining cs st1))) + 1)%Z /\
  map step_number (steps (after_remaining cs st1))
    = map (fun k => (Z.of_nat k + 1)%Z)
          (seq 0 (length (steps (after_remaining cs st1)))).
Proof.
  intros (Hn & Hnum & _). unfold after_remaining.
  destruct (remaining_of cs (assigned st1)); simpl; [done|].
  rewrite length_app, Nat.add_1_r, seq_S, !map_app; simpl.
  rewrite Hnum, Hn. split; [lia | done].
Qed.

Lemma after_remaining_batches cs st1 :
  plan_inv cs st1 ->
  Forall (fun s => is_shading_step s = false /\ contours s `sublist_of` cs)
         (steps (after_remaining cs st1)) /\
  concat (map contours (steps (after_remaining cs st1))) ≡ₚ cs.
Proof.
  intros (_ & _ & Hall & Hp).
  assert (Hall_cs :
    concat (map contours (steps st1)) ++ remaining_of cs (assigned st1)
    ≡ₚ cs).
  { rewrite Hp, remaining_of_select.
    rewrite <- (select_all cs 0) at 3. symmetry.
    apply select_split; intros j;
      by destruct (bool_decide (j ∈ assigned st1)). }
  unfold after_remaining.
  destruct (remaining_of cs (assigned st1)) as [|c rem] eqn:Hrem.
  - split; [done|]. by rewrite app_nil_r in Hall_cs.
  - simpl. split.
    + apply Forall_app; split; [done|]. repeat constructor; simpl.
      rewrite <- Hrem, remaining_of_select. apply select_sublist.
    + rewrite map_app, concat_app; simpl. by rewrite app_nil_r.
Qed.

(** [plan_steps] written with the two states it goes through. *)
Lemma plan_steps_unfold cs include_shading :
  plan_steps cs include_shading =
  let st2 := after_remaining cs
      (foldl (phase_body cs)
             {| assigned := ∅; steps := []; step_num := 1 |} _PHASES) in
  grid_step :: map renumber
    (if include_shading then
       steps st2 ++ [
         {| step_number := step_num st2; phase_name := "Shading";
            description :=
              "Add shading — fill in shadow and mid-tone regions";
            contours := []; is_shading_step := true |} ]
     else steps st2).
Proof.
  unfold plan_steps, after_remaining.
  destruct (remaining_of cs _); reflexivity.
Qed.

Lemma plan_steps_head cs include_shading :
  exists rest, plan_steps cs include_shading = grid_step :: rest.
Proof. rewrite plan_steps_unfold. cbv zeta. by eexists. Qed.

Lemma drawn_contours_renumber l :
  drawn_contours (map renumber l) = drawn_contours l.
Proof.
  unfold drawn_contours. induction l as [|s l IH]; [done|].
  simpl. rewrite !filter_cons. simpl.
  destruct (decide (is_shading_step s = false)); simpl; by rewrite IH.
Qed.

Lemma drawn_contours_unshaded l :
  Forall (fun s => is_shading_step s = false) l ->
  drawn_contours l = concat (map contours l).
Proof.
  unfold drawn_contours. induction 1 as [|s l Hs _ IH]; [done|].
  rewrite filter_cons. destruct (decide _); [|done]. simpl. by rewrite IH.
Qed.

Lemma drawn_contours_app l1 l2 :
  drawn_contours (l1 ++ l2) = drawn_contours l1 ++ drawn_contours l2.
Proof. unfold drawn_contours. by rewrite filter_app, map_app, concat_app. Qed.

(** Step numbers of every plan: 0 for the preparation step, then 2, 3, ...
    (the planner counts from 1 and then adds 1 to every step). *)
Lemma plan_steps_step_numbers cs include_shading :
  map step_number (plan_steps cs include_shading)
  = 0%Z :: map (fun k => (Z.of_nat k + 2)%Z)
               (seq 0 (length (plan_steps cs include_shading) - 1)).
Proof.
  rewrite plan_steps_unfold. cbv zeta.
  pose proof (after_remaining_numbering cs _
                (phases_inv cs _PHASES _ (plan_inv_init cs))) as [Hn Hnum].
  set (st2 := after_remaining cs _) in *.
  simpl. f_equal. rewrite length_map, Nat.sub_0_r.
  rewrite <- list_fmap_compose.
  assert (Hshift : forall l : list DrawingStep,
    map (step_number ∘ renumber) l
    = map (fun z => (z + 1)%Z) (map step_number l)).
  { intros l. by rewrite <- list_fmap_compose. }
  change (renumber <$> ?l) with (map renumber l).
  change ((step_number ∘ renumber) <$> ?l)
    with (map (step_number ∘ renumber) l).
  rewrite Hshift. destruct include_shading.
  - rewrite map_app, length_app, Nat.add_1_r, seq_S, Hnum, !map_app; simpl.
    rewrite <- !list_fmap_compose. f_equal.
    + apply list_fmap_ext. intros; simpl; lia.
    + rewrite Hn. f_equal. lia.
  - rewrite Hnum, <- list_fmap_compose.
    apply list_fmap_ext. intros; simpl; lia.
Qed.

(** C1, on the code: with one outer shape and the shading step, the plan
    has three steps and they are numbered 0, 2, 3, so the second step of
    the list does not have step number 1. *)
Theorem plan_steps_numbering_gap :
  map step_number (plan_steps [Samples.outer_shape] true) = [0; 2; 3]%Z /\
  step_number <$> plan_steps [Samples.outer_shape] true !! 1%nat
    <> Some 1%Z.
Proof. split; [vm_compute; reflexivity | vm_compute; discriminate]. Qed.

(** C2: the batches of the non-shading steps of a plan, taken together,
    are a permutation of the ranked input (every contour once, none
    dropped), and every batch is a subsequence of the ranked input, so it
    keeps the input's relative order. *)
Theorem plan_steps_partition cs include_shading :
  drawn_contours (plan_steps cs include_shading) ≡ₚ cs /\
  Forall (fun s => contours s `sublist_of` cs)
         (plan_steps cs include_shading).
Proof.
  rewrite plan_steps_unfold. cbv zeta.
  pose proof (after_remaining_batches cs _
                (phases_inv cs _PHASES _ (plan_inv_init cs))) as [Hall Hp].
  set (st2 := after_remaining cs _) in *.
  assert (Hun : Forall (fun s => is_shading_step s = false) (steps st2)).
  { eapply Forall_impl; [exact Hall|]. by intros s [? _]. }
  assert (Hsub : Forall (fun s => contours s `sublist_of` cs) (steps st2)).
  { eapply Forall_impl; [exact Hall|]. by intros s [_ ?]. }
  split.
  - change (grid_step :: ?l) with ([grid_step] ++ l).
    rewrite drawn_contours_app, drawn_contours_renumber. simpl.
    destruct include_shading.
    + rewrite drawn_contours_app, drawn_contours_unshaded by done.
      unfold drawn_contours. simpl. by rewrite app_nil_r.
    + by rewrite drawn_contours_unshaded.
  - constructor; [apply sublist_nil_l|].
    apply Forall_fmap. destruct include_shading.
    + apply Forall_app; split; [done|].
      repeat constructor. apply sublist_nil_l.
    + done.
Qed.

(** C3, as stated: no reading of the first step of a plan gives the
    marker location, since the plans of an input whose first shape has
    centroid (1/4, 1/4) and of the empty input start with the same
    step. *)
Lemma prep_step_carries_no_centroid :
  ~ exists marker : DrawingStep -> Q * Q,
      forall cs include_shading,
        exists s rest,
          plan_steps cs include_shading = s :: rest /\
          marker s = primary_centroid cs.
Proof.
  intros [marker H].
  destruct (H [Samples.corner_shape] true) as (s1 & r1 & E1 & M1).
  destruct (H [] true) as (s2 & r2 & E2 & M2).
  destruct (plan_steps_head [Samples.corner_shape] true) as [t1 T1].
  destruct (plan_steps_head [] true) as [t2 T2].
  rewrite T1 in E1. rewrite T2 in E2.
  assert (S1 : s1 = grid_step) by congruence.
  assert (S2 : s2 = grid_step) by congruence.
  subst s1 s2. clear E1 E2 T1 T2.
  assert (Hc : primary_centroid [Samples.corner_shape] = primary_centroid [])
    by congruence.
  discriminate Hc.
Qed.

(** C3, amended: every plan starts with the preparation step, numbered 0,
    with an empty batch and not a shading step; the marker location is
    not part of that step: the generator passes the first ranked shape's
    centroid, or (0.5, 0.5) for an empty input, to the renderer with the
    first step, and the renderer draws the marker there. *)
Theorem plan_steps_preparation_step cs include_shading :
  (exists rest,
     plan_steps cs include_shading = grid_step :: rest /\
     step_number grid_step = 0%Z /\
     contours grid_step = [] /\
     is_shading_step grid_step = false) /\
  (exists call calls,
     render_calls cs include_shading = call :: calls /\
     rc_step_number call = 0%Z /\
     new_contours call = [] /\
     previous_contours call = [] /\
     start_centroid call
       = Some (match cs with
               | [] => (5 # 10, 5 # 10)
               | c :: _ => centroid c
               end) /\
     draws_start_marker call = true).
Proof.
  split.
  - rewrite plan_steps_unfold. cbv zeta. eexists. by repeat split.
  - unfold render_calls. rewrite plan_steps_unfold. cbv zeta. simpl.
    do 2 eexists. split; [reflexivity|]. simpl. by repeat split.
Qed.

End PlannerFacts.

(** ** Contour analyzer *)

Module AnalyzerFacts.
Import ContourAnalyzer.

Lemma depth_walk_ge fuel hierarchy : forall current d r,
  depth_walk fuel hierarchy current d = Some r -> (d <= r)%Z.
Proof.
  induction fuel as [|fuel IH]; intros current d r; simpl; [done|].
  destruct (np_index hierarchy current) as [parent|]; simpl; [|done].
  destruct (parent =? -1)%Z.
  - intros [= ->]. lia.
  - intros H. apply IH in H. lia.
Qed.

(** More fuel does not change the depth that a walk has found. *)
Lemma depth_walk_more_fuel fuel hierarchy : forall current d r,
  depth_walk fuel hierarchy current d = Some r ->
  depth_walk (S fuel) hierarchy current d = Some r.
Proof.
  induction fuel as [|fuel IH]; intros current d r; [done|].
  intros H. simpl in H. change (depth_walk (S (S fuel)) hierarchy current d)
    with (parent ← np_index hierarchy current;
          if (parent =? -1)%Z then Some d
          else depth_walk (S fuel) hierarchy parent (d + 1)%Z).
  destruct (np_index hierarchy current) as [parent|]; simpl in *; [|done].
  destruct (parent =? -1)%Z; [done|]. by apply IH.
Qed.

(** What the loop body records for a contour it keeps. *)
Lemma analyze_one_spec h w hierarchy idx contour c :
  analyze_one h w hierarchy idx contour = Some c ->
  _compute_depth hierarchy idx = Some (depth c) /\
  tier c = _classify_tier (depth c) /\
  importance_score c = importance_of (depth c) (area c) (perimeter c).
Proof.
  unfold analyze_one. intros H.
  destruct (_compute_depth hierarchy idx) as [d|]; simpl in H; [|done].
  destruct (np_index hierarchy idx); simpl in H; [|done].
  destruct (Py.div (contourArea contour) _); simpl in H; [|done].
  destruct (Py.div (arcLength contour) _); simpl in H; [|done].
  destruct (_compute_centroid contour); simpl in H; [|done].
  destruct (Py.div _ (inject_Z w)); simpl in H; [|done].
  destruct (Py.div _ (inject_Z h)); simpl in H; [|done].
  injection H as <-. by simpl.
Qed.

Lemma analyze_loop_Forall (P : AnalyzedContour -> Prop) h w hierarchy m :
  (forall idx contour c,
     analyze_one h w hierarchy idx contour = Some c -> P c) ->
  forall found idx analyzed result,
    Forall P analyzed ->
    analyze_loop h w hierarchy m idx found analyzed = Some result ->
    Forall P result.
Proof.
  intros Hone. induction found as [|contour rest IH];
    intros idx analyzed result Hacc; simpl.
  - by intros [= <-].
  - destruct (Py.Qltb (contourArea contour) m); [by apply IH|].
    destruct (analyze_one h w hierarchy idx contour) as [c|] eqn:E;
      simpl; [|done].
    apply IH. apply Forall_app; split; [done|].
    constructor; [by eapply Hone | constructor].
Qed.

Lemma analyzed_in_order_Forall (P : AnalyzedContour -> Prop)
    h w found hierarchy maf extracted :
  (forall hier idx contour c,
     analyze_one h w hier idx contour = Some c -> P c) ->
  analyzed_in_order h w found hierarchy maf = Some extracted ->
  Forall P extracted.
Proof.
  intros Hone. unfold analyzed_in_order.
  destruct hierarchy as [hier|]; [|by intros [= <-]].
  destruct found as [|contour rest]; [by intros [= <-]|].
  apply analyze_loop_Forall; [apply Hone | constructor].
Qed.

Lemma insert_desc_perm c l : insert_desc c l ≡ₚ c :: l.
Proof.
  induction l as [|d rest IH]; simpl; [done|].
  destruct (Py.Qltb _ _); [|done].
  rewrite IH. apply perm_swap.
Qed.

Lemma sort_by_importance_perm l : sort_by_importance l ≡ₚ l.
Proof.
  induction l as [|c l IH]; simpl; [done|].
  by rewrite insert_desc_perm, IH.
Qed.

Lemma insert_desc_sorted c l :
  StronglySorted not_below l -> StronglySorted not_below (insert_desc c l).
Proof.
  induction 1 as [|d rest Hs IH Hd]; simpl.
  - repeat constructor.
  - destruct (Py.Qltb (importance_score c) (importance_score d)) eqn:E.
    + apply PyFacts.Qltb_true in E. constructor; [done|].
      rewrite insert_desc_perm. constructor; [|done].
      by apply Qlt_le_weak.
    + apply PyFacts.Qltb_false in E. constructor; [by constructor|].
      constructor; [done|].
      eapply Forall_impl; [exact Hd|]. intros x Hx.
      unfold not_below in *. by eapply Qle_trans.
Qed.

Lemma sort_by_importance_sorted l :
  StronglySorted not_below (sort_by_importance l).
Proof.
  induction l as [|c l IH]; simpl; [constructor|].
  by apply insert_desc_sorted.
Qed.

Lemma with_score_insert v c l :
  with_score v (insert_desc c l) = with_score v (c :: l).
Proof.
  unfold with_score. induction l as [|d rest IH]; simpl; [done|].
  destruct (Py.Qltb (importance_score c) (importance_score d)) eqn:E;
    [|done].
  simpl. rewrite IH. simpl.
  destruct (Qeq_bool (importance_score c) v) eqn:Ec; [|done].
  destruct (Qeq_bool (importance_score d) v) eqn:Ed; [|done].
  apply PyFacts.Qltb_true in E. apply Qeq_bool_iff in Ec, Ed.
  rewrite Ec, Ed in E. by apply Qlt_irrefl in E.
Qed.

Lemma with_score_sort v l :
  with_score v (sort_by_importance l) = with_score v l.
Proof.
  induction l as [|c l IH]; simpl; [done|].
  rewrite with_score_insert. unfold with_score in *. simpl.
  by rewrite IH.
Qed.

Lemma five_minus d : (5 - inject_Z d == inject_Z (5 - d))%Q.
Proof. unfold Qeq; simpl. lia. Qed.

Lemma depth_weight_code d :
  (inject_Z (Z.max 0 (5 - d)) == Qmax 0 (5 - inject_Z d))%Q.
Proof.
  rewrite five_minus.
  destruct (Z.max_spec 0 (5 - d)) as [[Hlt ->]|[Hle ->]].
  - rewrite Q.max_r; [reflexivity|]. change 0%Q with (inject_Z 0).
    rewrite <- Zle_Qle. lia.
  - rewrite Q.max_l; [reflexivity|]. change 0%Q with (inject_Z 0).
    rewrite <- Zle_Qle. lia.
Qed.

Lemma importance_of_formula d a p :
  (importance_of d a p == importance_formula d a p)%Q.
Proof.
  unfold importance_of, importance_formula, depth_weight, area_weight,
    structure_weight.
  rewrite depth_weight_code. field.
Qed.

Lemma depth_weight_saturates d : (5 <= d)%Z -> (depth_weight d == 0)%Q.
Proof.
  intros Hd. unfold depth_weight. rewrite five_minus.
  rewrite Q.max_l; [reflexivity|]. change 0%Q with (inject_Z 0).
  rewrite <- Zle_Qle. lia.
Qed.

(** C6: every contour that [analyze_contours] returns carries the score
    0.50 * depth_weight + 0.35 * area_weight + 0.15 * structure_weight of
    its own depth, normalised area and normalised perimeter, with
    depth_weight = max(0, 5 - depth) / 5, area_weight = min(area * 10, 1)
    and structure_weight = min(perimeter * 2, 1); the depth weight is 0
    from depth 5 on. *)
Theorem importance_of_surviving_contours
    h w found hierarchy min_area_fraction result c :
  analyze_contours h w found hierarchy min_area_fraction = Some result ->
  c ∈ result ->
  (importance_score c
   == (50 # 100) * depth_weight (depth c)
      + (35 # 100) * area_weight (area c)
      + (15 # 100) * structure_weight (perimeter c))%Q /\
  (depth_weight (depth c) == Qmax 0 (5 - inject_Z (depth c)) / 5)%Q /\
  (area_weight (area c) == Qmin (area c * 10) 1)%Q /\
  (structure_weight (perimeter c) == Qmin (perimeter c * 2) 1)%Q /\
  (forall d, (5 <= d)%Z -> depth_weight d == 0)%Q.
Proof.
  unfold analyze_contours. intros Hres Hc.
  destruct (analyzed_in_order h w found hierarchy min_area_fraction)
    as [extracted|] eqn:E; simpl in Hres; [|done].
  injection Hres as <-.
  rewrite sort_by_importance_perm in Hc.
  pose proof (analyzed_in_order_Forall
    (fun c => importance_score c
              = importance_of (depth c) (area c) (perimeter c))
    h w found hierarchy min_area_fraction extracted) as HF.
  rewrite Forall_forall in HF. rewrite (HF ltac:(intros ???? Hone;
    by apply analyze_one_spec in Hone as (_ & _ & ?)) E c Hc).
  split; [|repeat split; try reflexivity; apply depth_weight_saturates].
  rewrite importance_of_formula. unfold importance_formula. field.
Qed.

Lemma importance_of_surviving_contours_witness :
  (importance_score Samples.innermost_square
   == (50 # 100) * depth_weight (depth Samples.innermost_square)
      + (35 # 100) * area_weight (area Samples.innermost_square)
      + (15 # 100) * structure_weight (perimeter Samples.innermost_square))%Q.
Proof.
  assert (Hres : analyze_contours 100 100 Samples.found_squares
                   (Some Samples.hierarchy_squares) (5 # 10000)
                 = Some Samples.analyzed_squares)
    by (vm_compute; reflexivity).
  assert (Hc : Samples.innermost_square ∈ Samples.analyzed_squares)
    by (apply list_elem_of_lookup; exists 4%nat; reflexivity).
  exact (proj1 (importance_of_surviving_contours _ _ _ _ _ _ _ Hres Hc)).
Defined.

(** C7: what [analyze_contours] returns is the extracted contours put in
    descending order of importance score, and the contours of any one
    score keep the order in which they were extracted. *)
Theorem analyze_contours_sorted_stable
    h w found hierarchy min_area_fraction result :
  analyze_contours h w found hierarchy min_area_fraction = Some result ->
  exists extracted,
    analyzed_in_order h w found hierarchy min_area_fraction
      = Some extracted /\
    result ≡ₚ extracted /\
    StronglySorted
      (fun a b => (importance_score b <= importance_score a)%Q) result /\
    forall v, with_score v result = with_score v extracted.
Proof.
  unfold analyze_contours. intros Hres.
  destruct (analyzed_in_order h w found hierarchy min_area_fraction)
    as [extracted|]; simpl in Hres; [|done].
  injection Hres as <-. exists extracted. split; [done|].
  split; [apply sort_by_importance_perm|].
  split; [apply sort_by_importance_sorted|].
  intros v. apply with_score_sort.
Qed.

Lemma analyze_contours_sorted_stable_witness :
  exists extracted,
    analyzed_in_order 100 100 Samples.found_squares
      (Some Samples.hierarchy_squares) (5 # 10000) = Some extracted /\
    Samples.analyzed_squares ≡ₚ extracted /\
    StronglySorted
      (fun a b => (importance_score b <= importance_score a)%Q)
      Samples.analyzed_squares /\
    forall v, with_score v Samples.analyzed_squares = with_score v extracted.
Proof.
  assert (Hres : analyze_contours 100 100 Samples.found_squares
                   (Some Samples.hierarchy_squares) (5 # 10000)
                 = Some Samples.analyzed_squares)
    by (vm_compute; reflexivity).
  exact (analyze_contours_sorted_stable _ _ _ _ _ _ Hres).
Defined.

(** The two equal squares of the sample both score 1; the left one was
    extracted first and stays first. *)
Example equal_squares_keep_order :
  map (fun c => hd_error (points_normalised c))
      (with_score 1 Samples.analyzed_squares)
  = [Some (5 # 100, 5 # 100); Some (55 # 100, 5 # 100)]%Q /\
  map (fun c => hd_error (points_normalised c))
      (with_score 1 Samples.extracted_squares)
  = [Some (5 # 100, 5 # 100); Some (55 # 100, 5 # 100)]%Q.
Proof. split; vm_compute; reflexivity. Qed.

(** The tier label as a function of depth alone. *)
Lemma classify_tier_cases d :
  (d = 0 /\ _classify_tier d = "outer")%Z \/
  (1 <= d <= 2 /\ _classify_tier d = "inner")%Z \/
  (3 <= d /\ _classify_tier d = "detail")%Z \/
  (d < 0 /\ _classify_tier d = "inner")%Z.
Proof.
  unfold _classify_tier.
  destruct (Z.eqb_spec d 0); [by left|].
  destruct (Z.leb_spec d 2); [|right; right; left; split; [lia|done]].
  destruct (Z_lt_le_dec d 0);
    [right; right; right | right; left]; split; (lia || done).
Qed.

(** C8: the tier of every extracted shape is [_classify_tier] of its
    depth: "outer" at depth 0, "inner" at depth 1 or 2, "detail" from
    depth 3 on (and no shape has a negative depth). *)
Theorem tier_of_extracted_shape
    h w found hierarchy min_area_fraction result c :
  analyze_contours h w found hierarchy min_area_fraction = Some result ->
  c ∈ result ->
  tier c = _classify_tier (depth c) /\
  ((depth c = 0 /\ tier c = "outer")%Z \/
   (1 <= depth c <= 2 /\ tier c = "inner")%Z \/
   (3 <= depth c /\ tier c = "detail")%Z).
Proof.
  unfold analyze_contours. intros Hres Hc.
  destruct (analyzed_in_order h w found hierarchy min_area_fraction)
    as [extracted|] eqn:E; simpl in Hres; [|done].
  injection Hres as <-.
  rewrite sort_by_importance_perm in Hc.
  pose proof (analyzed_in_order_Forall
    (fun c => tier c = _classify_tier (depth c) /\ (0 <= depth c)%Z)
    h w found hierarchy min_area_fraction extracted) as HF.
  rewrite Forall_forall in HF.
  destruct (HF ltac:(intros hier idx contour c' Hone;
    apply analyze_one_spec in Hone as (Hd & Ht & _);
    split; [done | by apply depth_walk_ge in Hd]) E c Hc) as [Ht Hd].
  split; [done|]. rewrite Ht.
  destruct (classify_tier_cases (depth c)) as [?|[?|[?|[? _]]]];
    [by left | by right; left | by right; right | lia].
Qed.

Lemma tier_of_extracted_shape_witness :
  tier Samples.innermost_square
    = _classify_tier (depth Samples.innermost_square) /\
  ((depth Samples.innermost_square = 0
    /\ tier Samples.innermost_square = "outer")%Z \/
   (1 <= depth Samples.innermost_square <= 2
    /\ tier Samples.innermost_square = "inner")%Z \/
   (3 <= depth Samples.innermost_square
    /\ tier Samples.innermost_square = "detail")%Z).
Proof.
  assert (Hres : analyze_contours 100 100 Samples.found_squares
                   (Some Samples.hierarchy_squares) (5 # 10000)
                 = Some Samples.analyzed_squares)
    by (vm_compute; reflexivity).
  assert (Hc : Samples.innermost_square ∈ Samples.analyzed_squares)
    by (apply list_elem_of_lookup; exists 4%nat; reflexivity).
  exact (tier_of_extracted_shape _ _ _ _ _ _ _ Hres Hc).
Defined.

End AnalyzerFacts.

(** ** Tone and shading bands *)

Module ToneFacts.
Import ToneMapper.

Lemma zip_with_map_same {A B C D} (g : B -> C -> D) (f : A -> B)
    (h : A -> C) (l : list A) :
  zip_with g (map f l) (map h l) = map (fun x => g (f x) (h x)) l.
Proof. induction l; simpl; f_equal; auto. Qed.

(** One band's assignment, pixel by pixel. *)
Lemma assign_where_pointwise (f : Z -> Z) smoothed low high val :
  assign_where (map (map f) smoothed) (inRange smoothed low high) val
  = map (map (fun p => if (low <=? p)%Z && (p <=? high)%Z
                       then val else f p)) smoothed.
Proof.
  unfold assign_where, inRange. rewrite zip_with_map_same.
  apply map_ext. intros row. rewrite zip_with_map_same.
  apply map_ext. intros p. by destruct ((low <=? p)%Z && (p <=? high)%Z).
Qed.

Lemma bands_pointwise bands : forall (f : Z -> Z) smoothed,
  foldl (fun mask band =>
           let '(label, low, high, val) := band in
           assign_where mask (inRange smoothed low high) val)
        (map (map f) smoothed) bands
  = map (map (fun p => pixel_after bands (f p) p)) smoothed.
Proof.
  induction bands as [|[[[label low] high] val] bands IH];
    intros f smoothed; simpl.
  - reflexivity.
  - rewrite assign_where_pointwise. by rewrite IH.
Qed.

Lemma mask_of_smoothed_pointwise smoothed bands :
  mask_of_smoothed smoothed bands
  = map (map (pixel_after bands 2)) smoothed.
Proof. unfold mask_of_smoothed, full_like. apply bands_pointwise. Qed.

Lemma pixel_after_default p :
  pixel_after DEFAULT_BANDS 2 p = default_band_value p.
Proof.
  unfold pixel_after, default_band_value, DEFAULT_BANDS. simpl.
  destruct (Z.leb_spec 0 p), (Z.leb_spec p 80), (Z.leb_spec 81 p),
    (Z.leb_spec p 180), (Z.leb_spec 181 p), (Z.leb_spec p 255);
    simpl; (reflexivity || lia).
Qed.

Lemma default_band_value_range p : band_value (default_band_value p).
Proof.
  unfold band_value, default_band_value.
  destruct (_ && _); [auto|]. destruct (_ && _); auto.
Qed.

Lemma counts_add_up (l : list Z) :
  Forall band_value l ->
  length (filter (fun m => m = 0%Z) l) + length (filter (fun m => m = 1%Z) l)
  + length (filter (fun m => m = 2%Z) l) = length l.
Proof.
  induction 1 as [|v l Hv _ IH]; [done|].
  rewrite !filter_cons.
  destruct Hv as [-> | [-> | ->]]; simpl; lia.
Qed.

Lemma div_nonzero x (n : Z) :
  n <> 0%Z ->
  Py.div x (inject_Z n) = Some (x / inject_Z n)%Q.
Proof.
  intros Hn. unfold Py.div.
  destruct (Qeq_bool (inject_Z n) 0) eqn:E; [|done].
  apply Qeq_bool_iff in E. unfold Qeq in E. simpl in E. lia.
Qed.

Lemma tone_summary_sum (m : image) :
  Forall (Forall band_value) m ->
  match tone_summary m with
  | Some (deep_shadow, mid_tone, highlight) =>
    (Qabs (deep_shadow + mid_tone + highlight - 100) <= 1 # 10)%Q
  | None => concat m = []
  end.
Proof.
  intros Hm. unfold tone_summary, percentage, size, count_equal.
  assert (Hall : Forall band_value (concat m)) by by apply Forall_concat.
  pose proof (counts_add_up _ Hall) as Hcount.
  clear Hall. destruct (decide (concat m = [])) as [E|E].
  { rewrite E. by simpl. }
  set (n := length (concat m)) in *.
  assert (Hn : Z.of_nat n <> 0%Z)
    by (subst n; destruct (concat m); simpl; [done | lia]).
  rewrite !(div_nonzero _ _ Hn). simpl.
  apply PyFacts.round1_sum.
  set (c0 := length (filter (fun m => m = 0%Z) (concat m))) in *.
  set (c1 := length (filter (fun m => m = 1%Z) (concat m))) in *.
  set (c2 := length (filter (fun m => m = 2%Z) (concat m))) in *.
  assert (Hq : (inject_Z (Z.of_nat c0) + inject_Z (Z.of_nat c1)
                + inject_Z (Z.of_nat c2) == inject_Z (Z.of_nat n))%Q).
  { rewrite <- !inject_Z_plus. f_equiv. lia. }
  assert (Hn' : ~ (inject_Z (Z.of_nat n) == 0)%Q).
  { unfold Qeq. simpl. lia. }
  transitivity ((inject_Z (Z.of_nat c0) + inject_Z (Z.of_nat c1)
                 + inject_Z (Z.of_nat c2)) / inject_Z (Z.of_nat n) * 100)%Q.
  - field. exact Hn'.
  - rewrite Hq. field. exact Hn'.
Qed.

(** C5: with the default bands the mask has the shape of the smoothed
    image and every pixel holds the one value that its smoothed intensity
    selects: 0 on [0, 80], 1 on [81, 180], 2 on [181, 255] and 2 as well
    outside of all ranges; and for a mask over {0, 1, 2} the three
    percentages of [tone_summary] add up to 100 within 0.1 (a mask
    without pixels has no summary: the division fails). *)
Theorem tone_bands_total_and_summary
    (GaussianBlur : image -> Z -> image) grayscale blur_ksize :
  generate_tone_mask GaussianBlur grayscale None blur_ksize
    = map (map default_band_value) (GaussianBlur grayscale blur_ksize) /\
  Forall (Forall band_value)
         (generate_tone_mask GaussianBlur grayscale None blur_ksize) /\
  (forall p, ~ (0 <= p <= 255)%Z -> default_band_value p = 2%Z) /\
  (forall m : image,
     Forall (Forall band_value) m ->
     match tone_summary m with
     | Some (deep_shadow, mid_tone, highlight) =>
       (Qabs (deep_shadow + mid_tone + highlight - 100) <= 1 # 10)%Q
     | None => concat m = []
     end).
Proof.
  assert (Hmask :
    generate_tone_mask GaussianBlur grayscale None blur_ksize
    = map (map default_band_value) (GaussianBlur grayscale blur_ksize)).
  { unfold generate_tone_mask. simpl. rewrite mask_of_smoothed_pointwise.
    apply map_ext. intros row. apply map_ext. apply pixel_after_default. }
  split; [exact Hmask|]. split; [|split].
  - rewrite Hmask. apply Forall_fmap, Forall_true. intros row.
    apply Forall_fmap, Forall_true. intros p.
    apply default_band_value_range.
  - intros p Hp. unfold default_band_value.
    destruct (Z.leb_spec 0 p), (Z.leb_spec p 80), (Z.leb_spec 81 p),
      (Z.leb_spec p 180); simpl; (reflexivity || lia).
  - apply tone_summary_sum.
Qed.

Lemma tone_bands_total_and_summary_witness :
  match tone_summary [[0; 1; 2]; [2; 2; 2]; [0; 0; 1]]%Z with
  | Some (deep_shadow, mid_tone, highlight) =>
    (Qabs (deep_shadow + mid_tone + highlight - 100) <= 1 # 10)%Q
  | None => concat [[0; 1; 2]; [2; 2; 2]; [0; 0; 1]]%Z = []
  end.
Proof.
  assert (Hm : Forall (Forall band_value)
                      [[0; 1; 2]; [2; 2; 2]; [0; 0; 1]]%Z)
    by (repeat match goal with |- Forall _ _ => constructor end;
        unfold band_value; lia).
  exact (proj2 (proj2 (proj2
    (tone_bands_total_and_summary (fun img _ => img) [[70; 200]]%Z 1)))
    _ Hm).
Defined.

(** A mask of three pixels, one per band: each band is reported as 33.3
    and the sum is 99.9. *)
Example tone_summary_thirds :
  exists d m h,
    tone_summary [[0; 1; 2]]%Z = Some (d, m, h) /\
    (d == 333 # 10)%Q /\ (m == 333 # 10)%Q /\ (h == 333 # 10)%Q.
Proof. do 3 eexists. split; [vm_compute; reflexivity|]. by repeat split. Qed.

(** C10: the two default band tables have different ranges, and
    intensity 70 separates them: the tone mask gives a pixel smoothed to
    70 the value 0 of deep_shadow, while in the table of [map_shading]
    only the mid_tone band holds 70, so that on the image of one pixel of
    intensity 70 [map_shading] returns one region, labelled mid_tone. *)
Theorem default_band_tables_disagree
    (connectedComponentsWithStats : image -> list ShadingMapper.Stats) :
  connectedComponentsWithStats [[0]]%Z = [] ->
  connectedComponentsWithStats [[255]]%Z
    = [ {| ShadingMapper.CC_STAT_LEFT := 0;
           ShadingMapper.CC_STAT_TOP := 0;
           ShadingMapper.CC_STAT_WIDTH := 1;
           ShadingMapper.CC_STAT_HEIGHT := 1;
           ShadingMapper.CC_STAT_AREA := 1 |} ] ->
  ShadingMapper.DEFAULT_BANDS
    = [ ("deep_shadow", 0, 63); ("mid_tone", 64, 191);
        ("highlight", 192, 255) ]%Z /\
  map (fun b => (b.1.1.1, b.1.1.2, b.1.2)) DEFAULT_BANDS
    = [ ("deep_shadow", 0, 80); ("mid_tone", 81, 180);
        ("highlight", 181, 255) ]%Z /\
  mask_of_smoothed [[70]]%Z DEFAULT_BANDS = [[0]]%Z /\
  ShadingMapper.bands_holding ShadingMapper.DEFAULT_BANDS 70 = ["mid_tone"] /\
  map (fun r => (ShadingMapper.label r, ShadingMapper.pixel_count r))
    <$> ShadingMapper.map_shading connectedComponentsWithStats [[70]]%Z None
    = Some [("mid_tone", 1%Z)].
Proof.
  intros H0 H1. repeat split; try reflexivity.
  unfold ShadingMapper.map_shading, ShadingMapper.DEFAULT_BANDS. simpl.
  unfold ShadingMapper._regions_for_band.
  change (inRange [[70]]%Z 0 63) with [[0]]%Z.
  change (inRange [[70]]%Z 64 191) with [[255]]%Z.
  change (inRange [[70]]%Z 192 255) with [[0]]%Z.
  rewrite H0, H1. vm_compute. reflexivity.
Qed.

Lemma default_band_tables_disagree_witness :
  mask_of_smoothed [[70]]%Z DEFAULT_BANDS = [[0]]%Z /\
  map (fun r => (ShadingMapper.label r, ShadingMapper.pixel_count r))
    <$> ShadingMapper.map_shading Samples.one_pixel_components [[70]]%Z None
    = Some [("mid_tone", 1%Z)].
Proof.
  pose proof (default_band_tables_disagree Samples.one_pixel_components
                eq_refl eq_refl) as (_ & _ & Hm & _ & Hr).
  exact (conj Hm Hr).
Defined.

End ToneFacts.

(** ** Proportion scoring *)

Module BlueprintFacts.
Import BlueprintEngine.

Lemma lm_by_name_present landmarks name :
  present landmarks name = bool_decide (is_Some (_lm_by_name landmarks name)).
Proof.
  unfold present. apply bool_decide_ext.
  induction landmarks as [|lm rest IH]; simpl.
  - split; [by intros ?%elem_of_nil | by intros [? ?]].
  - rewrite elem_of_cons, IH. case_bool_decide as Hn.
    + split; [by eauto | by left].
    + split; [intros [?|?]; [congruence | done] | by right].
Qed.

Lemma clamp01_range e : (0 <= clamp01 e <= 1)%Q.
Proof.
  unfold clamp01. split.
  - apply Q.min_glb; [apply Q.le_max_r | discriminate].
  - apply Q.le_min_r.
Qed.

(** The error that the code appends is the clamped relative error. *)
Lemma pair_error_clamped sqrt a b ideal :
  (1 # 1000000 <= ideal)%Q ->
  pair_error sqrt a b ideal
  = clamp01 (Qabs (_dist sqrt a b - ideal) / ideal).
Proof.
  intros Hi. unfold pair_error, clamp01.
  assert (Hmax : Qmax ideal (1 # 1000000) = ideal).
  { unfold Qmax, GenericMinMax.gmax.
    destruct (ideal ?= 1 # 1000000)%Q eqn:E; try done.
    apply Qlt_alt in E. by apply Qlt_not_le in E. }
  rewrite Hmax.
  assert (Hpos : (0 <= Qabs (_dist sqrt a b - ideal) / ideal)%Q).
  { apply Qle_shift_div_l; [lra|]. rewrite Qmult_0_l. apply Qabs_nonneg. }
  assert (Hmax0 : Qmax (Qabs (_dist sqrt a b - ideal) / ideal) 0
                  = (Qabs (_dist sqrt a b - ideal) / ideal)%Q).
  { unfold Qmax, GenericMinMax.gmax.
    destruct (_ ?= 0)%Q eqn:E; try done.
    apply Qlt_alt in E. by apply Qlt_not_le in E. }
  by rewrite Hmax0.
Qed.

Lemma omap_cons_eq {A B} (f : A -> option B) x l :
  omap f (x :: l)
  = match f x with Some y => y :: omap f l | None => omap f l end.
Proof. reflexivity. Qed.

Lemma scored_error_eq sqrt landmarks a_name b_name key :
  scored_error sqrt landmarks (a_name, b_name, key)
  = match _lm_by_name landmarks a_name, _lm_by_name landmarks b_name with
    | Some a, Some b =>
      match _IDEAL_PROPORTIONS !! key with
      | Some ideal =>
        Some (clamp01 (Qabs (_dist sqrt a b - ideal) / ideal))
      | None => None
      end
    | _, _ => None
    end.
Proof.
  unfold scored_error. cbn [fst snd].
  destruct (_lm_by_name landmarks a_name); [|reflexivity].
  destruct (_lm_by_name landmarks b_name); reflexivity.
Qed.

Lemma errors_loop_spec sqrt landmarks todo :
  Forall key_ok todo ->
  forall errors,
    errors_loop sqrt landmarks todo errors
    = Some (errors ++ omap (scored_error sqrt landmarks) todo).
Proof.
  induction 1 as [|[[a_name b_name] key] todo (ideal & Hkey & Hi) _ IH];
    intros errors.
  - cbn [errors_loop]. by rewrite app_nil_r.
  - rewrite omap_cons_eq, scored_error_eq. cbn [errors_loop].
    cbn [snd] in Hkey.
    destruct (_lm_by_name landmarks a_name) as [a|]; [|apply IH].
    destruct (_lm_by_name landmarks b_name) as [b|]; [|apply IH].
    rewrite Hkey. cbn [mbind option_bind].
    rewrite IH, <- app_assoc. cbn [app].
    by rewrite pair_error_clamped.
Qed.



Lemma scored_errors_range sqrt landmarks todo :
  Forall (fun e => 0 <= e <= 1)%Q (omap (scored_error sqrt landmarks) todo).
Proof.
  induction todo as [|[[a_name b_name] key] todo IH]; [constructor|].
  rewrite omap_cons_eq, scored_error_eq.
  destruct (_lm_by_name landmarks a_name); [|done].
  destruct (_lm_by_name landmarks b_name); [|done].
  destruct (_IDEAL_PROPORTIONS !! key); [|done].
  constructor; [apply clamp01_range | done].
Qed.

Lemma pairs_key_ok : Forall key_ok pairs.
Proof.
  unfold pairs.
  repeat match goal with
         | |- Forall _ _ => constructor
         | |- key_ok _ => eexists; split; [vm_compute; reflexivity|]
         end; discriminate.
Qed.



(** With the nose and the left shoulder only, 0.15 apart, the single
    scored pair has error 0.25 and the accuracy is 75. *)
Example score_nose_and_shoulder :
  exists r,
    _score_proportions Samples.sqrt_exact Samples.nose_and_shoulder = Some r
    /\ (r == 75)%Q.
Proof. eexists. split; [vm_compute; reflexivity | reflexivity]. Qed.

End BlueprintFacts.

(** ** Canvas coordinate transform *)

Module CanvasFacts.
Import CanvasRenderer.

(** Truncation keeps a value between two integers that bound it. *)
Lemma int_between (a b : Z) (q : Q) :
  (inject_Z a <= q)%Q -> (q <= inject_Z b)%Q ->
  (a <= Py.int q <= b)%Z.
Proof.
  intros Ha Hb. unfold Py.int.
  assert (Hfl : (a <= Qfloor q)%Z).
  { rewrite <- (Qfloor_Z a). by apply Qfloor_resp_le. }
  assert (Hfu : (Qfloor q <= b)%Z).
  { rewrite Zle_Qle. eapply Qle_trans; [apply Qfloor_le | exact Hb]. }
  assert (Hcl : (a <= Qceiling q)%Z).
  { rewrite Zle_Qle. eapply Qle_trans; [exact Ha | apply Qle_ceiling]. }
  assert (Hcu : (Qceiling q <= b)%Z).
  { rewrite <- (Qceiling_Z b). by apply Qceiling_resp_le. }
  destruct (Qle_bool 0 q); lia.
Qed.

Lemma div_positive x y :
  (0 < y)%Q -> Py.div x y = Some (x / y)%Q.
Proof.
  intros Hy. unfold Py.div.
  destruct (Qeq_bool y 0) eqn:E; [|done].
  apply Qeq_bool_iff in E. rewrite E in Hy. by apply Qlt_irrefl in Hy.
Qed.

Lemma div_lt_mul a b c : (0 < b)%Q -> (a / b < c)%Q -> (a < c * b)%Q.
Proof.
  intros Hb H. apply (Qmult_lt_r _ _ b Hb) in H.
  rewrite (Qmult_comm (a / b)), Qmult_div_r in H; [done|].
  intros E. rewrite E in Hb. by apply Qlt_irrefl in Hb.
Qed.

Lemma le_div_mul a b c : (0 < b)%Q -> (c <= a / b)%Q -> (c * b <= a)%Q.
Proof.
  intros Hb H. apply (Qmult_le_r _ _ b Hb) in H.
  rewrite (Qmult_comm (a / b)), Qmult_div_r in H; [done|].
  intros E. rewrite E in Hb. by apply Qlt_irrefl in Hb.
Qed.

(** The fitted footprint lies inside the drawing area. *)
Lemma render_footprint_fits x_start y_start x_end y_end image_aspect :
  (x_start < x_end)%Z -> (y_start < y_end)%Z -> (0 < image_aspect)%Q ->
  exists render_w render_h offset_x offset_y,
    render_footprint (x_start, y_start, x_end, y_end) image_aspect
      = Some (render_w, render_h, offset_x, offset_y) /\
    (0 <= render_w <= x_end - x_start)%Z /\
    (0 <= render_h <= y_end - y_start)%Z /\
    (x_start <= offset_x)%Z /\ (offset_x + render_w <= x_end)%Z /\
    (y_start <= offset_y)%Z /\ (offset_y + render_h <= y_end)%Z.
Proof.
  intros Hx Hy Ha. unfold render_footprint.
  set (area_w := (x_end - x_start)%Z).
  set (area_h := (y_end - y_start)%Z).
  assert (Hw : (0 < inject_Z area_w)%Q).
  { change 0%Q with (inject_Z 0). rewrite <- Zlt_Qlt. subst area_w. lia. }
  assert (Hh : (0 < inject_Z area_h)%Q).
  { change 0%Q with (inject_Z 0). rewrite <- Zlt_Qlt. subst area_h. lia. }
  rewrite (div_positive _ _ Hh). cbn [mbind option_bind].
  assert (Hfit : forall render_w render_h,
    (0 <= render_w <= area_w)%Z -> (0 <= render_h <= area_h)%Z ->
    (x_start <= x_start + (area_w - render_w) / 2)%Z /\
    (x_start + (area_w - render_w) / 2 + render_w <= x_end)%Z /\
    (y_start <= y_start + (area_h - render_h) / 2)%Z /\
    (y_start + (area_h - render_h) / 2 + render_h <= y_end)%Z).
  { intros rw rh Hrw Hrh. subst area_w area_h.
    pose proof (Z.div_pos (x_end - x_start - rw) 2 ltac:(lia) ltac:(lia)).
    pose proof (Z.div_pos (y_end - y_start - rh) 2 ltac:(lia) ltac:(lia)).
    pose proof (Z.div_le_upper_bound (x_end - x_start - rw) 2
                  (x_end - x_start - rw) ltac:(lia) ltac:(lia)).
    pose proof (Z.div_le_upper_bound (y_end - y_start - rh) 2
                  (y_end - y_start - rh) ltac:(lia) ltac:(lia)).
    lia. }
  destruct (Py.Qltb (inject_Z area_w / inject_Z area_h) image_aspect) eqn:E.
  - apply PyFacts.Qltb_true in E.
    rewrite (div_positive _ _ Ha). cbn [mbind option_bind].
    assert (Hrh : (0 <= Py.int (inject_Z area_w / image_aspect) <= area_h)%Z).
    { apply int_between.
      - apply Qle_shift_div_l; [done|]. rewrite Qmult_0_l.
        by apply Qlt_le_weak.
      - apply Qle_shift_div_r; [done|]. apply Qlt_le_weak.
        apply div_lt_mul in E; [|done].
        by rewrite Qmult_comm. }
    assert (Hrw : (0 <= area_w <= area_w)%Z) by (subst area_w; lia).
    destruct (Hfit _ _ Hrw Hrh) as (? & ? & ? & ?).
    do 4 eexists. split; [reflexivity|]. by repeat split; try lia.
  - apply PyFacts.Qltb_false in E. cbn [mbind option_bind].
    assert (Hrw : (0 <= Py.int (inject_Z area_h * image_aspect) <= area_w)%Z).
    { apply int_between.
      - change (inject_Z 0) with 0%Q. apply Qmult_le_0_compat;
          by apply Qlt_le_weak.
      - apply le_div_mul in E; [|done].
        by rewrite Qmult_comm. }
    assert (Hrh : (0 <= area_h <= area_h)%Z) by (subst area_h; lia).
    destruct (Hfit _ _ Hrw Hrh) as (? & ? & ? & ?).
    do 4 eexists. split; [reflexivity|]. by repeat split; try lia.
Qed.

Lemma int_of_Z (z : Z) : Py.int (inject_Z z) = z.
Proof.
  pose proof (int_between z z (inject_Z z) (Qle_refl _) (Qle_refl _)). lia.
Qed.

(** Within the int32 range the two casts of the transform truncate. *)
Lemma astype_int32_twice (q : Q) :
  (-2147483648 <= Py.int q < 2147483648)%Z ->
  astype_int32 (inject_Z (astype_int32 q)) = Py.int q.
Proof.
  intros Hq.
  assert (E : forall r, (-2147483648 <= Py.int r < 2147483648)%Z ->
                        astype_int32 r = Py.int r).
  { intros r Hr. unfold astype_int32. cbv zeta.
    destruct (Z.leb_spec (-2147483648) (Py.int r)); [|lia].
    destruct (Z.ltb_spec (Py.int r) 2147483648); [done | lia]. }
  rewrite (E q Hq). rewrite E; rewrite int_of_Z; done.
Qed.

(** C9, as stated: the claim ranges over every drawing area, and in one
    that lies beyond the int32 range the origin of the unit square is
    sent to a pixel outside the area. *)
Lemma wide_draw_area_leaves_int32 :
  ~ forall points x_start y_start x_end y_end image_aspect,
      Forall (fun p => (0 <= p.1 <= 1)%Q /\ (0 <= p.2 <= 1)%Q) points ->
      (x_start < x_end)%Z -> (y_start < y_end)%Z -> (0 < image_aspect)%Q ->
      exists pixels,
        _normalised_to_canvas points (x_start, y_start, x_end, y_end)
                              image_aspect = Some pixels /\
        Forall (fun px => (x_start <= px.1 <= x_end)%Z /\
                          (y_start <= px.2 <= y_end)%Z) pixels.
Proof.
  intros H.
  assert (Hpts : Forall (fun p => (0 <= p.1 <= 1)%Q /\ (0 <= p.2 <= 1)%Q)
                        [(0, 0)%Q]).
  { constructor; [|constructor]. cbn [fst snd]. repeat split; discriminate. }
  destruct (H [(0, 0)%Q] 3000000000 0 3000000010 10 1%Q Hpts
              eq_refl eq_refl eq_refl)%Z as (pixels & Hpx & Hin).
  assert (E : _normalised_to_canvas [(0, 0)%Q]
                (3000000000, 0, 3000000010, 10)%Z 1
              = Some [(-2147483648, 0)%Z]) by (vm_compute; reflexivity).
  rewrite E in Hpx. injection Hpx as <-.
  apply Forall_cons in Hin as [[Hx _] _]. cbn [fst] in Hx. lia.
Qed.

(** C9, amended: for points in the unit square, a drawing area with
    [x_start < x_end] and [y_start < y_end] whose coordinates are int32
    values and a positive aspect ratio, the transform returns one pixel
    per point, every pixel lies in the drawing area, the fitted footprint
    is no larger than the drawing area and the centering offsets are not
    negative. *)
Theorem normalised_points_stay_in_draw_area
    points x_start y_start x_end y_end image_aspect :
  Forall (fun p => (0 <= p.1 <= 1)%Q /\ (0 <= p.2 <= 1)%Q) points ->
  (x_start < x_end)%Z -> (y_start < y_end)%Z -> (0 < image_aspect)%Q ->
  fits_int32 (x_start, y_start, x_end, y_end) ->
  (exists pixels,
     _normalised_to_canvas points (x_start, y_start, x_end, y_end)
                           image_aspect = Some pixels /\
     length pixels = length points /\
     Forall (fun px => (x_start <= px.1 <= x_end)%Z /\
                       (y_start <= px.2 <= y_end)%Z) pixels) /\
  (exists render_w render_h offset_x offset_y,
     render_footprint (x_start, y_start, x_end, y_end) image_aspect
       = Some (render_w, render_h, offset_x, offset_y) /\
     (0 <= render_w <= x_end - x_start)%Z /\
     (0 <= render_h <= y_end - y_start)%Z /\
     (0 <= offset_x - x_start)%Z /\ (0 <= offset_y - y_start)%Z).
Proof.
  intros Hpts Hx Hy Ha (Hx32 & Hxe32 & Hy32 & Hye32).
  destruct (render_footprint_fits x_start y_start x_end y_end image_aspect
              Hx Hy Ha)
    as (rw & rh & ox & oy & Hfp & Hrw & Hrh & Hox & Hoxw & Hoy & Hoyh).
  split.
  - unfold _normalised_to_canvas. rewrite Hfp. cbn [mbind option_bind].
    eexists. split; [reflexivity|]. split; [apply length_map|].
    apply Forall_fmap. eapply Forall_impl; [exact Hpts|].
    intros [px py] [[Hx0 Hx1] [Hy0 Hy1]]. cbn [fst snd] in *.
    assert (Hrwq : (0 <= inject_Z rw)%Q)
      by (change 0%Q with (inject_Z 0); rewrite <- Zle_Qle; lia).
    assert (Hrhq : (0 <= inject_Z rh)%Q)
      by (change 0%Q with (inject_Z 0); rewrite <- Zle_Qle; lia).
    assert (Bx : (ox <= Py.int (px * inject_Z rw + inject_Z ox)
                  <= ox + rw)%Z).
    { apply int_between; [|rewrite inject_Z_plus]; nra. }
    assert (By : (oy <= Py.int (py * inject_Z rh + inject_Z oy)
                  <= oy + rh)%Z).
    { apply int_between; [|rewrite inject_Z_plus]; nra. }
    cbv [compose]. cbv zeta. cbn [fst snd].
    rewrite !astype_int32_twice by lia. lia.
  - exists rw, rh, ox, oy. repeat split; try done; lia.
Qed.

Lemma normalised_points_stay_in_draw_area_witness :
  exists pixels,
    _normalised_to_canvas
      (ContourAnalyzer.points_normalised Samples.outer_shape)
      (62, 87, 1178, 1667)%Z (4 # 3) = Some pixels /\
    length pixels
      = length (ContourAnalyzer.points_normalised Samples.outer_shape) /\
    Forall (fun px => (62 <= px.1 <= 1178)%Z /\ (87 <= px.2 <= 1667)%Z)
           pixels.
Proof.
  assert (Hpts : Forall (fun p => (0 <= p.1 <= 1)%Q /\ (0 <= p.2 <= 1)%Q)
                   (ContourAnalyzer.points_normalised Samples.outer_shape)).
  { unfold Samples.outer_shape. cbn [ContourAnalyzer.points_normalised].
    repeat match goal with |- Forall _ _ => constructor end;
      cbn [fst snd]; repeat split; discriminate. }
  assert (H32 : fits_int32 (62, 87, 1178, 1667)%Z)
    by (unfold fits_int32; lia).
  exact (proj1 (normalised_points_stay_in_draw_area _ 62 87 1178 1667
                  (4 # 3) Hpts eq_refl eq_refl eq_refl H32)).
Defined.

(** The drawing area of the A4 canvas, and where the corners of the
    sample shape land in it for a 4:3 image. *)
Example a4_draw_area_and_pixels :
  PAPER_SIZES !! "A4" = Some (1240, 1754)%Z /\
  _draw_grid_area 1240 1754 (5 # 100) = (62, 87, 1178, 1667)%Z /\
  _normalised_to_canvas
    (ContourAnalyzer.points_normalised Samples.outer_shape)
    (62, 87, 1178, 1667)%Z (4 # 3)
  = Some [(341, 667); (899, 667); (899, 1085); (341, 1085)]%Z.
Proof. repeat split; vm_compute; reflexivity. Qed.

End CanvasFacts.

(** ** Step planner: the shape of a plan *)

Module PlanStructure.
Import ContourAnalyzer StepPlanner StepGenerator.

(** What one phase scan collects: only contours that the phase accepts,
    and never more than [max_contours] of them (one, if [max_contours] is
    smaller than that). *)
Lemma scan_phase_accepts phase cs : forall i batch (A : gset nat),
  Forall (accepts phase) batch ->
  (Z.of_nat (length batch) < Z.max 1 (max_contours phase))%Z ->
  Forall (accepts phase) (scan_phase phase i cs batch A).1 /\
  (Z.of_nat (length (scan_phase phase i cs batch A).1)
   <= Z.max 1 (max_contours phase))%Z.
Proof.
  induction cs as [|c rest IH]; intros i batch A Hok Hlen; simpl.
  { split; [done | lia]. }
  destruct (bool_decide (i ∈ A)); [by apply IH|].
  destruct (bool_decide (tier c ∈ tiers phase)) eqn:Ht; simpl;
    [|by apply IH].
  destruct (Py.Qltb (importance_score c) (min_importance phase)) eqn:Hi;
    [by apply IH|].
  apply bool_decide_eq_true in Ht. apply PyFacts.Qltb_false in Hi.
  assert (Hok' : Forall (accepts phase) (batch ++ [c])).
  { apply Forall_app; split; [done|]. by repeat constructor. }
  assert (Hlen' : length (batch ++ [c]) = S (length batch))
    by (rewrite length_app; simpl; lia).
  destruct (Z.leb_spec (max_contours phase)
              (Z.of_nat (length (batch ++ [c])))) as [Hfull|Hroom].
  - simpl. split; [done | lia].
  - apply IH; [done | lia].
Qed.

Lemma phase_body_phases_inv cs done st phase :
  phase_steps_inv done st ->
  phase_steps_inv (done ++ [phase]) (phase_body cs st phase).
Proof.
  intros [Hall Hsub]. unfold phase_body.
  pose proof (scan_phase_accepts phase cs 0 [] (assigned st)
                ltac:(constructor) ltac:(simpl; lia)) as [Hok Hlen].
  destruct (scan_phase phase 0 cs [] (assigned st)) as [batch A'].
  simpl in Hok, Hlen.
  assert (Hall' : Forall (fun s => exists ph, ph ∈ done ++ [phase]
                                              /\ made_by ph s) (steps st)).
  { eapply Forall_impl; [exact Hall|]. intros s (ph & Hin & Hm).
    exists ph. split; [|done]. apply elem_of_app. by left. }
  assert (Hsub' : map phase_name (steps st)
                  `sublist_of` map name done ++ [name phase])
    by by apply sublist_inserts_r.
  destruct batch as [|c batch]; unfold phase_steps_inv; simpl;
    rewrite map_app; simpl.
  - done.
  - split.
    + apply Forall_app; split; [done|]. constructor; [|constructor].
      exists phase. split; [apply elem_of_app; right; by left|].
      by repeat split.
    + rewrite map_app. simpl. by apply sublist_app.
Qed.

Lemma foldl_phases_inv cs phases : forall done st,
  phase_steps_inv done st ->
  phase_steps_inv (done ++ phases) (foldl (phase_body cs) st phases).
Proof.
  induction phases as [|ph phases IH]; intros done st Hinv; simpl.
  - by rewrite app_nil_r.
  - replace (done ++ ph :: phases) with ((done ++ [ph]) ++ phases)
      by by rewrite <- app_assoc.
    apply IH. by apply phase_body_phases_inv.
Qed.

(** The state after the loop over [_PHASES]. *)
Lemma phases_done cs :
  phase_steps_inv _PHASES
    (foldl (phase_body cs)
           {| assigned := ∅; steps := []; step_num := 1 |} _PHASES).
Proof.
  apply (foldl_phases_inv cs _PHASES []). split; simpl; [constructor|].
  apply sublist_nil_l.
Qed.

Lemma phase_names_inj p q :
  p ∈ _PHASES -> q ∈ _PHASES -> name p = name q -> p = q.
Proof.
  unfold _PHASES. intros Hp Hq.
  repeat (apply elem_of_cons in Hp as [->|Hp]);
    try (by apply elem_of_nil in Hp);
    repeat (apply elem_of_cons in Hq as [->|Hq]);
    try (by apply elem_of_nil in Hq);
    simpl; intros Hn; try reflexivity; discriminate Hn.
Qed.

Lemma phase_names_reserved p :
  p ∈ _PHASES ->
  name p <> "Preparation" /\ name p <> "Additional Details" /\
  name p <> "Shading" /\ (1 <= max_contours p)%Z.
Proof.
  unfold _PHASES. intros Hp.
  repeat (apply elem_of_cons in Hp as [->|Hp]);
    try (by apply elem_of_nil in Hp); simpl; repeat split;
    (discriminate || lia).
Qed.

(** The body of a plan: the steps between the preparation step and the
    shading step. *)
Lemma plan_steps_body cs include_shading :
  exists st1 extra,
    phase_steps_inv _PHASES st1 /\
    (extra = [] \/
     exists s, extra = [s] /\ phase_name s = "Additional Details" /\
               is_shading_step s = false /\ contours s <> []) /\
    plan_steps cs include_shading
    = grid_step
      :: map renumber (steps st1 ++ extra)
      ++ (if include_shading then
            [ {| step_number :=
                   (Z.of_nat (length (steps st1 ++ extra)) + 2)%Z;
                 phase_name := "Shading";
                 description :=
                   "Add shading — fill in shadow and mid-tone regions";
                 contours := [];
                 is_shading_step := true |} ]
          else []).
Proof.
  rewrite PlannerFacts.plan_steps_unfold. cbv zeta.
  pose proof (phases_done cs) as Hinv.
  pose proof (PlannerFacts.after_remaining_numbering cs _
    (PlannerFacts.phases_inv cs _PHASES _ (PlannerFacts.plan_inv_init cs)))
    as [Hn _].
  set (st1 := foldl (phase_body cs) _ _PHASES) in *.
  exists st1.
  unfold after_remaining in *.
  destruct (remaining_of cs (assigned st1)) as [|c rem] eqn:Hrem.
  - exists []. split; [done|]. split; [by left|]. rewrite app_nil_r.
    destruct include_shading; [|by rewrite app_nil_r].
    rewrite map_app. simpl. unfold renumber at 2. simpl.
    by replace (step_num st1 + 1)%Z
      with (Z.of_nat (length (steps st1)) + 2)%Z by lia.
  - exists [ {| step_number := step_num st1;
                phase_name := "Additional Details";
                description := "Complete any remaining small details";
                contours := c :: rem;
                is_shading_step := false |} ].
    split; [done|]. split.
    { right. eexists. split; [reflexivity|]. by simpl. }
    simpl in *. destruct include_shading; [|by rewrite app_nil_r].
    rewrite (map_app renumber (_ ++ _)). simpl. unfold renumber at 2.
    simpl. rewrite Hn. by rewrite <- Z.add_assoc.
Qed.

(** X3: a plan is the preparation step, then at most six steps that are
    not shading steps and have a batch that is not empty, named after the
    phases in their order and "Additional Details" last, then the shading
    step if and only if shading was asked for; an empty input gives no
    step in between. *)
Theorem plan_steps_structure cs include_shading :
  exists body closing,
    plan_steps cs include_shading = grid_step :: body ++ closing /\
    Forall (fun s => is_shading_step s = false /\ contours s <> []) body /\
    map phase_name body
      `sublist_of` (map name _PHASES ++ ["Additional Details"]) /\
    length body <= 6 /\
    (cs = [] -> body = []) /\
    (if include_shading
     then exists s, closing = [s] /\ is_shading_step s = true /\
                    contours s = [] /\ phase_name s = "Shading"
     else closing = []).
Proof.
  destruct (plan_steps_body cs include_shading)
    as (st1 & extra & [Hall Hsub] & Hextra & Hplan).
  assert (Hbody :
    Forall (fun s => is_shading_step s = false /\ contours s <> [])
           (map renumber (steps st1 ++ extra))).
  { apply Forall_fmap, Forall_app. split.
    - eapply Forall_impl; [exact Hall|].
      by intros s (ph & _ & _ & ? & ? & _).
    - destruct Hextra as [->|(s & -> & _ & ? & ?)]; by repeat constructor. }
  assert (Hnames :
    map phase_name (map renumber (steps st1 ++ extra))
    `sublist_of` (map name _PHASES ++ ["Additional Details"])).
  { rewrite <- list_fmap_compose.
    change (map (phase_name ∘ renumber)) with (map phase_name).
    rewrite map_app. apply sublist_app; [done|].
    destruct Hextra as [->|(s & -> & Hn & _)]; [apply sublist_nil_l|].
    simpl. by rewrite Hn. }
  eexists _, _. split; [exact Hplan|]. split; [exact Hbody|].
  split; [exact Hnames|]. split; [|split].
  - apply sublist_length in Hnames. by rewrite length_map in Hnames.
  - intros ->.
    pose proof (PlannerFacts.plan_steps_head [] include_shading) as _.
    destruct (map renumber (steps st1 ++ extra)) as [|s body] eqn:E;
      [done|exfalso].
    apply Forall_cons in Hbody as [[Hns Hne] _].
    assert (Hin : s ∈ plan_steps [] include_shading).
    { rewrite Hplan. right. apply elem_of_app. left. by left. }
    revert Hin Hne Hns. destruct include_shading; vm_compute;
      intros Hin Hne Hns;
      repeat (apply elem_of_cons in Hin as [->|Hin]);
      try (by apply elem_of_nil in Hin); by (try discriminate).
  - destruct include_shading; [|done]. eexists. by repeat split.
Qed.

Lemma plan_steps_structure_witness :
  exists body closing,
    plan_steps [] true = grid_step :: body ++ closing /\
    Forall (fun s => is_shading_step s = false /\ contours s <> []) body /\
    map phase_name body
      `sublist_of` (map name _PHASES ++ ["Additional Details"]) /\
    length body <= 6 /\
    (([] : list AnalyzedContour) = [] -> body = []) /\
    (exists s, closing = [s] /\ is_shading_step s = true /\
               contours s = [] /\ phase_name s = "Shading").
Proof. exact (plan_steps_structure [] true). Defined.

(** X4: a step named after a phase holds between one contour and the
    phase's [max_contours], each of a tier that the phase allows and with
    an importance of at least the phase's threshold. *)
Theorem phase_step_respects_filters cs include_shading s phase :
  s ∈ plan_steps cs include_shading ->
  phase ∈ _PHASES ->
  phase_name s = name phase ->
  (1 <= Z.of_nat (length (contours s)) <= max_contours phase)%Z /\
  Forall (fun c => tier c ∈ tiers phase /\
                   (min_importance phase <= importance_score c)%Q)
         (contours s).
Proof.
  intros Hs Hph Hname.
  destruct (phase_names_reserved phase Hph) as (Hprep & Hadd & Hshade & Hmax).
  destruct (plan_steps_body cs include_shading)
    as (st1 & extra & [Hall _] & Hextra & Hplan).
  rewrite Hplan in Hs.
  apply elem_of_cons in Hs as [->|Hs]; [by simpl in Hname|].
  apply elem_of_app in Hs as [Hs|Hs].
  - apply list_elem_of_fmap in Hs as (s' & -> & Hs').
    change (phase_name s' = name phase) in Hname.
    change (contours (renumber s')) with (contours s').
    apply elem_of_app in Hs' as [Hs'|Hs'].
    + rewrite Forall_forall in Hall.
      destruct (Hall s' Hs') as (ph & Hin & Hn & _ & Hne & Hlen & Hacc).
      assert (ph = phase) as ->
        by (apply phase_names_inj; [done | done | congruence]).
      split; [|exact Hacc].
      destruct (contours s'); [done|]. simpl in *. lia.
    + destruct Hextra as [->|(x & -> & Hx & _)];
        [by apply elem_of_nil in Hs'|].
      apply list_elem_of_singleton in Hs' as ->. congruence.
  - destruct include_shading; [|by apply elem_of_nil in Hs].
    apply list_elem_of_singleton in Hs as ->. by simpl in Hname.
Qed.

Lemma phase_step_respects_filters_witness :
  (1 <= Z.of_nat (length (contours Samples.outline_step))
   <= max_contours Samples.primary_outline)%Z /\
  Forall (fun c => tier c ∈ tiers Samples.primary_outline /\
                   (min_importance Samples.primary_outline
                    <= importance_score c)%Q)
         (contours Samples.outline_step).
Proof.
  assert (Hs : Samples.outline_step
               ∈ plan_steps [Samples.outer_shape] true)
    by (apply list_elem_of_lookup; exists 1%nat; vm_compute; reflexivity).
  assert (Hp : Samples.primary_outline ∈ _PHASES) by by left.
  exact (phase_step_respects_filters _ _ _ _ Hs Hp eq_refl).
Defined.

Lemma total_as_length (steps : list DrawingStep) :
  total_contour_count steps = Z.of_nat (length (drawn_contours steps)).
Proof.
  unfold total_contour_count, drawn_contours.
  generalize (filter (fun s => is_shading_step s = false) steps) as l.
  assert (G : forall (l : list DrawingStep) acc,
    foldl Z.add acc (map (fun s => Z.of_nat (length (contours s))) l)
    = (acc + Z.of_nat (length (concat (map contours l))))%Z).
  { induction l as [|s l IH]; intros acc; simpl; [lia|].
    rewrite IH, length_app. lia. }
  intros l. by rewrite G.
Qed.

Lemma drawn_contours_plan cs include_shading :
  drawn_contours (plan_steps cs include_shading) ≡ₚ cs.
Proof.
  rewrite PlannerFacts.plan_steps_unfold. cbv zeta.
  pose proof (PlannerFacts.after_remaining_batches cs _
    (PlannerFacts.phases_inv cs _PHASES _ (PlannerFacts.plan_inv_init cs)))
    as [Hall Hp].
  set (st2 := after_remaining cs _) in *.
  assert (Hun : Forall (fun s => is_shading_step s = false) (steps st2)).
  { eapply Forall_impl; [exact Hall|]. by intros s [? _]. }
  change (grid_step :: ?l) with ([grid_step] ++ l).
  rewrite PlannerFacts.drawn_contours_app,
    PlannerFacts.drawn_contours_renumber. simpl.
  destruct include_shading.
  - rewrite PlannerFacts.drawn_contours_app,
      PlannerFacts.drawn_contours_unshaded by done.
    unfold drawn_contours. simpl. by rewrite app_nil_r.
  - by rewrite PlannerFacts.drawn_contours_unshaded.
Qed.

(** X1: [total_contour_count] of a plan is the number of input contours,
    with or without the shading step. *)
Theorem total_contour_count_plan cs include_shading :
  total_contour_count (plan_steps cs include_shading)
  = Z.of_nat (length cs).
Proof.
  rewrite total_as_length. f_equal.
  apply Permutation_length, drawn_contours_plan.
Qed.

Lemma lookup_numbers n i (z : Z) :
  (0%Z :: map (fun k => (Z.of_nat k + 2)%Z) (seq 0 n)) !! i = Some z ->
  z = if decide (i = 0%nat) then 0%Z else (Z.of_nat i + 1)%Z.
Proof.
  destruct i as [|j]; [by intros [= <-]|].
  rewrite lookup_cons. change (map ?f ?l) with (f <$> l).
  rewrite list_lookup_fmap.
  destruct (seq 0 n !! j) as [k|] eqn:Hk; [|done].
  apply lookup_seq in Hk as [-> _]. intros [= <-].
  destruct (decide (S j = 0%nat)); lia.
Qed.

Lemma step_number_at cs include_shading i s :
  plan_steps cs include_shading !! i = Some s ->
  step_number s = if decide (i = 0%nat) then 0%Z else (Z.of_nat i + 1)%Z.
Proof.
  intros Hi. eapply lookup_numbers.
  rewrite <- PlannerFacts.plan_steps_step_numbers.
  change (map step_number ?l) with (step_number <$> l).
  rewrite list_lookup_fmap, Hi. reflexivity.
Qed.

(** X2: the first step of a plan has step number 0 and the step at any
    later position [j] has step number [j + 1]; so the step numbers grow
    strictly along the plan and no two steps share one. *)
Theorem step_numbers_increase cs include_shading i j s t :
  plan_steps cs include_shading !! i = Some s ->
  plan_steps cs include_shading !! j = Some t ->
  i < j ->
  step_number s = (if decide (i = 0%nat) then 0%Z else (Z.of_nat i + 1)%Z) /\
  step_number t = (Z.of_nat j + 1)%Z /\
  (step_number s < step_number t)%Z.
Proof.
  intros Hi Hj Hlt.
  rewrite (step_number_at cs include_shading i s Hi).
  rewrite (step_number_at cs include_shading j t Hj).
  destruct (decide (i = 0%nat)), (decide (j = 0%nat)); lia.
Qed.

Lemma step_numbers_increase_witness :
  step_number StepPlanner.grid_step = 0%Z /\
  step_number Samples.outline_step = 2%Z /\
  (step_number StepPlanner.grid_step
   < step_number Samples.outline_step)%Z.
Proof.
  assert (H0 : plan_steps [Samples.outer_shape] true !! 0%nat
               = Some StepPlanner.grid_step) by (vm_compute; reflexivity).
  assert (H1 : plan_steps [Samples.outer_shape] true !! 1%nat
               = Some Samples.outline_step) by (vm_compute; reflexivity).
  exact (step_numbers_increase [Samples.outer_shape] true 0 1
           StepPlanner.grid_step Samples.outline_step H0 H1 (le_n 1)).
Defined.

End PlanStructure.

(** ** Step generator: what reaches the renderer *)

Module GenerationFacts.
Import ContourAnalyzer StepPlanner StepGenerator.

Section Session.

Variable format_02d : Z -> string.
Variable session_id : string.

(** The loop of [render_calls] is the first half of the whole loop. *)
Lemma generation_loop_calls primary steps : forall previous,
  map fst (generation_loop format_02d session_id primary steps previous)
  = render_loop primary steps previous.
Proof.
  induction steps as [|step rest IH]; intros previous; simpl; [done|].
  by rewrite IH.
Qed.

(** The [k]-th turn of the loop. *)
Lemma generation_loop_lookup primary steps : forall previous k call result,
  generation_loop format_02d session_id primary steps previous !! k
    = Some (call, result) ->
  exists step,
    steps !! k = Some step /\
    rc_step_number call = step_number step /\
    sr_step_number result = step_number step /\
    image_filename result
      = "step_" +:+ format_02d (step_number step) +:+ ".png" /\
    new_contours call = contours step /\
    previous_contours call
      = previous ++ concat (map contours (take k steps)) /\
    with_shading_mask call = is_shading_step step /\
    new_contour_count result = Z.of_nat (length (contours step)) /\
    total_contours_so_far result
      = Z.of_nat (length (previous
                          ++ concat (map contours (take (S k) steps)))).
Proof.
  induction steps as [|step rest IH]; intros previous k call result;
    [done|].
  destruct k as [|k]; cbn [generation_loop lookup list_lookup].
  - intros [= <- <-]. exists step. cbn.
    rewrite !app_nil_r, length_app. repeat split; lia.
  - intros Hk. destruct (IH _ _ _ _ Hk)
      as (s & Hs & ? & ? & ? & ? & Hprev & ? & ? & Htot).
    exists s. cbn [lookup list_lookup take map concat].
    rewrite Hprev, Htot, <- !app_assoc. by repeat split.
Qed.

Lemma generation_loop_length primary l : forall previous,
  length (generation_loop format_02d session_id primary l previous)
  = length l.
Proof.
  induction l as [|step rest IH]; intros previous; [reflexivity|].
  cbn [generation_loop length]. by rewrite IH.
Qed.

Lemma generation_loop_centroid primary l : forall previous j c r,
  generation_loop format_02d session_id primary l previous !! j
    = Some (c, r) ->
  start_centroid c = Some primary.
Proof.
  induction l as [|step rest IH]; intros previous j c r; [done|].
  destruct j as [|j]; cbn [generation_loop lookup list_lookup].
  - by intros [= <- <-].
  - apply IH.
Qed.

End Session.

Lemma batches_as_drawn (l : list DrawingStep) :
  Forall (fun s => is_shading_step s = true -> contours s = []) l ->
  concat (map contours l) = drawn_contours l.
Proof.
  unfold drawn_contours. induction 1 as [|s l Hs _ IH]; [done|].
  rewrite filter_cons. simpl. destruct (decide (is_shading_step s = false)).
  - simpl. by rewrite IH.
  - rewrite Hs by by destruct (is_shading_step s). by simpl.
Qed.

(** Every shading step of a plan has an empty batch, so the batches of
    all steps are the drawn contours. *)
Lemma all_batches_plan cs include_shading :
  concat (map contours (plan_steps cs include_shading)) ≡ₚ cs.
Proof.
  rewrite batches_as_drawn; [apply PlanStructure.drawn_contours_plan|].
  destruct (PlanStructure.plan_steps_body cs include_shading)
    as (st1 & extra & [Hall _] & Hextra & ->).
  constructor; [done|]. apply Forall_app. split.
  - apply Forall_fmap, Forall_app. split.
    + eapply Forall_impl; [exact Hall|].
      intros s (ph & _ & _ & Hn & _) Hs. simpl in Hs. congruence.
    + destruct Hextra as [->|(s & -> & _ & Hn & _)]; [constructor|].
      constructor; [|constructor]. intros Hs. simpl in Hs. congruence.
  - destruct include_shading; by repeat constructor.
Qed.

Lemma take_batches_le cs include_shading k :
  length (concat (map contours (take k (plan_steps cs include_shading))))
  <= length cs.
Proof.
  rewrite <- (Permutation_length (all_batches_plan cs include_shading)).
  rewrite <- (take_drop k (plan_steps cs include_shading)) at 2.
  rewrite map_app, concat_app, length_app. lia.
Qed.

Lemma append_length (a b : string) :
  String.length (a +:+ b) = String.length a + String.length b.
Proof. induction a as [|c a IH]; simpl; [done | by rewrite IH]. Qed.

Lemma append_inj_l (p x y : string) : p +:+ x = p +:+ y -> x = y.
Proof. induction p as [|c p IH]; simpl; [done|]. intros [= H]. auto. Qed.

Lemma append_inj_r (s : string) : forall x y : string,
  x +:+ s = y +:+ s -> x = y.
Proof.
  induction x as [|c x IH]; intros [|d y] H; simpl in H.
  - done.
  - apply (f_equal String.length) in H.
    rewrite !append_length in H. simpl in H.
    rewrite ?append_length in H. lia.
  - apply (f_equal String.length) in H.
    rewrite !append_length in H. simpl in H.
    rewrite ?append_length in H. lia.
  - injection H as -> H. f_equal. by apply IH.
Qed.

(** X5: in the [k]-th turn of the generator's loop the renderer gets the
    batch of the [k]-th planned step as new contours and the batches of
    all earlier steps as previous contours, and the tone mask exactly on
    a shading step; the step's result counts both, never more than the
    input holds, and the last result counts the whole input.  There is
    one result per planned step. *)
Theorem generation_is_cumulative
    (format_02d : Z -> string) session_id cs include_shading k call result :
  generation format_02d session_id cs include_shading !! k
    = Some (call, result) ->
  exists step,
    plan_steps cs include_shading !! k = Some step /\
    new_contours call = contours step /\
    previous_contours call
      = concat (map contours (take k (plan_steps cs include_shading))) /\
    with_shading_mask call = is_shading_step step /\
    new_contour_count result = Z.of_nat (length (new_contours call)) /\
    total_contours_so_far result
      = Z.of_nat (length (previous_contours call)
                  + length (new_contours call)) /\
    (total_contours_so_far result <= Z.of_nat (length cs))%Z /\
    (S k = length (plan_steps cs include_shading) ->
     total_contours_so_far result = Z.of_nat (length cs)) /\
    length (generation format_02d session_id cs include_shading)
      = length (plan_steps cs include_shading).
Proof.
  unfold generation. intros Hk.
  destruct (generation_loop_lookup _ _ _ _ _ _ _ _ Hk)
    as (step & Hs & _ & _ & _ & Hnew & Hprev & Hmask & Hcount & Htot).
  rewrite app_nil_l in Hprev, Htot. exists step.
  assert (Htake : take (S k) (plan_steps cs include_shading)
                  = take k (plan_steps cs include_shading) ++ [step])
    by by apply take_S_r.
  repeat split; try done.
  - by rewrite Hnew.
  - rewrite Htot, Hprev, Hnew, Htake, map_app, concat_app, length_app.
    simpl. by rewrite app_nil_r.
  - rewrite Htot. apply inj_le, take_batches_le.
  - intros Hlast. rewrite Htot, Hlast, firstn_all. f_equal.
    apply Permutation_length, all_batches_plan.
  - apply generation_loop_length.
Qed.

Lemma generation_is_cumulative_witness :
  exists step,
    plan_steps [Samples.outer_shape] true !! 1%nat = Some step /\
    new_contours (Samples.outline_generated).1 = contours step /\
    previous_contours (Samples.outline_generated).1
      = concat (map contours
                    (take 1 (plan_steps [Samples.outer_shape] true))) /\
    with_shading_mask (Samples.outline_generated).1
      = is_shading_step step /\
    new_contour_count (Samples.outline_generated).2
      = Z.of_nat (length (new_contours (Samples.outline_generated).1)) /\
    total_contours_so_far (Samples.outline_generated).2
      = Z.of_nat (length (previous_contours (Samples.outline_generated).1)
                  + length (new_contours (Samples.outline_generated).1)) /\
    (total_contours_so_far (Samples.outline_generated).2
     <= Z.of_nat (length [Samples.outer_shape]))%Z /\
    (2 = length (plan_steps [Samples.outer_shape] true) ->
     total_contours_so_far (Samples.outline_generated).2
     = Z.of_nat (length [Samples.outer_shape])) /\
    length (generation pretty "0123456789ab" [Samples.outer_shape] true)
      = length (plan_steps [Samples.outer_shape] true).
Proof.
  assert (Hk : generation pretty "0123456789ab" [Samples.outer_shape] true
               !! 1%nat
               = Some ((Samples.outline_generated).1,
                       (Samples.outline_generated).2))
    by (vm_compute; reflexivity).
  exact (generation_is_cumulative _ _ _ _ _ _ _ Hk).
Defined.

(** X6: the renderer draws the start marker on the image of the
    preparation step and on no other image of the session. *)
Theorem start_marker_on_first_image_only
    (format_02d : Z -> string) session_id cs include_shading k call result :
  generation format_02d session_id cs include_shading !! k
    = Some (call, result) ->
  draws_start_marker call = bool_decide (k = 0%nat) /\
  start_centroid call
    = Some (match cs with
            | [] => (5 # 10, 5 # 10)
            | c :: _ => centroid c
            end).
Proof.
  unfold generation. intros Hk.
  pose proof (generation_loop_centroid _ _ _ _ _ _ _ _ Hk) as Hstart.
  destruct (generation_loop_lookup _ _ _ _ _ _ _ _ Hk)
    as (step & Hs & Hnum & _).
  apply PlanStructure.step_number_at in Hs.
  split; [|by rewrite Hstart; destruct cs].
  unfold draws_start_marker. rewrite Hstart, Hnum, Hs.
  destruct (decide (k = 0%nat)) as [->|Hne].
  - by rewrite bool_decide_eq_true_2.
  - rewrite bool_decide_eq_false_2 by done. apply Z.leb_gt. lia.
Qed.

Lemma start_marker_on_first_image_only_witness :
  draws_start_marker (Samples.outline_generated).1
    = bool_decide (1%nat = 0%nat) /\
  start_centroid (Samples.outline_generated).1
    = Some (ContourAnalyzer.centroid Samples.outer_shape).
Proof.
  assert (Hk : generation pretty "0123456789ab" [Samples.outer_shape] true
               !! 1%nat
               = Some ((Samples.outline_generated).1,
                       (Samples.outline_generated).2))
    by (vm_compute; reflexivity).
  exact (start_marker_on_first_image_only _ _ _ _ _ _ _ Hk).
Defined.

(** X7: when the number format is injective, as every decimal format is,
    two different turns of the loop write to different file names. *)
Theorem step_images_have_distinct_names
    (format_02d : Z -> string) session_id cs include_shading
    i j call_i result_i call_j result_j :
  (forall a b, format_02d a = format_02d b -> a = b) ->
  generation format_02d session_id cs include_shading !! i
    = Some (call_i, result_i) ->
  generation format_02d session_id cs include_shading !! j
    = Some (call_j, result_j) ->
  i <> j ->
  image_filename result_i <> image_filename result_j.
Proof.
  unfold generation. intros Hinj Hi Hj Hne.
  destruct (generation_loop_lookup _ _ _ _ _ _ _ _ Hi)
    as (si & Hsi & _ & _ & -> & _).
  destruct (generation_loop_lookup _ _ _ _ _ _ _ _ Hj)
    as (sj & Hsj & _ & _ & -> & _).
  apply PlanStructure.step_number_at in Hsi, Hsj.
  intros Heq. apply append_inj_l in Heq. apply append_inj_r in Heq.
  apply Hinj in Heq. rewrite Hsi, Hsj in Heq.
  destruct (decide (i = 0%nat)), (decide (j = 0%nat)); lia.
Qed.

Lemma step_images_have_distinct_names_witness :
  image_filename (Samples.preparation_generated).2
    <> image_filename (Samples.outline_generated).2.
Proof.
  assert (H0 : generation pretty "0123456789ab" [Samples.outer_shape] true
               !! 0%nat
               = Some ((Samples.preparation_generated).1,
                       (Samples.preparation_generated).2))
    by (vm_compute; reflexivity).
  assert (H1 : generation pretty "0123456789ab" [Samples.outer_shape] true
               !! 1%nat
               = Some ((Samples.outline_generated).1,
                       (Samples.outline_generated).2))
    by (vm_compute; reflexivity).
  assert (Hinj : forall a b : Z, pretty a = pretty b -> a = b)
    by (intros a b; apply pretty_Z_inj).
  exact (step_images_have_distinct_names _ _ _ _ _ _ _ _ _ _
           Hinj H0 H1 (O_S 0)).
Defined.

End GenerationFacts.

(** ** Contour analyzer: depth, filter and ranges *)

Module AnalyzerMore.
Import ContourAnalyzer.

(** Starting the count [k] higher ends [k] higher. *)
Lemma depth_walk_shift fuel hierarchy k : forall current d,
  depth_walk fuel hierarchy current (d + k)
  = (fun r => (r + k)%Z) <$> depth_walk fuel hierarchy current d.
Proof.
  induction fuel as [|fuel IH]; intros current d; [done|].
  cbn [depth_walk].
  destruct (np_index hierarchy current) as [parent|]; [|done].
  cbn [mbind option_bind]. destruct (parent =? -1)%Z; [done|].
  replace (d + k + 1)%Z with (d + 1 + k)%Z by lia. apply IH.
Qed.

Lemma depth_walk_fuel_le hierarchy current d r : forall fuel fuel',
  fuel <= fuel' ->
  depth_walk fuel hierarchy current d = Some r ->
  depth_walk fuel' hierarchy current d = Some r.
Proof.
  intros fuel fuel' Hle. induction Hle as [|fuel' _ IH]; [done|].
  intros H. by apply AnalyzerFacts.depth_walk_more_fuel, IH.
Qed.

(** X8: a contour without parent has depth 0, and the depth of any other
    contour is one more than the depth of its parent. *)
Theorem depth_follows_parent_links hierarchy idx parent :
  np_index hierarchy idx = Some parent ->
  (parent = (-1)%Z -> _compute_depth hierarchy idx = Some 0%Z) /\
  (parent <> (-1)%Z ->
   forall d, _compute_depth hierarchy idx = Some d ->
             _compute_depth hierarchy parent = Some (d - 1)%Z).
Proof.
  intros Hp. unfold _compute_depth. cbn [depth_walk]. rewrite Hp.
  cbn [mbind option_bind]. split.
  - intros ->. reflexivity.
  - intros Hne d Hd.
    destruct (Z.eqb_spec parent (-1)) as [|_]; [done|].
    change (0 + 1)%Z with (1 + 0)%Z in Hd.
    rewrite Z.add_comm, depth_walk_shift in Hd.
    apply (depth_walk_fuel_le _ _ _ _ (length hierarchy)
             (S (length hierarchy))); [lia|].
    destruct (depth_walk (length hierarchy) hierarchy parent 0) as [e|];
      [|done].
    injection Hd as <-. f_equal. lia.
Qed.

Lemma depth_follows_parent_links_witness :
  _compute_depth Samples.hierarchy_squares 3 = Some (3 - 1)%Z.
Proof.
  exact (proj2 (depth_follows_parent_links Samples.hierarchy_squares 4 3
                  eq_refl) ltac:(discriminate) 3%Z eq_refl).
Defined.

(** What [analyze_one] writes into the fields. *)
Lemma analyze_one_fields h w hierarchy idx contour c :
  analyze_one h w hierarchy idx contour = Some c ->
  (h * w)%Z <> 0%Z /\ w <> 0%Z /\ h <> 0%Z /\
  area c = (contourArea contour / inject_Z (h * w))%Q /\
  perimeter c = (arcLength contour / inject_Z (Z.max w h))%Q /\
  points_normalised c
    = map (fun p => (inject_Z p.1 / inject_Z w,
                     inject_Z p.2 / inject_Z h)%Q) (pixels contour) /\
  (0 <= depth c)%Z /\
  importance_score c = importance_of (depth c) (area c) (perimeter c).
Proof.
  unfold analyze_one. intros H.
  assert (Hdiv : forall x y q, Py.div x y = Some q ->
                               ~ (y == 0)%Q /\ q = (x / y)%Q).
  { intros x y q. unfold Py.div.
    destruct (Qeq_bool y 0) eqn:E; [done|]. intros [= <-].
    split; [|done]. intros Hy. apply Qeq_bool_iff in Hy. congruence. }
  assert (Hz : forall z : Z, ~ (inject_Z z == 0)%Q -> z <> 0%Z).
  { intros z Hq ->. by apply Hq. }
  destruct (_compute_depth hierarchy idx) as [d|] eqn:Ed; simpl in H;
    [|done].
  destruct (np_index hierarchy idx); simpl in H; [|done].
  destruct (Py.div (contourArea contour) _) eqn:Ea; simpl in H; [|done].
  destruct (Py.div (arcLength contour) _) eqn:Ep; simpl in H; [|done].
  destruct (_compute_centroid contour); simpl in H; [|done].
  destruct (Py.div _ (inject_Z w)) eqn:Ew; simpl in H; [|done].
  destruct (Py.div _ (inject_Z h)) eqn:Eh; simpl in H; [|done].
  injection H as <-. simpl.
  apply Hdiv in Ea as [Ha ->], Ep as [_ ->], Ew as [Hw _], Eh as [Hh _].
  apply AnalyzerFacts.depth_walk_ge in Ed.
  repeat split; auto.
Qed.

(** The loop keeps the contours that pass the noise check, in their
    order, and records each of them. *)
Lemma analyze_loop_kept h w hierarchy m found :
  forall idx analyzed result,
    analyze_loop h w hierarchy m idx found analyzed = Some result ->
    exists recorded,
      result = analyzed ++ recorded /\
      Forall2 (records h w hierarchy) (kept m found) recorded.
Proof.
  induction found as [|contour rest IH]; intros idx analyzed result;
    cbn [analyze_loop kept List.filter].
  - intros [= <-]. exists []. by rewrite app_nil_r.
  - destruct (Py.Qltb (contourArea contour) m); cbn [negb]; [apply IH|].
    destruct (analyze_one h w hierarchy idx contour) as [c|] eqn:E;
      cbn [mbind option_bind]; [|done].
    intros H. destruct (IH _ _ _ H) as (recorded & -> & HF).
    exists (c :: recorded). rewrite <- app_assoc. split; [done|].
    constructor; [by exists idx | done].
Qed.

Lemma analyzed_in_order_kept h w found hierarchy maf extracted :
  analyzed_in_order h w found hierarchy maf = Some extracted ->
  extracted = [] \/
  exists hier,
    hierarchy = Some hier /\
    Forall2 (records h w hier)
            (kept (inject_Z (h * w) * maf) found) extracted.
Proof.
  unfold analyzed_in_order.
  destruct hierarchy as [hier|]; [|intros [= <-]; by left].
  destruct found as [|contour rest]; [intros [= <-]; by left|].
  intros H. apply analyze_loop_kept in H as (recorded & -> & HF).
  right. by exists hier.
Qed.

Lemma analyzed_with_hierarchy_kept h w found hier maf extracted :
  analyzed_in_order h w found (Some hier) maf = Some extracted ->
  Forall2 (records h w hier)
          (kept (inject_Z (h * w) * maf) found) extracted.
Proof.
  unfold analyzed_in_order.
  destruct found as [|contour rest]; [intros [= <-]; constructor|].
  intros H. by apply analyze_loop_kept in H as (recorded & -> & HF).
Qed.

(** A property of the recorded contours that follows from the found ones
    holds for all that [analyze_contours] returns. *)
Lemma analyze_contours_Forall (P : FoundContour -> Prop)
    (R : AnalyzedContour -> Prop) h w found hierarchy maf result :
  (forall hier contour c,
     P contour ->
     Py.Qltb (contourArea contour) (inject_Z (h * w) * maf) = false ->
     records h w hier contour c -> R c) ->
  Forall P found ->
  analyze_contours h w found hierarchy maf = Some result ->
  Forall R result.
Proof.
  intros HPR HP. unfold analyze_contours.
  destruct (analyzed_in_order h w found hierarchy maf) as [extracted|]
    eqn:E; [|done].
  intros [= <-]. rewrite AnalyzerFacts.sort_by_importance_perm.
  apply analyzed_in_order_kept in E as [->|(hier & _ & HF)]; [constructor|].
  assert (Hk : Forall (fun contour =>
    P contour /\
    Py.Qltb (contourArea contour) (inject_Z (h * w) * maf) = false)
    (kept (inject_Z (h * w) * maf) found)).
  { unfold kept. apply List.Forall_forall. intros contour Hin.
    apply List.filter_In in Hin as [Hin Hkeep].
    rewrite List.Forall_forall in HP. split; [by apply HP|].
    by apply negb_true_iff in Hkeep. }
  clear HP. induction HF as [|contour c ks cs Hrec _ IH]; [constructor|].
  apply Forall_cons in Hk as [[HPc Hkeep] Hk].
  constructor; [by eapply HPR | by apply IH].
Qed.

Lemma positive_sides (h w : Z) :
  (0 <= h)%Z -> (0 <= w)%Z -> (h * w)%Z <> 0%Z ->
  (0 < inject_Z h)%Q /\ (0 < inject_Z w)%Q /\ (0 < inject_Z (h * w))%Q /\
  (0 < inject_Z (Z.max w h))%Q.
Proof.
  intros Hh Hw Hhw. change 0%Q with (inject_Z 0).
  rewrite <- !Zlt_Qlt. nia.
Qed.

Lemma div_nonneg (x y : Q) : (0 <= x)%Q -> (0 < y)%Q -> (0 <= x / y)%Q.
Proof.
  intros Hx Hy. apply Qle_shift_div_l; [done|]. by rewrite Qmult_0_l.
Qed.

(** The score formula stays between 0 and 1 on non-negative measures. *)
Lemma importance_of_range (d : Z) (a p : Q) :
  (0 <= d)%Z -> (0 <= a)%Q -> (0 <= p)%Q ->
  (0 <= importance_of d a p /\ importance_of d a p <= 1)%Q.
Proof.
  intros Hd Ha Hp. unfold importance_of.
  assert (Hdw : (0 <= inject_Z (Z.max 0 (5 - d)) / 5 /\
                 inject_Z (Z.max 0 (5 - d)) / 5 <= 1)%Q).
  { split.
    - apply div_nonneg; [|done]. change 0%Q with (inject_Z 0).
      rewrite <- Zle_Qle. lia.
    - apply Qle_shift_div_r; [done|]. rewrite Qmult_1_l.
      change 5%Q with (inject_Z 5). rewrite <- Zle_Qle. lia. }
  assert (Haw : (0 <= Qmin (a * 10) 1 /\ Qmin (a * 10) 1 <= 1)%Q).
  { split; [|apply Q.le_min_r]. apply Q.min_glb; [|done].
    apply Qmult_le_0_compat; done. }
  assert (Hsw : (0 <= Qmin (p * 2) 1 /\ Qmin (p * 2) 1 <= 1)%Q).
  { split; [|apply Q.le_min_r]. apply Q.min_glb; [|done].
    apply Qmult_le_0_compat; done. }
  generalize dependent (inject_Z (Z.max 0 (5 - d)) / 5)%Q.
  generalize dependent (Qmin (a * 10) 1).
  generalize dependent (Qmin (p * 2) 1).
  intros s Hs x Hx y Hy. split; lra.
Qed.

(** X9: when OpenCV reports no negative area or arc length, every
    importance score that [analyze_contours] returns lies between 0 and
    1. *)
Theorem scores_in_unit_interval h w found hierarchy maf result :
  (0 <= h)%Z -> (0 <= w)%Z ->
  Forall (fun contour => (0 <= contourArea contour)%Q /\
                         (0 <= arcLength contour)%Q) found ->
  analyze_contours h w found hierarchy maf = Some result ->
  Forall (fun c => (0 <= importance_score c /\ importance_score c <= 1)%Q)
         result.
Proof.
  intros Hh Hw. apply analyze_contours_Forall.
  intros hier contour c [Ha Hp] _ [idx Hrec].
  apply analyze_one_fields in Hrec
    as (Hhw & _ & _ & Earea & Eper & _ & Hd & ->).
  destruct (positive_sides h w Hh Hw Hhw) as (_ & _ & Hpos & Hmax).
  apply importance_of_range; [done| |].
  - rewrite Earea. by apply div_nonneg.
  - rewrite Eper. by apply div_nonneg.
Qed.

Lemma scores_in_unit_interval_witness :
  Forall (fun c => (0 <= importance_score c /\ importance_score c <= 1)%Q)
         Samples.analyzed_squares.
Proof.
  assert (Hm : Forall (fun contour => (0 <= contourArea contour)%Q /\
                                      (0 <= arcLength contour)%Q)
                      Samples.found_squares).
  { repeat match goal with |- Forall _ _ => constructor end;
      split; vm_compute; discriminate. }
  assert (Hr : analyze_contours 100 100 Samples.found_squares
                 (Some Samples.hierarchy_squares) (5 # 10000)
               = Some Samples.analyzed_squares)
    by (vm_compute; reflexivity).
  exact (scores_in_unit_interval 100 100 _ _ _ _
           ltac:(lia) ltac:(lia) Hm Hr).
Defined.

(** X10: with a hierarchy, [analyze_contours] returns one contour for
    each found contour whose pixel area is not below the noise floor, and
    the normalised area of each of them is at least
    [min_area_fraction]. *)
Theorem noise_contours_dropped h w found hier maf result :
  (0 <= h)%Z -> (0 <= w)%Z ->
  analyze_contours h w found (Some hier) maf = Some result ->
  length result = length (kept (inject_Z (h * w) * maf) found) /\
  Forall (fun c => (maf <= area c)%Q) result.
Proof.
  intros Hh Hw Hres. split.
  - unfold analyze_contours in Hres.
    destruct (analyzed_in_order h w found (Some hier) maf) as [extracted|]
      eqn:E; [|done].
    injection Hres as <-.
    rewrite AnalyzerFacts.sort_by_importance_perm.
    apply analyzed_with_hierarchy_kept in E.
    symmetry. by eapply Forall2_length.
  - revert Hres.
    apply (analyze_contours_Forall (fun _ => True)); [|by apply Forall_true].
    intros hier' contour c _ Hkeep [idx Hrec].
    apply analyze_one_fields in Hrec as (Hhw & _ & _ & -> & _).
    destruct (positive_sides h w Hh Hw Hhw) as (_ & _ & Hpos & _).
    apply PyFacts.Qltb_false in Hkeep.
    apply Qle_shift_div_l; [done|]. by rewrite Qmult_comm.
Qed.

Lemma noise_contours_dropped_witness :
  length Samples.analyzed_squares = 5 /\
  Forall (fun c => (5 # 10000 <= area c)%Q) Samples.analyzed_squares.
Proof.
  assert (Hr : analyze_contours 100 100 Samples.found_squares
                 (Some Samples.hierarchy_squares) (5 # 10000)
               = Some Samples.analyzed_squares)
    by (vm_compute; reflexivity).
  exact (noise_contours_dropped 100 100 _ _ _ _ ltac:(lia) ltac:(lia) Hr).
Defined.

(** X11: when the points of the found contours are pixel positions of
    the image, every normalised point of every returned contour lies in
    the unit square, below 1 in both coordinates. *)
Theorem normalised_points_in_unit_square h w found hierarchy maf result :
  Forall (fun contour => Forall (in_image w h) (pixels contour)) found ->
  analyze_contours h w found hierarchy maf = Some result ->
  Forall (fun c => Forall in_unit_square (points_normalised c)) result.
Proof.
  apply analyze_contours_Forall.
  intros hier contour c Hpx _ [idx Hrec].
  apply analyze_one_fields in Hrec as (_ & _ & _ & _ & _ & -> & _).
  apply Forall_map. eapply Forall_impl; [exact Hpx|].
  intros [x y] [[Hx0 Hx1] [Hy0 Hy1]]. simpl in *.
  assert (Hw : (0 < inject_Z w)%Q)
    by (change 0%Q with (inject_Z 0); rewrite <- Zlt_Qlt; lia).
  assert (Hh : (0 < inject_Z h)%Q)
    by (change 0%Q with (inject_Z 0); rewrite <- Zlt_Qlt; lia).
  repeat split; simpl.
  - apply div_nonneg; [|done]. change 0%Q with (inject_Z 0).
    by rewrite <- Zle_Qle.
  - apply Qlt_shift_div_r; [done|]. rewrite Qmult_1_l.
    by rewrite <- Zlt_Qlt.
  - apply div_nonneg; [|done]. change 0%Q with (inject_Z 0).
    by rewrite <- Zle_Qle.
  - apply Qlt_shift_div_r; [done|]. rewrite Qmult_1_l.
    by rewrite <- Zlt_Qlt.
Qed.

Lemma normalised_points_in_unit_square_witness :
  Forall (fun c => Forall in_unit_square (points_normalised c))
         Samples.analyzed_squares.
Proof.
  assert (Hpx : Forall (fun contour =>
                          Forall (in_image 100 100) (pixels contour))
                       Samples.found_squares).
  { repeat match goal with |- Forall _ _ => constructor end;
      unfold in_image; simpl; lia. }
  assert (Hr : analyze_contours 100 100 Samples.found_squares
                 (Some Samples.hierarchy_squares) (5 # 10000)
               = Some Samples.analyzed_squares)
    by (vm_compute; reflexivity).
  exact (normalised_points_in_unit_square 100 100 _ _ _ _ Hpx Hr).
Defined.

(** A contour whose ancestors all stand before it has a depth. *)
Lemma depth_walk_parents_first hierarchy :
  parents_first hierarchy ->
  forall i, i < length hierarchy ->
  forall d, is_Some (depth_walk (S i) hierarchy (Z.of_nat i) d).
Proof.
  intros Hpf i. induction i as [i IH] using lt_wf_ind. intros Hi d.
  cbn [depth_walk]. unfold np_index.
  destruct (Z.leb_spec 0 (Z.of_nat i)) as [_|]; [|lia].
  rewrite Nat2Z.id.
  destruct (lookup_lt_is_Some_2 hierarchy i Hi) as [p Hp].
  rewrite Hp. cbn [mbind option_bind].
  destruct (Z.eqb_spec p (-1)) as [|Hne]; [by eexists|].
  pose proof (Hpf i p Hp) as Hrange.
  assert (Hj : Z.to_nat p < i) by lia.
  destruct (IH (Z.to_nat p) Hj ltac:(lia) (d + 1)%Z) as [r Hr].
  rewrite Z2Nat.id in Hr by lia.
  exists r. revert Hr. apply depth_walk_fuel_le. lia.
Qed.

Lemma div_is_Some (x y : Q) : ~ (y == 0)%Q -> is_Some (Py.div x y).
Proof.
  intros Hy. unfold Py.div. destruct (Qeq_bool y 0) eqn:E; [|by eexists].
  by apply Qeq_bool_iff in E.
Qed.

Lemma compute_centroid_is_Some contour :
  has_centroid contour -> is_Some (_compute_centroid contour).
Proof.
  intros Hc. unfold _compute_centroid.
  destruct (Qeq_bool (m00 contour) 0) eqn:E.
  - destruct Hc as [Hm|Hp]; [by apply Qeq_bool_iff in E|].
    assert (Hn : ~ (inject_Z (Z.of_nat (length (pixels contour))) == 0)%Q).
    { change 0%Q with (inject_Z 0). rewrite inject_Z_injective.
      destruct (pixels contour); [done | simpl; lia]. }
    destruct (div_is_Some (Py.sum (map (fun p => inject_Z p.1)
                                       (pixels contour))) _ Hn) as [cx ->].
    destruct (div_is_Some (Py.sum (map (fun p => inject_Z p.2)
                                       (pixels contour))) _ Hn) as [cy ->].
    by eexists.
  - assert (Hn : ~ (m00 contour == 0)%Q).
    { intros Hq. apply Qeq_bool_iff in Hq. congruence. }
    destruct (div_is_Some (m10 contour) _ Hn) as [cx ->].
    destruct (div_is_Some (m01 contour) _ Hn) as [cy ->].
    by eexists.
Qed.

Lemma analyze_one_is_Some h w hierarchy (i : nat) contour :
  (0 < h)%Z -> (0 < w)%Z -> parents_first hierarchy ->
  i < length hierarchy -> has_centroid contour ->
  is_Some (analyze_one h w hierarchy (Z.of_nat i) contour).
Proof.
  intros Hh Hw Hpf Hi Hc. unfold analyze_one.
  assert (Hnz : forall z : Z, (0 < z)%Z -> ~ (inject_Z z == 0)%Q).
  { intros z Hz. change 0%Q with (inject_Z 0). rewrite inject_Z_injective.
    lia. }
  destruct (depth_walk_parents_first hierarchy Hpf i Hi 0%Z) as [d Hd].
  unfold _compute_depth.
  rewrite (depth_walk_fuel_le _ _ _ _ (S i) (S (length hierarchy))
             ltac:(lia) Hd).
  cbn [mbind option_bind].
  assert (Hidx : is_Some (np_index hierarchy (Z.of_nat i))).
  { unfold np_index. destruct (Z.leb_spec 0 (Z.of_nat i)); [|lia].
    rewrite Nat2Z.id. by apply lookup_lt_is_Some_2. }
  destruct Hidx as [p ->]. cbn [mbind option_bind].
  destruct (div_is_Some (contourArea contour) (inject_Z (h * w))
              (Hnz (h * w)%Z ltac:(nia))) as [a ->].
  cbn [mbind option_bind].
  destruct (div_is_Some (arcLength contour) (inject_Z (Z.max w h))
              (Hnz (Z.max w h) ltac:(lia))) as [q ->].
  cbn [mbind option_bind].
  destruct (compute_centroid_is_Some contour Hc) as [c_px ->].
  cbn [mbind option_bind].
  destruct (div_is_Some c_px.1 (inject_Z w) (Hnz _ Hw)) as [cx ->].
  cbn [mbind option_bind].
  destruct (div_is_Some c_px.2 (inject_Z h) (Hnz _ Hh)) as [cy ->].
  by eexists.
Qed.

Lemma analyze_loop_is_Some h w hierarchy m found :
  (0 < h)%Z -> (0 < w)%Z -> parents_first hierarchy ->
  Forall has_centroid found ->
  forall (i : nat) analyzed,
    i + length found <= length hierarchy ->
    is_Some (analyze_loop h w hierarchy m (Z.of_nat i) found analyzed).
Proof.
  intros Hh Hw Hpf HF.
  induction HF as [|contour rest Hc _ IH]; intros i analyzed Hlen;
    cbn [analyze_loop]; [by eexists|].
  simpl in Hlen.
  replace (Z.of_nat i + 1)%Z with (Z.of_nat (S i)) by lia.
  destruct (Py.Qltb (contourArea contour) m); [apply IH; lia|].
  destruct (analyze_one_is_Some h w hierarchy i contour Hh Hw Hpf
              ltac:(lia) Hc) as [c ->].
  cbn [mbind option_bind]. apply IH. lia.
Qed.

(** X12: on an image with a positive height and width, with one
    hierarchy entry per contour, every parent entry [-1] or the position
    of an earlier contour, and every contour with a non-zero area moment
    or at least one point, [analyze_contours] returns a list: it raises
    no error and no parent walk runs forever. *)
Theorem analyze_contours_returns h w found hier maf :
  (0 < h)%Z -> (0 < w)%Z ->
  length hier = length found ->
  parents_first hier ->
  Forall has_centroid found ->
  exists result, analyze_contours h w found (Some hier) maf = Some result.
Proof.
  intros Hh Hw Hlen Hpf HF. unfold analyze_contours, analyzed_in_order.
  destruct (analyze_loop_is_Some h w hier
              (inject_Z (h * w) * maf) found Hh Hw Hpf HF 0 []
              ltac:(lia)) as [extracted Hloop].
  change (Z.of_nat 0) with 0%Z in Hloop.
  destruct found as [|contour rest]; [by eexists|].
  rewrite Hloop. by eexists.
Qed.

Lemma analyze_contours_returns_witness :
  exists result,
    analyze_contours 100 100 Samples.found_squares
                     (Some Samples.hierarchy_squares) (5 # 10000)
    = Some result.
Proof.
  assert (Hpf : parents_first Samples.hierarchy_squares).
  { intros i p.
    do 6 (destruct i as [|i]; [intros [= <-]; simpl; lia|]). done. }
  assert (HF : Forall has_centroid Samples.found_squares).
  { repeat match goal with |- Forall _ _ => constructor end;
      left; vm_compute; discriminate. }
  assert (Hlen : length Samples.hierarchy_squares
                 = length Samples.found_squares) by reflexivity.
  exact (analyze_contours_returns 100 100 _ _ (5 # 10000)
           ltac:(lia) ltac:(lia) Hlen Hpf HF).
Defined.
End AnalyzerMore.

(** ** Rounding *)

Module RoundFacts.

Lemma round_half_even_floor x :
  (Qfloor x <= Py.round_half_even x <= Qfloor x + 1)%Z.
Proof.
  unfold Py.round_half_even.
  destruct (x - inject_Z (Qfloor x) ?= 1 # 2)%Q; [|lia..].
  destruct (Z.even (Qfloor x)); lia.
Qed.

(** Rounding to the nearest integer keeps the order. *)
Lemma round_half_even_mono x y :
  (x <= y)%Q -> (Py.round_half_even x <= Py.round_half_even y)%Z.
Proof.
  intros Hxy. pose proof (Qfloor_resp_le x y Hxy) as Hf.
  destruct (Z.eq_dec (Qfloor x) (Qfloor y)) as [E|Hne].
  - unfold Py.round_half_even. rewrite <- E.
    destruct (Qcompare_spec (x - inject_Z (Qfloor x)) (1 # 2)) as [Hx|Hx|Hx];
    destruct (Qcompare_spec (y - inject_Z (Qfloor x)) (1 # 2)) as [Hy|Hy|Hy];
      try destruct (Z.even (Qfloor x)); try lia; lra.
  - pose proof (round_half_even_floor x). pose proof (round_half_even_floor y).
    lia.
Qed.

Lemma round_half_even_Z (n : Z) : Py.round_half_even (inject_Z n) = n.
Proof.
  unfold Py.round_half_even. rewrite Qfloor_Z.
  destruct (Qcompare_spec (inject_Z n - inject_Z n) (1 # 2)) as [H|H|H];
    [lra | done | lra].
Qed.

Lemma scale_positive (ndigits : nat) :
  (0 < inject_Z (10 ^ Z.of_nat ndigits))%Q.
Proof.
  change 0%Q with (inject_Z 0). rewrite <- Zlt_Qlt.
  apply Z.pow_pos_nonneg; lia.
Qed.

(** [round(x, ndigits)] keeps the order. *)
Lemma round_mono x y ndigits :
  (x <= y)%Q -> (Py.round x ndigits <= Py.round y ndigits)%Q.
Proof.
  intros Hxy. unfold Py.round.
  pose proof (scale_positive ndigits) as Hs.
  apply Qmult_le_compat_r; [|apply Qlt_le_weak, Qinv_lt_0_compat, Hs].
  rewrite <- Zle_Qle. apply round_half_even_mono.
  apply Qmult_le_compat_r; [done | by apply Qlt_le_weak].
Qed.

(** [round] takes equal rationals to equal rationals. *)
Lemma round_proper x y ndigits :
  (x == y)%Q -> (Py.round x ndigits == Py.round y ndigits)%Q.
Proof.
  intros Hxy. apply Qle_antisym; apply round_mono; rewrite Hxy;
    apply Qle_refl.
Qed.

(** An integer is not changed by [round]. *)
Lemma round_Z (n : Z) ndigits : (Py.round (inject_Z n) ndigits == inject_Z n)%Q.
Proof.
  unfold Py.round. pose proof (scale_positive ndigits) as Hs.
  rewrite <- inject_Z_mult, round_half_even_Z, inject_Z_mult.
  field. intros H. rewrite H in Hs. by apply Qlt_irrefl in Hs.
Qed.

(** Rounding does not leave an interval with integer ends. *)
Lemma round_between (a b : Z) x ndigits :
  (inject_Z a <= x)%Q -> (x <= inject_Z b)%Q ->
  (inject_Z a <= Py.round x ndigits)%Q /\
  (Py.round x ndigits <= inject_Z b)%Q.
Proof.
  intros Ha Hb. split.
  - rewrite <- (round_Z a ndigits). by apply round_mono.
  - rewrite <- (round_Z b ndigits). by apply round_mono.
Qed.

(** [round] of a rational that equals an integer. *)
Lemma round_of_Z x (n : Z) ndigits :
  (x == inject_Z n)%Q -> (Py.round x ndigits == inject_Z n)%Q.
Proof.
  intros Hx. rewrite (round_proper x (inject_Z n) ndigits Hx).
  apply round_Z.
Qed.

End RoundFacts.

(** ** Tone mask with any band table, and the summary's range *)

Module ToneMore.
Import ToneMapper.

Lemma pixel_after_snoc bands band start p :
  pixel_after (bands ++ [band]) start p
  = (let '(label, low, high, val) := band in
     if (low <=? p)%Z && (p <=? high)%Z then val
     else pixel_after bands start p).
Proof. unfold pixel_after. rewrite foldl_app. by destruct band as [[[? ?] ?] ?]. Qed.

Lemma filter_snoc {A} (f : A -> bool) l x :
  List.filter f (l ++ [x])
  = List.filter f l ++ (if f x then [x] else []).
Proof. by rewrite List.filter_app. Qed.

(** After all the bands a pixel carries the value of the last band that
    holds it. *)
Lemma pixel_after_last bands p :
  pixel_after bands 2 p = last_band_value bands p.
Proof.
  induction bands as [|band bands IH] using rev_ind; [done|].
  rewrite pixel_after_snoc. unfold last_band_value.
  rewrite filter_snoc. destruct band as [[[label low] high] val].
  cbn [holds]. destruct ((low <=? p)%Z && (p <=? high)%Z).
  - by rewrite last_snoc.
  - by rewrite app_nil_r.
Qed.

(** X13: with a band table of the caller's, overlapping or with gaps,
    whose mask values the uint8 mask can hold, every pixel of the tone
    mask carries the value of the last band of the table whose range
    holds the smoothed pixel, and 2 when no band holds it; the mask has
    the shape of the smoothed image. *)
Theorem last_band_wins
    (GaussianBlur : image -> Z -> image) grayscale bands blur_ksize :
  Forall uint8_value bands ->
  generate_tone_mask GaussianBlur grayscale (Some bands) blur_ksize
  = map (map (last_band_value bands)) (GaussianBlur grayscale blur_ksize).
Proof.
  intros _. unfold generate_tone_mask. cbn [default].
  rewrite ToneFacts.mask_of_smoothed_pointwise.
  apply map_ext. intros row. apply map_ext. intros p.
  apply pixel_after_last.
Qed.

Lemma last_band_wins_witness :
  generate_tone_mask Samples.no_blur [[50; 110; 250]]%Z
                     (Some Samples.overlapping_bands) 7
  = [[0; 1; 2]]%Z.
Proof.
  assert (Hb : Forall uint8_value Samples.overlapping_bands).
  { repeat match goal with |- Forall _ _ => constructor end;
      unfold uint8_value; cbn [snd]; lia. }
  exact (last_band_wins Samples.no_blur [[50; 110; 250]]%Z
           Samples.overlapping_bands 7 Hb).
Defined.

Lemma count_le_size (m : image) (v : Z) :
  (0 <= count_equal m v <= size m)%Z.
Proof.
  unfold count_equal, size. split; [lia|].
  apply inj_le, length_filter.
Qed.

Lemma percentage_range (count total : Z) :
  (0 <= count <= total)%Z -> (0 < total)%Z ->
  exists q, percentage count total = Some q /\ percent q.
Proof.
  intros Hc Ht. unfold percentage.
  rewrite ToneFacts.div_nonzero by lia. cbn [mbind option_bind].
  eexists. split; [done|].
  assert (Hpos : (0 < inject_Z total)%Q)
    by (change 0%Q with (inject_Z 0); by rewrite <- Zlt_Qlt).
  apply (RoundFacts.round_between 0 100).
  - apply Qmult_le_0_compat; [|done].
    apply Qle_shift_div_l; [done|]. rewrite Qmult_0_l.
    change 0%Q with (inject_Z 0). rewrite <- Zle_Qle. lia.
  - change (inject_Z 100) with (1 * 100)%Q.
    apply Qmult_le_compat_r; [|done].
    apply Qle_shift_div_r; [done|]. rewrite Qmult_1_l.
    rewrite <- Zle_Qle. lia.
Qed.

(** X14: on a mask with at least one pixel, whatever its values,
    [tone_summary] returns three percentages between 0 and 100; on a mask
    without pixels it raises [ZeroDivisionError]. *)
Theorem tone_summary_percentages (m : image) :
  match tone_summary m with
  | Some (deep_shadow, mid_tone, highlight) =>
    concat m <> [] /\
    percent deep_shadow /\ percent mid_tone /\ percent highlight
  | None => concat m = []
  end.
Proof.
  unfold tone_summary.
  destruct (decide (concat m = [])) as [E|Hne].
  - unfold percentage, size. rewrite E. simpl. done.
  - assert (Ht : (0 < size m)%Z).
    { unfold size. destruct (concat m); [done | simpl; lia]. }
    destruct (percentage_range _ _ (count_le_size m 0) Ht) as (d & -> & Hd).
    destruct (percentage_range _ _ (count_le_size m 1) Ht) as (t & -> & Hm).
    destruct (percentage_range _ _ (count_le_size m 2) Ht) as (l & -> & Hl).
    cbn [mbind option_bind]. done.
Qed.

End ToneMore.

(** ** Shading regions: identifiers, noise floor and boxes *)

Module ShadingMore.
Import ToneMapper ShadingMapper.

Lemma ids_from_app first n m :
  ids_from first (n + m)
  = ids_from first n ++ ids_from (first + Z.of_nat n) m.
Proof.
  unfold ids_from. rewrite seq_app, map_app. f_equal.
  rewrite Nat.add_0_l, <- (Nat.add_0_r n) at 1.
  rewrite <- (fmap_add_seq n 0 m), <- list_fmap_compose.
  apply map_ext. intros k. simpl. lia.
Qed.

Lemma regions_loop_spec h w label low high offset stats :
  forall regions result,
    regions_loop h w label low high offset stats regions = Some result ->
    exists new,
      result = regions ++ new /\
      map region_id new
      = ids_from (offset + Z.of_nat (length regions)) (length new) /\
      Forall (fun r => exists st, st ∈ stats /\
                                  region_of h w (label, low, high) st r) new.
Proof.
  induction stats as [|st rest IH]; intros regions result;
    cbn [regions_loop].
  - intros [= <-]. exists []. by rewrite app_nil_r.
  - destruct (Py.Qltb _ _) eqn:Enoise.
    + intros H. destruct (IH _ _ H) as (new & -> & Hids & HF).
      exists new. repeat split; [done|].
      eapply Forall_impl; [exact HF|]. intros r (st' & Hin & Hr).
      exists st'. split; [by right | done].
    + unfold Py.div.
      destruct (Qeq_bool (inject_Z w) 0) eqn:Ew; cbn [mbind option_bind];
        [done|].
      destruct (Qeq_bool (inject_Z h) 0) eqn:Eh; cbn [mbind option_bind];
        [done|].
      intros H. destruct (IH _ _ H) as (new & -> & Hids & HF).
      rewrite length_app in Hids. simpl in Hids.
      eexists (_ :: new). rewrite <- app_assoc. split; [done|]. split.
      * cbn [map length]. change (S (length new)) with (1 + length new).
        rewrite ids_from_app. cbn [region_id]. simpl. f_equal.
        -- lia.
        -- rewrite Hids. f_equal. lia.
      * constructor.
        -- exists st. split; [by left|].
           apply PyFacts.Qltb_false in Enoise.
           repeat split; simpl; try done.
           ++ intros ->. discriminate Eh.
           ++ intros ->. discriminate Ew.
        -- eapply Forall_impl; [exact HF|]. intros r (st' & Hin & Hr).
           exists st'. split; [by right | done].
Qed.

Section Components.
Variable connectedComponentsWithStats : image -> list Stats.

Lemma bands_loop_spec gray all_bands bands :
  forall all_regions offset result,
    bands_loop connectedComponentsWithStats gray bands all_regions offset
    = Some result ->
    (forall band, band ∈ bands -> band ∈ all_bands) ->
    offset = Z.of_nat (length all_regions) ->
    map region_id all_regions = ids_from 0 (length all_regions) ->
    Forall (recorded connectedComponentsWithStats gray all_bands) all_regions ->
    map region_id result = ids_from 0 (length result) /\
    Forall (recorded connectedComponentsWithStats gray all_bands) result.
Proof.
  induction bands as [|[[label low] high] rest IH];
    intros all_regions offset result; cbn [bands_loop].
  - intros [= <-]. done.
  - unfold _regions_for_band.
    destruct (regions_loop _ _ _ _ _ _ _ _) as [regions|] eqn:E; [|done].
    cbn [mbind option_bind]. intros H Hsub Hoff Hids HF.
    apply regions_loop_spec in E as (new & E & Hnew & HFnew).
    rewrite app_nil_l in E. subst regions. simpl in Hnew.
    apply (IH _ _ _ H).
    + intros band Hin. apply Hsub. by right.
    + rewrite length_app. lia.
    + rewrite map_app, length_app, ids_from_app, Hids, Hnew. f_equal.
      f_equal. lia.
    + apply Forall_app. split; [done|].
      eapply Forall_impl; [exact HFnew|]. intros r (st & Hin & Hr).
      exists (label, low, high), st. split; [apply Hsub; by left|].
      split; [exact Hin | exact Hr].
Qed.

Lemma map_shading_spec gray bands result :
  map_shading connectedComponentsWithStats gray bands = Some result ->
  map region_id result = ids_from 0 (length result) /\
  Forall (recorded connectedComponentsWithStats gray (default DEFAULT_BANDS bands)) result.
Proof.
  unfold map_shading. intros H.
  by apply (bands_loop_spec gray _ _ _ _ _ H).
Qed.

End Components.

(** X15: the regions that [map_shading] returns carry the identifiers
    0, 1, 2, ... in the order of the list, whatever components the finder
    reports and whatever band table is used. *)
Theorem region_ids_are_positions
    (connectedComponentsWithStats : image -> list Stats)
    gray bands result :
  map_shading connectedComponentsWithStats gray bands = Some result ->
  forall (k : nat) r,
    result !! k = Some r -> region_id r = Z.of_nat k.
Proof.
  intros H k r Hk.
  apply map_shading_spec in H as [Hids _].
  assert (Hm : map region_id result !! k = Some (region_id r))
    by (by rewrite list_lookup_fmap, Hk).
  rewrite Hids in Hm. unfold ids_from in Hm.
  rewrite list_lookup_fmap in Hm.
  destruct (seq 0 (length result) !! k) as [j|] eqn:Ej; [|done].
  apply lookup_seq in Ej as [-> _]. simpl in Hm. injection Hm as <-. lia.
Qed.

Lemma region_ids_are_positions_witness :
  region_id Samples.mid_tone_region = Z.of_nat 0.
Proof.
  assert (Hr : map_shading Samples.one_pixel_components [[70]]%Z None
               = Some Samples.one_pixel_regions)
    by (vm_compute; reflexivity).
  assert (Hk : Samples.one_pixel_regions !! 0 = Some Samples.mid_tone_region)
    by reflexivity.
  exact (region_ids_are_positions _ _ _ _ Hr 0 _ Hk).
Defined.

(** X16: every region that [map_shading] returns comes from a component
    of at least a thousandth of the image's pixels, and carries the label
    and the intensity range of one band of the table in use. *)
Theorem regions_pass_noise_floor
    (connectedComponentsWithStats : image -> list Stats)
    gray bands result :
  map_shading connectedComponentsWithStats gray bands = Some result ->
  Forall (fun r =>
            (height gray * width gray <= 1000 * pixel_count r)%Z /\
            exists low high,
              (label r, low, high) ∈ default DEFAULT_BANDS bands /\
              intensity_range r = (inject_Z low, inject_Z high))
         result.
Proof.
  intros H. apply map_shading_spec in H as [_ HF].
  eapply Forall_impl; [exact HF|].
  intros r ([[lbl low] high] & st & Hband & _ & Hr).
  destruct Hr as (Hl & Hi & Hp & Hnoise & _). simpl in Hl, Hi.
  split.
  - rewrite Hp, Zle_Qle, (inject_Z_mult 1000).
    change (inject_Z 1000) with 1000%Q.
    revert Hnoise.
    generalize (inject_Z (height gray * width gray))
               (inject_Z (CC_STAT_AREA st)).
    intros hw a Hn. lra.
  - exists low, high. by rewrite Hl.
Qed.

Lemma regions_pass_noise_floor_witness :
  Forall (fun r =>
            (1 * 1 <= 1000 * pixel_count r)%Z /\
            exists low high,
              (label r, low, high) ∈ DEFAULT_BANDS /\
              intensity_range r = (inject_Z low, inject_Z high))
    Samples.one_pixel_regions.
Proof.
  assert (Hr : map_shading Samples.one_pixel_components [[70]]%Z None
               = Some Samples.one_pixel_regions)
    by (vm_compute; reflexivity).
  exact (regions_pass_noise_floor _ _ _ _ Hr).
Defined.

Lemma regions_loop_is_Some h w label low high offset stats :
  h <> 0%Z -> w <> 0%Z ->
  forall regions,
    is_Some (regions_loop h w label low high offset stats regions).
Proof.
  intros Hh Hw.
  induction stats as [|st rest IH]; intros regions; cbn [regions_loop];
    [by eexists|].
  destruct (Py.Qltb _ _); [apply IH|].
  rewrite !ToneFacts.div_nonzero by done. cbn [mbind option_bind].
  apply IH.
Qed.

Lemma bands_loop_is_Some
    (connectedComponentsWithStats : image -> list Stats) gray bands :
  height gray <> 0%Z -> width gray <> 0%Z ->
  forall all_regions offset,
    is_Some (bands_loop connectedComponentsWithStats gray bands
                        all_regions offset).
Proof.
  intros Hh Hw.
  induction bands as [|[[label low] high] rest IH];
    intros all_regions offset; cbn [bands_loop]; [by eexists|].
  unfold _regions_for_band.
  destruct (regions_loop_is_Some (height gray) (width gray) label low high
              offset
              (connectedComponentsWithStats (inRange gray low high))
              Hh Hw []) as [regions Hr].
  unfold height, width in Hr. rewrite Hr. cbn [mbind option_bind].
  apply IH.
Qed.

Lemma unit_fraction (a b : Z) :
  (0 <= a <= b)%Z -> (0 < b)%Z ->
  (inject_Z 0 <= inject_Z a / inject_Z b)%Q /\
  (inject_Z a / inject_Z b <= inject_Z 1)%Q.
Proof.
  intros Ha Hb.
  assert (Hpos : (0 < inject_Z b)%Q)
    by (change 0%Q with (inject_Z 0); by rewrite <- Zlt_Qlt).
  split.
  - apply Qle_shift_div_l; [done|]. rewrite Qmult_0_l.
    change 0%Q with (inject_Z 0). rewrite <- Zle_Qle. lia.
  - apply Qle_shift_div_r; [done|]. rewrite Qmult_1_l.
    rewrite <- Zle_Qle. lia.
Qed.

Lemma fraction_mono (a a' b : Z) :
  (a <= a')%Z -> (0 < b)%Z ->
  (inject_Z a / inject_Z b <= inject_Z a' / inject_Z b)%Q.
Proof.
  intros Ha Hb.
  assert (Hpos : (0 < inject_Z b)%Q)
    by (change 0%Q with (inject_Z 0); by rewrite <- Zlt_Qlt).
  apply Qmult_le_compat_r; [by rewrite <- Zle_Qle|].
  by apply Qlt_le_weak, Qinv_lt_0_compat.
Qed.

Lemma rounded_fraction_range (a b : Z) ndigits :
  (0 <= a <= b)%Z -> (0 < b)%Z ->
  (0 <= Py.round (inject_Z a / inject_Z b) ndigits)%Q /\
  (Py.round (inject_Z a / inject_Z b) ndigits <= 1)%Q.
Proof.
  intros Ha Hb. destruct (unit_fraction a b Ha Hb) as [Hlo Hhi].
  exact (RoundFacts.round_between 0 1 _ ndigits Hlo Hhi).
Qed.

(** X17: on an image with at least one row and one column, when the
    component finder reports boxes that lie in the image, [map_shading]
    returns a list (no division fails) and every bounding box in it lies
    in the unit square with its minimum corner before its maximum
    corner. *)
Theorem region_boxes_in_unit_square
    (connectedComponentsWithStats : image -> list Stats) gray bands :
  (0 < height gray)%Z -> (0 < width gray)%Z ->
  (forall mask,
     Forall (stats_in_image (width gray) (height gray))
            (connectedComponentsWithStats mask)) ->
  exists result,
    map_shading connectedComponentsWithStats gray bands = Some result /\
    Forall (fun r => box_in_unit_square (bounding_box r)) result.
Proof.
  intros Hh Hw Hcc.
  destruct (bands_loop_is_Some connectedComponentsWithStats gray
              (default DEFAULT_BANDS bands) ltac:(lia) ltac:(lia) [] 0%Z)
    as [result Hres].
  exists result. split; [exact Hres|].
  apply map_shading_spec in Hres as [_ HF].
  eapply Forall_impl; [exact HF|].
  intros r (band & st & _ & Hst & Hr).
  destruct Hr as (_ & _ & _ & _ & _ & _ & ->).
  pose proof (Hcc (inRange gray band.1.2 band.2)) as Hin.
  rewrite Forall_forall in Hin.
  destruct (Hin st Hst) as (Hl & Hcw & Hr & Ht & Hch & Hb).
  unfold box_in_unit_square. cbn [x_min x_max y_min y_max].
  repeat split.
  - apply rounded_fraction_range; lia.
  - apply RoundFacts.round_mono, fraction_mono; lia.
  - apply rounded_fraction_range; lia.
  - apply rounded_fraction_range; lia.
  - apply RoundFacts.round_mono, fraction_mono; lia.
  - apply rounded_fraction_range; lia.
Qed.

Lemma region_boxes_in_unit_square_witness :
  exists result,
    map_shading Samples.one_pixel_components [[70]]%Z None = Some result /\
    Forall (fun r => box_in_unit_square (bounding_box r)) result.
Proof.
  assert (Hcc : forall mask,
            Forall (stats_in_image (width [[70]]%Z) (height [[70]]%Z))
                   (Samples.one_pixel_components mask)).
  { intros mask. unfold Samples.one_pixel_components.
    destruct mask as [|[|v [|? ?]] [|? ?]]; try constructor.
    destruct (v =? 0)%Z; constructor; [|constructor].
    unfold stats_in_image, width, height. simpl. lia. }
  assert (Hh : (0 < height [[70]]%Z)%Z) by reflexivity.
  assert (Hw : (0 < width [[70]]%Z)%Z) by reflexivity.
  exact (region_boxes_in_unit_square Samples.one_pixel_components
           [[70]]%Z None Hh Hw Hcc).
Defined.

End ShadingMore.

(** ** Blueprint: range of the accuracy and the wireframe *)

Module BlueprintMore.
Import BlueprintEngine.

Lemma sum_from_bounds (l : list Q) :
  Forall (fun e => 0 <= e <= 1)%Q l ->
  forall a,
    (a <= foldl Qplus a l)%Q /\
    (foldl Qplus a l <= a + inject_Z (Z.of_nat (length l)))%Q.
Proof.
  induction 1 as [|e l [He0 He1] _ IH]; intros a.
  - cbn [foldl length]. change (inject_Z (Z.of_nat 0)) with 0%Q.
    split; lra.
  - cbn [foldl length]. destruct (IH (a + e)%Q) as [Hlo Hhi].
    rewrite Nat2Z.inj_succ, <- Z.add_1_l, inject_Z_plus.
    change (inject_Z 1) with 1%Q. split; lra.
Qed.

Lemma score_of_errors_range (errors : list Q) :
  Forall (fun e => 0 <= e <= 1)%Q errors ->
  (0 <= score_of_errors errors)%Q /\ (score_of_errors errors <= 100)%Q.
Proof.
  intros HF. destruct errors as [|e rest] eqn:E; [by split|].
  rewrite <- E in *. unfold score_of_errors.
  destruct errors as [|e' rest']; [done|]. clear E.
  destruct (sum_from_bounds _ HF 0%Q) as [Hlo Hhi].
  fold (Py.sum (e' :: rest')) in Hlo, Hhi.
  set (n := inject_Z (Z.of_nat (length (e' :: rest')))) in *.
  assert (Hn : (0 < n)%Q).
  { subst n. change 0%Q with (inject_Z 0). rewrite <- Zlt_Qlt.
    simpl. lia. }
  assert (Hm0 : (0 <= Py.sum (e' :: rest') / n)%Q).
  { apply Qle_shift_div_l; [done|]. by rewrite Qmult_0_l. }
  assert (Hm1 : (Py.sum (e' :: rest') / n <= 1)%Q).
  { apply Qle_shift_div_r; [done|]. rewrite Qmult_1_l.
    by rewrite Qplus_0_l in Hhi. }
  apply (RoundFacts.round_between 0 100).
  - change (inject_Z 0) with 0%Q. clearbody n.
    generalize dependent (Py.sum (e' :: rest') / n)%Q. intros m Hm0 Hm1. lra.
  - change (inject_Z 100) with 100%Q. clearbody n.
    generalize dependent (Py.sum (e' :: rest') / n)%Q. intros m Hm0 Hm1. lra.
Qed.

(** X18: for landmarks whose coordinates are numbers of a magnitude of
    at most 1e150 and for any square root, [_score_proportions] raises no
    error and its accuracy lies between 0 and 100. *)
Theorem proportion_accuracy_is_a_percentage (sqrt : Q -> Q) landmarks :
  Forall within_range landmarks ->
  exists accuracy,
    _score_proportions sqrt landmarks = Some accuracy /\
    (0 <= accuracy)%Q /\ (accuracy <= 100)%Q.
Proof.
  intros _. unfold _score_proportions.
  rewrite (BlueprintFacts.errors_loop_spec sqrt landmarks pairs
             BlueprintFacts.pairs_key_ok []).
  rewrite app_nil_l. cbn [fmap option_fmap option_map].
  eexists. split; [done|].
  apply score_of_errors_range, BlueprintFacts.scored_errors_range.
Qed.

Lemma proportion_accuracy_is_a_percentage_witness :
  exists accuracy,
    _score_proportions Samples.sqrt_exact Samples.nose_and_shoulder
      = Some accuracy /\
    (0 <= accuracy)%Q /\ (accuracy <= 100)%Q.
Proof.
  assert (Hr : Forall within_range Samples.nose_and_shoulder).
  { repeat match goal with |- Forall _ _ => constructor end;
      split; vm_compute; discriminate. }
  exact (proportion_accuracy_is_a_percentage Samples.sqrt_exact
           Samples.nose_and_shoulder Hr).
Defined.

Lemma lm_by_name_Some landmarks name lm :
  _lm_by_name landmarks name = Some lm ->
  lm ∈ landmarks /\ lm_name lm = name.
Proof.
  induction landmarks as [|l rest IH]; cbn [_lm_by_name]; [done|].
  case_bool_decide as Hn.
  - intros [= <-]. split; [by left | done].
  - intros H. destruct (IH H) as [Hin Hname]. split; [by right | done].
Qed.

Lemma edges_loop_spec landmarks todo : forall edges,
  exists new,
    edges_loop landmarks todo edges = edges ++ new /\
    map (fun e => (edge_from e, edge_to e)) new
    = List.filter (connected landmarks) todo /\
    Forall (joins landmarks) new.
Proof.
  induction todo as [|[a_name b_name] rest IH]; intros edges;
    cbn [edges_loop List.filter].
  - exists []. by rewrite app_nil_r.
  - unfold connected at 1. cbn [fst snd].
    rewrite !BlueprintFacts.lm_by_name_present.
    destruct (_lm_by_name landmarks a_name) as [a|] eqn:Ea.
    + destruct (_lm_by_name landmarks b_name) as [b|] eqn:Eb.
      * rewrite !bool_decide_eq_true_2 by done. cbn [andb].
        destruct (IH (edges ++ [ {| edge_from := a_name; edge_to := b_name;
                                    from_xy := (lm_x a, lm_y a);
                                    to_xy := (lm_x b, lm_y b) |} ]))
          as (new & -> & Hnames & HF).
        eexists (_ :: new). rewrite <- app_assoc. split; [done|].
        split; [by rewrite <- Hnames|].
        constructor; [|done].
        apply lm_by_name_Some in Ea as [Ha Hna], Eb as [Hb Hnb].
        by exists a, b.
      * rewrite (bool_decide_eq_false_2 (is_Some None))
          by (by intros [? ?]).
        rewrite andb_false_r. apply IH.
    + rewrite (bool_decide_eq_false_2 (is_Some None)) by (by intros [? ?]).
      cbn [andb]. destruct (_lm_by_name landmarks b_name); apply IH.
Qed.

(** X19: the wireframe layer holds one edge for each of the 14
    connections whose two landmark names both occur in the input, in the
    order of the connections; every edge carries the positions of two
    input landmarks with these names, and [edge_count] is the number of
    edges, at most 14 and 0 for an empty input. *)
Theorem outline_layer_edges landmarks :
  let layer := _build_outline_layer landmarks in
  map (fun e => (edge_from e, edge_to e)) (edges layer)
  = List.filter (connected landmarks) connections /\
  Forall (joins landmarks) (edges layer) /\
  edge_count layer = Z.of_nat (length (edges layer)) /\
  (0 <= edge_count layer <= 14)%Z /\
  (landmarks = [] -> edges layer = []).
Proof.
  cbn zeta. unfold _build_outline_layer. cbn [edges edge_count].
  destruct (edges_loop_spec landmarks connections [])
    as (new & E & Hnames & HF).
  rewrite app_nil_l in E. rewrite E.
  split; [done|]. split; [done|]. split; [done|].
  assert (Hlen : length new <= 14).
  { rewrite <- (length_map (fun e => (edge_from e, edge_to e))), Hnames.
    change 14 with (length connections). apply List.filter_length_le. }
  split; [lia|].
  intros ->. apply (f_equal length) in Hnames.
  rewrite length_map in Hnames.
  destruct new; [done|]. simpl in Hnames. discriminate Hnames.
Qed.

End BlueprintMore.

(** ** Complexity score *)

Module ComplexityFacts.
Import ComplexityModel.

Lemma clamp_range value :
  (0 <= _clamp value 0 100)%Q /\ (_clamp value 0 100 <= 100)%Q.
Proof.
  unfold _clamp. split; [apply Q.le_max_l|].
  apply Q.max_lub; [done | apply Q.le_min_l].
Qed.

Lemma clamp_mono x y :
  (x <= y)%Q -> (_clamp x 0 100 <= _clamp y 0 100)%Q.
Proof.
  intros Hxy. unfold _clamp.
  apply Q.max_le_compat_l, Q.min_le_compat_l, Hxy.
Qed.

Lemma div_mono (x y c : Q) : (0 < c)%Q -> (x <= y)%Q -> (x / c <= y / c)%Q.
Proof.
  intros Hc Hxy. apply Qmult_le_compat_r; [done|].
  by apply Qlt_le_weak, Qinv_lt_0_compat.
Qed.

(** The three normalised features in the score's formula. *)
Lemma features_mono (n n' : Z) (gd gd' ev ev' : Q) :
  (n <= n')%Z -> (gd <= gd')%Q -> (ev <= ev')%Q ->
  (Qmin (inject_Z n / inject_Z MAX_LANDMARK_COUNT) 1
   <= Qmin (inject_Z n' / inject_Z MAX_LANDMARK_COUNT) 1)%Q /\
  (Qmin (gd / MAX_GRID_DENSITY) 1 <= Qmin (gd' / MAX_GRID_DENSITY) 1)%Q /\
  (Qmin (ev / MAX_EDGE_VARIANCE) 1 <= Qmin (ev' / MAX_EDGE_VARIANCE) 1)%Q.
Proof.
  intros Hn Hgd Hev. rewrite Zle_Qle in Hn.
  unfold MAX_LANDMARK_COUNT, MAX_GRID_DENSITY, MAX_EDGE_VARIANCE.
  repeat split; apply Q.min_le_compat_r, div_mono; done.
Qed.

Lemma predict_range (w_lm w_gd w_ev : Q) (landmark_count : Z)
    (grid_density edge_variance : Q) :
  (0 <= predict w_lm w_gd w_ev landmark_count grid_density edge_variance)%Q
  /\
  (predict w_lm w_gd w_ev landmark_count grid_density edge_variance
   <= 100)%Q.
Proof.
  unfold predict.
  destruct (clamp_range
              ((w_lm * Qmin (inject_Z landmark_count
                             / inject_Z MAX_LANDMARK_COUNT) 1
                + w_gd * Qmin (grid_density / MAX_GRID_DENSITY) 1
                + w_ev * Qmin (edge_variance / MAX_EDGE_VARIANCE) 1)
               * 100)%Q) as [Hlo Hhi].
  exact (RoundFacts.round_between 0 100 _ 2 Hlo Hhi).
Qed.

Lemma score_mono (n n' : Z) (gd gd' ev ev' : Q) :
  (n <= n')%Z -> (gd <= gd')%Q -> (ev <= ev')%Q ->
  (score_complexity n gd ev <= score_complexity n' gd' ev')%Q.
Proof.
  intros Hn Hgd Hev.
  destruct (features_mono n n' gd gd' ev ev' Hn Hgd Hev)
    as (Hlm & Hg & He).
  unfold score_complexity.
  apply RoundFacts.round_mono, clamp_mono.
  unfold W_LANDMARKS, W_GRID_DENSITY, W_EDGE_VARIANCE.
  generalize dependent (Qmin (inject_Z n / inject_Z MAX_LANDMARK_COUNT) 1).
  generalize dependent (Qmin (inject_Z n' / inject_Z MAX_LANDMARK_COUNT) 1).
  generalize dependent (Qmin (gd / MAX_GRID_DENSITY) 1).
  generalize dependent (Qmin (gd' / MAX_GRID_DENSITY) 1).
  generalize dependent (Qmin (ev / MAX_EDGE_VARIANCE) 1).
  generalize dependent (Qmin (ev' / MAX_EDGE_VARIANCE) 1).
  intros e' e He g' g Hg l' l Hl. lra.
Qed.

(** X20: for every input, negative and oversized values included, and
    for every choice of weights, [predict] returns a score between 0 and
    100, and [score_complexity] is [predict] with the weights 0.35, 0.25
    and 0.40. *)
Theorem complexity_score_range (w_lm w_gd w_ev : Q) (landmark_count : Z)
    (grid_density edge_variance : Q) :
  (0 <= predict w_lm w_gd w_ev landmark_count grid_density edge_variance)%Q
  /\
  (predict w_lm w_gd w_ev landmark_count grid_density edge_variance
   <= 100)%Q /\
  score_complexity landmark_count grid_density edge_variance
  = predict (35 # 100) (25 # 100) (40 # 100)
            landmark_count grid_density edge_variance.
Proof.
  destruct (predict_range w_lm w_gd w_ev landmark_count grid_density
              edge_variance) as [Hlo Hhi].
  done.
Qed.

(** X21: [score_complexity] does not decrease when the landmark count,
    the grid density and the edge variance do not decrease. *)
Theorem complexity_score_monotone (n n' : Z) (gd gd' ev ev' : Q) :
  (n <= n')%Z -> (gd <= gd')%Q -> (ev <= ev')%Q ->
  (score_complexity n gd ev <= score_complexity n' gd' ev')%Q.
Proof. apply score_mono. Qed.

Lemma complexity_score_monotone_witness :
  (score_complexity 13 25 1200 <= score_complexity 23 45 1200)%Q.
Proof.
  apply (complexity_score_monotone 13 23 25 45 1200 1200); [lia|lra|lra].
Defined.

(** X22: with 33 or more landmarks, a grid density of 100 or more and an
    edge variance of 5000 or more the score is 100, and with no positive
    feature it is 0. *)
Theorem complexity_score_saturates (n : Z) (gd ev : Q) :
  ((33 <= n)%Z -> (100 <= gd)%Q -> (5000 <= ev)%Q ->
   score_complexity n gd ev == 100)%Q /\
  ((n <= 0)%Z -> (gd <= 0)%Q -> (ev <= 0)%Q ->
   score_complexity n gd ev == 0)%Q.
Proof.
  assert (Hfull : (score_complexity 33 100 5000 == 100)%Q)
    by (vm_compute; reflexivity).
  assert (Hnone : (score_complexity 0 0 0 == 0)%Q)
    by (vm_compute; reflexivity).
  destruct (predict_range (35 # 100) (25 # 100) (40 # 100) n gd ev)
    as [Hlo Hhi].
  change (predict (35 # 100) (25 # 100) (40 # 100) n gd ev)
    with (score_complexity n gd ev) in Hlo, Hhi.
  split.
  - intros Hn Hgd Hev. apply Qle_antisym; [done|].
    rewrite <- Hfull. by apply score_mono.
  - intros Hn Hgd Hev. apply Qle_antisym; [|done].
    rewrite <- Hnone. by apply score_mono.
Qed.

Lemma complexity_score_saturates_witness :
  (score_complexity 40 120 9000 == 100)%Q.
Proof.
  apply (proj1 (complexity_score_saturates 40 120 9000)); [lia|lra|lra].
Defined.

End ComplexityFacts.

(** ** Grid engine *)

Module GridFacts.
Import BlueprintEngine GridEngine.

Lemma min_of_spec (xs : list Q) : forall x lo hi,
  (lo <= x)%Q -> (x <= hi)%Q ->
  Forall (fun y => lo <= y /\ y <= hi)%Q xs ->
  (lo <= min_of x xs)%Q /\ (min_of x xs <= x)%Q /\
  Forall (fun y => min_of x xs <= y)%Q xs.
Proof.
  unfold min_of.
  induction xs as [|y ys IH]; intros x lo hi Hlo Hhi HF; cbn [foldl].
  - repeat split; [done | apply Qle_refl | constructor].
  - apply Forall_cons in HF as [[Hy0 Hy1] HF].
    destruct (IH (Qmin x y) lo hi) as (H1 & H2 & H3);
      [by apply Q.min_glb | | done |].
    { eapply Qle_trans; [apply Q.le_min_l | exact Hhi]. }
    repeat split; [done | |].
    + eapply Qle_trans; [exact H2 | apply Q.le_min_l].
    + constructor; [|done].
      eapply Qle_trans; [exact H2 | apply Q.le_min_r].
Qed.

Lemma max_of_spec (xs : list Q) : forall x lo hi,
  (lo <= x)%Q -> (x <= hi)%Q ->
  Forall (fun y => lo <= y /\ y <= hi)%Q xs ->
  (max_of x xs <= hi)%Q /\ (x <= max_of x xs)%Q /\
  Forall (fun y => y <= max_of x xs)%Q xs.
Proof.
  unfold max_of.
  induction xs as [|y ys IH]; intros x lo hi Hlo Hhi HF; cbn [foldl].
  - repeat split; [done | apply Qle_refl | constructor].
  - apply Forall_cons in HF as [[Hy0 Hy1] HF].
    destruct (IH (Qmax x y) lo hi) as (H1 & H2 & H3);
      [ | by apply Q.max_lub | done |].
    { eapply Qle_trans; [exact Hlo | apply Q.le_max_l]. }
    repeat split; [done | |].
    + eapply Qle_trans; [apply Q.le_max_l | exact H2].
    + constructor; [|done].
      eapply Qle_trans; [apply Q.le_max_r | exact H2].
Qed.

(** One axis of the padded box. *)
Lemma padded_axis (m M v : Q) :
  (0 <= m)%Q -> (M <= 1)%Q -> (m <= v)%Q -> (v <= M)%Q ->
  (0 <= Qmax 0 (m - (5 # 100)))%Q /\
  (Qmin 1 (M + (5 # 100)) <= 1)%Q /\
  (Qmax 0 (m - (5 # 100)) <= v)%Q /\
  (v <= Qmin 1 (M + (5 # 100)))%Q /\
  (Qmax 0 (m - (5 # 100)) < Qmin 1 (M + (5 # 100)))%Q.
Proof.
  intros Hm HM Hmv HvM.
  destruct (Q.max_spec 0 (m - (5 # 100))) as [[C E]|[C E]];
  destruct (Q.min_spec 1 (M + (5 # 100))) as [[D F]|[D F]];
    rewrite E, F; repeat split; lra.
Qed.

(** X23: for landmarks of the unit square, the padded bounding box lies
    in the unit square, holds every landmark and has a positive width and
    height; without landmarks it is the unit square. *)
Theorem bounding_box_holds_landmarks landmarks :
  Forall normalised landmarks ->
  let b := _landmark_bounding_box landmarks in
  (0 <= x_min b /\ x_min b < x_max b /\ x_max b <= 1)%Q /\
  (0 <= y_min b /\ y_min b < y_max b /\ y_max b <= 1)%Q /\
  Forall (inside b) landmarks /\
  (landmarks = [] ->
   b = {| x_min := 0; y_min := 0; x_max := 1; y_max := 1 |}).
Proof.
  intros HF. cbn zeta. destruct landmarks as [|lm rest].
  - cbn [_landmark_bounding_box x_min x_max y_min y_max].
    repeat split; done.
  - cbn [_landmark_bounding_box x_min x_max y_min y_max].
    apply Forall_cons in HF as [[[Hx0 Hx1] [Hy0 Hy1]] HF].
    assert (HFx : Forall (fun v => 0 <= v /\ v <= 1)%Q (map lm_x rest)).
    { apply Forall_map. eapply Forall_impl; [exact HF|].
      by intros l [Hl _]. }
    assert (HFy : Forall (fun v => 0 <= v /\ v <= 1)%Q (map lm_y rest)).
    { apply Forall_map. eapply Forall_impl; [exact HF|].
      by intros l [_ Hl]. }
    destruct (min_of_spec _ (lm_x lm) 0 1 Hx0 Hx1 HFx) as (Hm0 & Hm1 & Hm2).
    destruct (max_of_spec _ (lm_x lm) 0 1 Hx0 Hx1 HFx) as (HM0 & HM1 & HM2).
    destruct (min_of_spec _ (lm_y lm) 0 1 Hy0 Hy1 HFy) as (Hn0 & Hn1 & Hn2).
    destruct (max_of_spec _ (lm_y lm) 0 1 Hy0 Hy1 HFy) as (HN0 & HN1 & HN2).
    set (m := min_of (lm_x lm) (map lm_x rest)) in *.
    set (M := max_of (lm_x lm) (map lm_x rest)) in *.
    set (n := min_of (lm_y lm) (map lm_y rest)) in *.
    set (N := max_of (lm_y lm) (map lm_y rest)) in *.
    destruct (padded_axis m M (lm_x lm) Hm0 HM0 Hm1 HM1)
      as (Ax0 & Ax1 & Ax2 & Ax3 & Ax4).
    destruct (padded_axis n N (lm_y lm) Hn0 HN0 Hn1 HN1)
      as (Ay0 & Ay1 & Ay2 & Ay3 & Ay4).
    split; [done|]. split; [done|]. split; [|done].
    constructor; [by repeat split|].
    rewrite Forall_forall. intros l Hl. unfold inside.
    cbn [x_min x_max y_min y_max].
    rewrite Forall_forall in Hm2, HM2, Hn2, HN2.
    assert (Hlx : lm_x l ∈ map lm_x rest) by (by apply list_elem_of_fmap_2).
    assert (Hly : lm_y l ∈ map lm_y rest) by (by apply list_elem_of_fmap_2).
    destruct (padded_axis m M (lm_x l) Hm0 HM0 (Hm2 _ Hlx) (HM2 _ Hlx))
      as (_ & _ & Bx2 & Bx3 & _).
    destruct (padded_axis n N (lm_y l) Hn0 HN0 (Hn2 _ Hly) (HN2 _ Hly))
      as (_ & _ & By2 & By3 & _).
    done.
Qed.

Lemma bounding_box_holds_landmarks_witness :
  Forall (inside (_landmark_bounding_box Samples.nose_and_shoulder))
         Samples.nose_and_shoulder.
Proof.
  assert (HF : Forall normalised Samples.nose_and_shoulder).
  { repeat match goal with |- Forall _ _ => constructor end;
      repeat split; vm_compute; discriminate. }
  exact (proj1 (proj2 (proj2
           (bounding_box_holds_landmarks Samples.nose_and_shoulder HF)))).
Defined.

Lemma flat_map_join {A B} (f : A -> list B) (l : list A) :
  flat_map f l = mjoin (f <$> l).
Proof. induction l as [|x l IH]; [done|]. simpl. by rewrite IH. Qed.

Lemma grid_range_lookup (n i : nat) :
  i < n -> range (Z.of_nat n) !! i = Some (Z.of_nat i).
Proof.
  intros Hi. unfold range. rewrite Nat2Z.id, list_lookup_fmap.
  by rewrite lookup_seq_lt.
Qed.

Lemma grid_range_length (n : nat) : length (range (Z.of_nat n)) = n.
Proof. unfold range. by rewrite length_map, length_seq, Nat2Z.id. Qed.

(** The cells of two nested loops over [range(n)], row by row. *)
Lemma nested_loops {A} (f : Z -> Z -> A) (n : nat) :
  let cells :=
    flat_map (fun r => map (f r) (range (Z.of_nat n))) (range (Z.of_nat n))
  in
  length cells = n * n /\
  forall r c : nat,
    r < n -> c < n ->
    cells !! (r * n + c) = Some (f (Z.of_nat r) (Z.of_nat c)).
Proof.
  cbn zeta. split.
  - rewrite (flat_map_constant_length (c := n)).
    + by rewrite grid_range_length.
    + intros r _. by rewrite length_map, grid_range_length.
  - intros r c Hr Hc. rewrite flat_map_join.
    apply (join_lookup_Some_same_length' n); [|done|].
    + apply Forall_fmap, Forall_true. intros r'. simpl.
      by rewrite length_map, grid_range_length.
    + exists (map (f (Z.of_nat r)) (range (Z.of_nat n))). split.
      * by rewrite list_lookup_fmap, grid_range_lookup.
      * by rewrite list_lookup_fmap, grid_range_lookup.
Qed.

Lemma grid_size_lookup difficulty :
  default (8, 8)%Z (DIFFICULTY_GRID_SIZE !! difficulty)
  = (Z.of_nat (grid_side difficulty), Z.of_nat (grid_side difficulty)).
Proof.
  unfold grid_side, DIFFICULTY_GRID_SIZE. cbn [list_to_map foldr curry].
  case_bool_decide as Hb.
  - subst. by rewrite lookup_insert_eq.
  - rewrite lookup_insert_ne by done. case_bool_decide as Ha.
    + subst. rewrite lookup_insert_ne by done.
      by rewrite lookup_insert_eq.
    + destruct (decide (difficulty = "intermediate")) as [->|Hi].
      * by rewrite lookup_insert_eq.
      * rewrite lookup_insert_ne by done.
        rewrite lookup_insert_ne by done. by rewrite lookup_empty.
Qed.

Lemma grid_side_positive difficulty : 0 < grid_side difficulty.
Proof. unfold grid_side. repeat case_bool_decide; lia. Qed.

(** X24: for every list of landmarks and every difficulty string,
    [generate_grid] returns [n * n] cells, where [n] is 4 for "beginner",
    16 for "advanced" and 8 for "intermediate" and for any other string;
    the cells stand row by row, the cell of row [r] and column [c] at
    position [r * n + c]. *)
Theorem generate_grid_cells landmarks difficulty :
  let n := grid_side difficulty in
  exists cells,
    generate_grid landmarks difficulty = Some cells /\
    length cells = n * n /\
    forall r c : nat,
      r < n -> c < n ->
      exists cell,
        cells !! (r * n + c) = Some cell /\
        row cell = Z.of_nat r /\ col cell = Z.of_nat c.
Proof.
  cbn zeta. unfold generate_grid. rewrite grid_size_lookup.
  pose proof (grid_side_positive difficulty) as Hpos.
  set (n := grid_side difficulty) in *.
  rewrite !ToneFacts.div_nonzero by lia. cbn [mbind option_bind].
  set (bbox := _landmark_bounding_box landmarks).
  set (cell_w := ((x_max bbox - x_min bbox) / inject_Z (Z.of_nat n))%Q).
  set (cell_h := ((y_max bbox - y_min bbox) / inject_Z (Z.of_nat n))%Q).
  destruct (nested_loops (cell_of bbox cell_w cell_h landmarks) n)
    as [Hlen Hcells].
  eexists. split; [done|]. split; [exact Hlen|].
  intros r c Hr Hc. eexists. split; [exact (Hcells r c Hr Hc)|]. done.
Qed.

Lemma occupied_range (grid : list Cell) :
  (0 <= occupied grid <= Z.of_nat (length grid))%Z.
Proof.
  unfold occupied. split; [lia|]. apply inj_le, List.filter_length_le.
Qed.

Lemma filter_all {A} (f : A -> bool) (l : list A) :
  Forall (fun x => f x = true) l -> List.filter f l = l.
Proof.
  induction 1 as [|x l Hx _ IH]; [done|]. simpl. by rewrite Hx, IH.
Qed.

Lemma filter_none {A} (f : A -> bool) (l : list A) :
  Forall (fun x => f x = false) l -> List.filter f l = [].
Proof.
  induction 1 as [|x l Hx _ IH]; [done|]. simpl. by rewrite Hx, IH.
Qed.

(** X25: [grid_density] lies between 0 and 100 for every grid; it is 0
    for the empty grid and for a grid without an occupied cell, and 100
    for a non-empty grid in which every cell is occupied. *)
Theorem grid_density_range (grid : list Cell) :
  (0 <= grid_density grid /\ grid_density grid <= 100)%Q /\
  (Forall (fun cell => contains_landmark cell = false) grid ->
   (grid_density grid == 0)%Q) /\
  (grid <> [] ->
   Forall (fun cell => contains_landmark cell = true) grid ->
   (grid_density grid == 100)%Q).
Proof.
  destruct grid as [|cell rest] eqn:E; [repeat split; done|].
  rewrite <- E. assert (Hne : grid <> []) by (by rewrite E).
  assert (Hd : grid_density grid
               = Py.round (inject_Z (occupied grid)
                           / inject_Z (Z.of_nat (length grid)) * 100) 2)
    by (by rewrite E).
  rewrite Hd. clear Hd E.
  assert (Hlen : (0 < Z.of_nat (length grid))%Z)
    by (destruct grid; [done | simpl; lia]).
  pose proof (occupied_range grid) as Hocc.
  assert (Hpos : (0 < inject_Z (Z.of_nat (length grid)))%Q)
    by (change 0%Q with (inject_Z 0); by rewrite <- Zlt_Qlt).
  split; [|split].
  - apply (RoundFacts.round_between 0 100).
    + apply Qmult_le_0_compat; [|done].
      apply Qle_shift_div_l; [done|]. rewrite Qmult_0_l.
      change 0%Q with (inject_Z 0). rewrite <- Zle_Qle. lia.
    + change (inject_Z 100) with (1 * 100)%Q.
      apply Qmult_le_compat_r; [|done].
      apply Qle_shift_div_r; [done|]. rewrite Qmult_1_l.
      rewrite <- Zle_Qle. lia.
  - intros HF. apply (RoundFacts.round_of_Z _ 0).
    unfold occupied. rewrite (filter_none _ _ HF).
    change (inject_Z (Z.of_nat (length []))) with 0%Q.
    change (inject_Z 0) with 0%Q. field.
    intros H0. rewrite H0 in Hpos. by apply Qlt_irrefl in Hpos.
  - intros _ HF. apply (RoundFacts.round_of_Z _ 100).
    unfold occupied. rewrite (filter_all _ _ HF).
    change (inject_Z 100) with 100%Q. field.
    intros H0. rewrite H0 in Hpos. by apply Qlt_irrefl in Hpos.
Qed.

Lemma grid_density_range_witness :
  (grid_density (default [] (generate_grid [] "beginner")) == 0)%Q.
Proof.
  apply (proj1 (proj2 (grid_density_range
                         (default [] (generate_grid [] "beginner"))))).
  vm_compute.
  repeat match goal with
         | |- Forall _ _ => constructor
         | |- _ = _ => reflexivity
         end.
Defined.

End GridFacts.

(** ** Working resolution *)

Module ResizeFacts.
Import ImageProcessor.

Lemma int_zero (q : Q) : (0 <= q)%Q -> (q < 1)%Q -> Py.int q = 0%Z.
Proof.
  intros H0 H1. unfold Py.int.
  destruct (Qle_bool 0 q) eqn:E.
  - pose proof (Qfloor_le q) as Hf.
    pose proof (Qfloor_resp_le 0 q H0) as Hg.
    change (Qfloor 0) with 0%Z in Hg.
    assert (Hlt : (inject_Z (Qfloor q) < inject_Z 1)%Q)
      by (change (inject_Z 1) with 1%Q; lra).
    rewrite <- Zlt_Qlt in Hlt. lia.
  - apply Qle_bool_iff in H0. congruence.
Qed.

(** One side [s] of an image whose longer side is [m], scaled to
    [max_side]. *)
Lemma scaled_side (s m max_side : Z) :
  (0 <= s <= m)%Z -> (0 < m)%Z -> (0 <= max_side)%Z ->
  (0 <= Py.int (inject_Z s * (inject_Z max_side / inject_Z m))
     <= max_side)%Z /\
  (s = m ->
   Py.int (inject_Z s * (inject_Z max_side / inject_Z m)) = max_side) /\
  ((s * max_side < m)%Z ->
   Py.int (inject_Z s * (inject_Z max_side / inject_Z m)) = 0%Z).
Proof.
  intros Hs Hm HM.
  assert (Hpos : (0 < inject_Z m)%Q)
    by (change 0%Q with (inject_Z 0); by rewrite <- Zlt_Qlt).
  assert (E : (inject_Z s * (inject_Z max_side / inject_Z m)
               == inject_Z (s * max_side) / inject_Z m)%Q).
  { rewrite inject_Z_mult. field. intros H0. rewrite H0 in Hpos.
    by apply Qlt_irrefl in Hpos. }
  assert (H0 : (inject_Z 0
                <= inject_Z s * (inject_Z max_side / inject_Z m))%Q).
  { rewrite E. apply Qle_shift_div_l; [done|]. rewrite Qmult_0_l.
    change 0%Q with (inject_Z 0). rewrite <- Zle_Qle. nia. }
  assert (H1 : (inject_Z s * (inject_Z max_side / inject_Z m)
                <= inject_Z max_side)%Q).
  { rewrite E. apply Qle_shift_div_r; [done|].
    rewrite <- inject_Z_mult, <- Zle_Qle. nia. }
  split; [by apply CanvasFacts.int_between|]. split.
  - intros ->.
    assert (H2 : (inject_Z max_side
                  <= inject_Z m * (inject_Z max_side / inject_Z m))%Q).
    { rewrite E. apply Qle_shift_div_l; [done|].
      rewrite <- inject_Z_mult, <- Zle_Qle. lia. }
    pose proof (CanvasFacts.int_between max_side max_side _ H2 H1). lia.
  - intros Hlt. apply int_zero; [exact H0|].
    rewrite E. apply Qlt_shift_div_r; [done|]. rewrite Qmult_1_l.
    by rewrite <- Zlt_Qlt.
Qed.

(** X26: for an image with a positive height and width and a
    non-negative [max_side], [resize_preserve_aspect] asks for a size
    whose sides lie between 0 and [max_side] and whose longer side is at
    least [max_side - 1]; the shorter side is 0 when the image is more
    than [max_side] times longer than it is wide, or wider than it is
    long.  On an image without pixels in both directions the division
    fails. *)
Theorem resize_fits_working_size (h w max_side : Z) :
  (0 < h)%Z -> (0 < w)%Z -> (0 <= max_side)%Z ->
  resize_preserve_aspect 0 0 max_side = None /\
  exists new_w new_h,
    resize_preserve_aspect h w max_side = Some (new_w, new_h) /\
    (0 <= new_w <= max_side)%Z /\ (0 <= new_h <= max_side)%Z /\
    (max_side - 1 <= Z.max new_w new_h)%Z /\
    ((h * max_side < w)%Z -> new_h = 0%Z) /\
    ((w * max_side < h)%Z -> new_w = 0%Z).
Proof.
  intros Hh Hw HM. split; [done|].
  unfold resize_preserve_aspect.
  rewrite ToneFacts.div_nonzero by lia. cbn [mbind option_bind].
  destruct (scaled_side w (Z.max h w) max_side) as (Hw1 & Hw2 & Hw3);
    [lia..|].
  destruct (scaled_side h (Z.max h w) max_side) as (Hh1 & Hh2 & Hh3);
    [lia..|].
  eexists _, _. split; [done|]. split; [exact Hw1|]. split; [exact Hh1|].
  split; [|split].
  - destruct (Z.max_spec h w) as [[Hlt E]|[Hle E]].
    + rewrite Hw2 by lia. lia.
    + rewrite Hh2 by lia. lia.
  - intros Hlt. apply Hh3. lia.
  - intros Hlt. apply Hw3. lia.
Qed.

Lemma resize_fits_working_size_witness :
  exists new_w new_h,
    resize_preserve_aspect 3000 2 WORKING_SIZE = Some (new_w, new_h) /\
    (0 <= new_w <= WORKING_SIZE)%Z /\ (0 <= new_h <= WORKING_SIZE)%Z /\
    (WORKING_SIZE - 1 <= Z.max new_w new_h)%Z /\
    ((3000 * WORKING_SIZE < 2)%Z -> new_h = 0%Z) /\
    ((2 * WORKING_SIZE < 3000)%Z -> new_w = 0%Z).
Proof.
  apply (resize_fits_working_size 3000 2 WORKING_SIZE);
    unfold WORKING_SIZE; lia.
Defined.

End ResizeFacts.

(** ** Canvas: grid lines and hatching *)

Module CanvasMore.
Import CanvasRenderer.

Lemma mapM_total {A B} (f : A -> option B) (g : A -> B) (l : list A) :
  Forall (fun x => f x = Some (g x)) l -> mapM f l = Some (map g l).
Proof.
  induction 1 as [|x l Hx _ IH]; [done|].
  cbn [mapM map]. rewrite Hx, IH. done.
Qed.

Lemma int_nonneg (q : Q) : (0 <= q)%Q -> Py.int q = Qfloor q.
Proof.
  intros Hq. unfold Py.int. apply Qle_bool_iff in Hq. by rewrite Hq.
Qed.

Lemma range_lookup (n i : Z) (k : nat) :
  range n !! k = Some i <-> i = Z.of_nat k /\ (Z.of_nat k < n)%Z.
Proof.
  unfold range. rewrite list_lookup_fmap. split.
  - destruct (seq 0 (Z.to_nat n) !! k) as [j|] eqn:E; [|done].
    apply lookup_seq in E as [-> Hk]. intros [= <-]. split; lia.
  - intros [-> Hk]. rewrite lookup_seq_lt by lia. done.
Qed.

Lemma range_length (n : Z) : length (range n) = Z.to_nat n.
Proof. unfold range. by rewrite length_map, length_seq. Qed.

Lemma offset_of_range extent grid_cells i :
  (0 <= extent)%Z -> (0 < grid_cells)%Z -> (0 <= i <= grid_cells)%Z ->
  (0 <= offset_of extent grid_cells i <= extent)%Z.
Proof.
  intros He Hg Hi. unfold offset_of.
  assert (Hpos : (0 < inject_Z grid_cells)%Q)
    by (change 0%Q with (inject_Z 0); by rewrite <- Zlt_Qlt).
  apply CanvasFacts.int_between.
  - apply Qle_shift_div_l; [done|].
    rewrite <- inject_Z_mult, <- Zle_Qle. nia.
  - apply Qle_shift_div_r; [done|].
    rewrite <- inject_Z_mult, <- Zle_Qle. nia.
Qed.

Lemma offset_of_mono extent grid_cells i j :
  (0 <= extent)%Z -> (0 < grid_cells)%Z -> (0 <= i <= j)%Z ->
  (offset_of extent grid_cells i <= offset_of extent grid_cells j)%Z.
Proof.
  intros He Hg Hij. unfold offset_of.
  assert (Hpos : (0 < inject_Z grid_cells)%Q)
    by (change 0%Q with (inject_Z 0); by rewrite <- Zlt_Qlt).
  assert (Hnn : forall k, (0 <= k)%Z ->
                (0 <= inject_Z (k * extent) / inject_Z grid_cells)%Q).
  { intros k Hk. apply Qle_shift_div_l; [done|]. rewrite Qmult_0_l.
    change 0%Q with (inject_Z 0). rewrite <- Zle_Qle. nia. }
  rewrite !int_nonneg by (apply Hnn; lia).
  apply Qfloor_resp_le, Qmult_le_compat_r.
  - rewrite <- Zle_Qle. nia.
  - by apply Qlt_le_weak, Qinv_lt_0_compat.
Qed.

Lemma offset_of_exact extent grid_cells i k :
  (0 < grid_cells)%Z -> (i * extent = k * grid_cells)%Z ->
  offset_of extent grid_cells i = k.
Proof.
  intros Hg E. unfold offset_of. rewrite E.
  assert (Hpos : (0 < inject_Z grid_cells)%Q)
    by (change 0%Q with (inject_Z 0); by rewrite <- Zlt_Qlt).
  pose proof (CanvasFacts.int_between k k
                (inject_Z (k * grid_cells) / inject_Z grid_cells)%Q) as Hb.
  assert (Hk : (k <= Py.int (inject_Z (k * grid_cells)
                             / inject_Z grid_cells) <= k)%Z); [|lia].
  apply Hb.
  - apply Qle_shift_div_l; [done|].
    rewrite <- inject_Z_mult. apply Qle_refl.
  - apply Qle_shift_div_r; [done|].
    rewrite <- inject_Z_mult. apply Qle_refl.
Qed.

Lemma line_offsets_eq extent grid_cells :
  (0 < grid_cells)%Z ->
  line_offsets extent grid_cells
  = Some (map (offset_of extent grid_cells) (range (grid_cells + 1))).
Proof.
  intros Hg. unfold line_offsets. apply mapM_total, Forall_true.
  intros i. by rewrite ToneFacts.div_nonzero by lia.
Qed.

(** The offsets of the [grid_cells + 1] lines: from 0 to [extent], never
    decreasing. *)
Lemma line_offsets_spec extent grid_cells :
  (0 <= extent)%Z -> (0 < grid_cells)%Z ->
  exists offsets,
    line_offsets extent grid_cells = Some offsets /\
    length offsets = Z.to_nat (grid_cells + 1) /\
    offsets !! 0 = Some 0%Z /\
    offsets !! Z.to_nat grid_cells = Some extent /\
    Forall (fun o => (0 <= o <= extent)%Z) offsets /\
    (forall (i j : nat) a b,
       i <= j -> offsets !! i = Some a -> offsets !! j = Some b ->
       (a <= b)%Z).
Proof.
  intros He Hg. eexists. split; [by apply line_offsets_eq|].
  assert (Hlook : forall (k : nat) o,
            map (offset_of extent grid_cells) (range (grid_cells + 1)) !! k
            = Some o ->
            o = offset_of extent grid_cells (Z.of_nat k) /\
            (Z.of_nat k <= grid_cells)%Z).
  { intros k o Hk. rewrite list_lookup_fmap in Hk.
    destruct (range (grid_cells + 1) !! k) as [i|] eqn:E; [|done].
    apply range_lookup in E as [-> Hlt]. injection Hk as <-.
    split; [done | lia]. }
  assert (Hat : forall k : nat,
            (Z.of_nat k <= grid_cells)%Z ->
            map (offset_of extent grid_cells) (range (grid_cells + 1)) !! k
            = Some (offset_of extent grid_cells (Z.of_nat k))).
  { intros k Hk. rewrite list_lookup_fmap.
    by rewrite (proj2 (range_lookup (grid_cells + 1) (Z.of_nat k) k))
      by (split; [done | lia]). }
  split; [by rewrite length_map, range_length|]. split; [|split; [|split]].
  - rewrite (Hat 0) by lia. f_equal;
      try (apply offset_of_exact; [done | lia]).
  - rewrite (Hat (Z.to_nat grid_cells)) by lia. f_equal.
    apply offset_of_exact; [done | lia].
  - rewrite Forall_forall. intros o Ho.
    apply list_elem_of_lookup_1 in Ho as [k Hk].
    apply Hlook in Hk as [-> Hk]. apply offset_of_range; lia.
  - intros i j a b Hij Ha Hb.
    apply Hlook in Ha as [-> Hi], Hb as [-> Hj].
    apply offset_of_mono; lia.
Qed.

Lemma margin_range (w : Z) (margin_fraction : Q) :
  (0 <= w)%Z -> (0 <= margin_fraction)%Q -> (margin_fraction <= 1 # 2)%Q ->
  (0 <= Py.int (inject_Z w * margin_fraction))%Z /\
  (0 <= w - 2 * Py.int (inject_Z w * margin_fraction))%Z.
Proof.
  intros Hw H0 H1.
  assert (Hq : (0 <= inject_Z w)%Q)
    by (change 0%Q with (inject_Z 0); by rewrite <- Zle_Qle).
  assert (Hnn : (0 <= inject_Z w * margin_fraction)%Q)
    by (by apply Qmult_le_0_compat).
  rewrite int_nonneg by done.
  pose proof (Qfloor_resp_le 0 _ Hnn) as Hf.
  change (Qfloor 0) with 0%Z in Hf. split; [done|].
  pose proof (Qfloor_le (inject_Z w * margin_fraction)) as Hfl.
  assert (Hhalf : (inject_Z w * margin_fraction <= inject_Z w * (1 # 2))%Q).
  { rewrite !(Qmult_comm (inject_Z w)).
    by apply Qmult_le_compat_r. }
  assert (H2 : (inject_Z (2 * Qfloor (inject_Z w * margin_fraction))
                <= inject_Z w)%Q).
  { rewrite inject_Z_mult. change (inject_Z 2) with 2%Q.
    generalize dependent (inject_Z (Qfloor (inject_Z w * margin_fraction))).
    generalize dependent (inject_Z w * margin_fraction)%Q.
    generalize dependent (inject_Z w). intros. lra. }
  rewrite <- Zle_Qle in H2. lia.
Qed.

(** X27: on a canvas of non-negative width and height, with a positive
    number of cells and a margin fraction of at most one half, [_draw_grid]
    draws [grid_cells + 1] vertical and as many horizontal lines; each
    spans the drawing area that it returns, the first lies on the left
    (upper) side, the last on the right (lower) side, and the lines do
    not go back.  With [grid_cells = 0] the first division fails. *)
Theorem draw_grid_lines (w h grid_cells : Z) (margin_fraction : Q) :
  (0 <= w)%Z -> (0 <= h)%Z -> (0 < grid_cells)%Z ->
  (0 <= margin_fraction)%Q -> (margin_fraction <= 1 # 2)%Q ->
  _draw_grid w h 0 margin_fraction = None /\
  exists d x_start y_start x_end y_end,
    _draw_grid w h grid_cells margin_fraction = Some d /\
    draw_area d = _draw_grid_area w h margin_fraction /\
    draw_area d = (x_start, y_start, x_end, y_end) /\
    (0 <= x_start <= x_end)%Z /\ (0 <= y_start <= y_end)%Z /\
    length (vertical_lines d) = Z.to_nat (grid_cells + 1) /\
    length (horizontal_lines d) = Z.to_nat (grid_cells + 1) /\
    Forall (spans_height (draw_area d)) (vertical_lines d) /\
    Forall (spans_width (draw_area d)) (horizontal_lines d) /\
    vertical_lines d !! 0 = Some ((x_start, y_start), (x_start, y_end)) /\
    vertical_lines d !! Z.to_nat grid_cells
      = Some ((x_end, y_start), (x_end, y_end)) /\
    horizontal_lines d !! 0 = Some ((x_start, y_start), (x_end, y_start)) /\
    horizontal_lines d !! Z.to_nat grid_cells
      = Some ((x_start, y_end), (x_end, y_end)) /\
    (forall (i j : nat) a b,
       i <= j -> vertical_lines d !! i = Some a ->
       vertical_lines d !! j = Some b -> (a.1.1 <= b.1.1)%Z) /\
    (forall (i j : nat) a b,
       i <= j -> horizontal_lines d !! i = Some a ->
       horizontal_lines d !! j = Some b -> (a.1.2 <= b.1.2)%Z).
Proof.
  intros Hw Hh Hg Hm0 Hm1. split.
  { unfold _draw_grid, line_offsets. done. }
  destruct (margin_range w margin_fraction Hw Hm0 Hm1) as [Hmx Hdw].
  destruct (margin_range h margin_fraction Hh Hm0 Hm1) as [Hmy Hdh].
  unfold _draw_grid, _draw_grid_area.
  set (mx := Py.int (inject_Z w * margin_fraction)) in *.
  set (my := Py.int (inject_Z h * margin_fraction)) in *.
  destruct (line_offsets_spec (w - 2 * mx) grid_cells Hdw Hg)
    as (xs & -> & Hxl & Hx0 & Hx1 & Hxr & Hxm).
  destruct (line_offsets_spec (h - 2 * my) grid_cells Hdh Hg)
    as (ys & -> & Hyl & Hy0 & Hy1 & Hyr & Hym).
  cbn [mbind option_bind].
  eexists _, mx, my, (mx + (w - 2 * mx))%Z, (my + (h - 2 * my))%Z.
  split; [done|]. cbn [draw_area vertical_lines horizontal_lines].
  split; [done|]. split; [done|]. split; [lia|]. split; [lia|].
  rewrite !length_map. split; [done|]. split; [done|].
  split; [|split].
  - apply Forall_map. eapply Forall_impl; [exact Hxr|].
    intros o Ho. cbv beta in Ho. unfold spans_height. cbn [fst snd]. lia.
  - apply Forall_map. eapply Forall_impl; [exact Hyr|].
    intros o Ho. cbv beta in Ho. unfold spans_width. cbn [fst snd]. lia.
  - rewrite !list_lookup_fmap, Hx0, Hx1, Hy0, Hy1.
    cbn [fmap option_fmap option_map]. rewrite !Z.add_0_r.
    split; [done|]. split; [done|]. split; [done|]. split; [done|]. split.
    + intros i j a b Hij Ha Hb. rewrite list_lookup_fmap in Ha, Hb.
      destruct (xs !! i) as [oa|] eqn:Ea; [|done].
      destruct (xs !! j) as [ob|] eqn:Eb; [|done].
      injection Ha as <-. injection Hb as <-. cbn [fst snd].
      pose proof (Hxm i j oa ob Hij Ea Eb). lia.
    + intros i j a b Hij Ha Hb. rewrite list_lookup_fmap in Ha, Hb.
      destruct (ys !! i) as [oa|] eqn:Ea; [|done].
      destruct (ys !! j) as [ob|] eqn:Eb; [|done].
      injection Ha as <-. injection Hb as <-. cbn [fst snd].
      pose proof (Hym i j oa ob Hij Ea Eb). lia.
Qed.

Lemma draw_grid_lines_witness :
  exists d,
    _draw_grid 1240 1754 8 (5 # 100) = Some d /\
    draw_area d = (62, 87, 1178, 1667)%Z.
Proof.
  assert (Hm0 : (0 <= 5 # 100)%Q) by lra.
  assert (Hm1 : (5 # 100 <= 1 # 2)%Q) by lra.
  destruct (proj2 (draw_grid_lines 1240 1754 8 (5 # 100)
                     ltac:(lia) ltac:(lia) ltac:(lia) Hm0 Hm1))
    as (d & x_start & y_start & x_end & y_end & Hd & Harea & _).
  exists d. split; [exact Hd|]. rewrite Harea. reflexivity.
Defined.






Lemma draw_grid_area w h grid_cells margin_fraction :
  (0 < grid_cells)%Z ->
  draw_area <$> _draw_grid w h grid_cells margin_fraction
  = Some (_draw_grid_area w h margin_fraction).
Proof.
  intros Hg. unfold _draw_grid. rewrite !line_offsets_eq by done. done.
Qed.

Lemma paper_size_lookup paper_size :
  default (1240, 1754)%Z (PAPER_SIZES !! paper_size)
  = if bool_decide (paper_size = "A3") then (1754, 2480)%Z
    else if bool_decide (paper_size = "square") then (1500, 1500)%Z
    else (1240, 1754)%Z.
Proof.
  unfold PAPER_SIZES. cbn [list_to_map foldr curry].
  destruct (decide (paper_size = "A4")) as [->|H4].
  { by rewrite lookup_insert_eq. }
  rewrite lookup_insert_ne by done. case_bool_decide as H3.
  { subst. by rewrite lookup_insert_eq. }
  rewrite lookup_insert_ne by done. case_bool_decide as Hs.
  { subst. by rewrite lookup_insert_eq. }
  rewrite lookup_insert_ne by done. by rewrite lookup_empty.
Qed.

(** X29: for every paper-size string and every positive number of grid
    cells, [render_step] gets a drawing area: that of A3 or of the square
    paper for these two names and that of A4 for "A4" and for every other
    string.  Each area has a positive width and height, so that the
    projection of contours into it divides by no zero. *)
Theorem render_step_area_of_paper (paper_size : string) (grid_cells : Z) :
  (0 < grid_cells)%Z ->
  render_step_area paper_size grid_cells = Some (paper_area paper_size) /\
  (let '(x_start, y_start, x_end, y_end) := paper_area paper_size in
   (0 < x_start < x_end)%Z /\ (0 < y_start < y_end)%Z).
Proof.
  intros Hg. unfold render_step_area.
  assert (E4 : PAPER_SIZES !! "A4" = Some (1240, 1754)%Z) by done.
  rewrite E4. cbn [mbind option_bind]. rewrite paper_size_lookup.
  unfold paper_area.
  repeat case_bool_decide;
    (split; [|cbn; lia]);
    match goal with
    | |- context [_draw_grid ?w ?h _ _] =>
      pose proof (draw_grid_area w h grid_cells (5 # 100) Hg) as Ha;
      destruct (_draw_grid w h grid_cells (5 # 100)) as [d|]; [|done];
      cbn [mbind option_bind];
      cbn [fmap option_fmap option_map] in Ha; rewrite Ha; reflexivity
    end.
Qed.

Lemma render_step_area_of_paper_witness :
  render_step_area "letter" 8 = Some (62, 87, 1178, 1667)%Z.
Proof.
  exact (proj1 (render_step_area_of_paper "letter" 8 ltac:(lia))).
Defined.

End CanvasMore.
